(** * Dynamic form front end: schema expansion, rule synthesis, serialization

    A shallow embedding of the form-filling core of the repository:

    - [generateFieldName]  (components/FieldEditor.js, NestedFieldsManager.js)
    - [getAllFields], [generateValidationSchema], [getInitialValues],
      the answer loop of [handleSubmit]  (pages/forms/[id].js)
    - [generateStableId], [handleDragEnd]  (components/DraggableFieldList.js)

    and of the code around it:

    - [fieldsWithStableIds] as [useMemo] keeps it, [handleFieldUpdate],
      [handleFieldDelete], [handleAddField]
      (components/DraggableFieldList.js)
    - [handleChange], [handleOptionsChange] and the options filter of
      [handleSave]  (components/FieldEditor.js)
    - the handlers of components/NestedFieldsManager.js
    - the change handler of a select or radio field and the nested fields
      rendered under it  (pages/forms/[id].js)
    - [fetchForm] and the checks of [handleSubmit]  (pages/admin/forms)

    JavaScript objects used as dictionaries are finite maps, arrays are lists,
    and a read of a property an object does not own is [None].  The
    properties inherited from [Object.prototype] are modelled where the code
    uses what it reads without a guard: in the existence test of
    [handleSubmit] and in the change handler of a select or radio field.
    Strings are
    sequences of 8-bit characters; the string operations used by the code
    ([startsWith], [replace] with a string pattern, concatenation, [===]) do
    not depend on the alphabet.  [toLowerCase] and the character classes of
    the regular expressions are modelled on ASCII; [trim] is a parameter or
    generic in the characters.  Numbers are integers; [handleSubmit] takes
    their rendering as a parameter.

    The schema is typed: a field has a string [name], [label] and [type], a
    boolean [required], and every branch of [conditionalFields] is an array of
    fields, so the [Array.isArray] guard of [getAllFields] always takes its
    first arm. *)

From Stdlib Require Import Ascii.
From stdpp Require Import gmap strings list pretty.

Set Warnings "-register-all".
Local Open Scope string_scope.
Local Open Scope list_scope.

(** ** JavaScript values and coercions *)

Module JS.

(** The values a form field or a schema property can hold.  A [File] is
    represented by its [name]; a [Date] by its [getTime()], [toISOString()]
    and [String(...)] renderings. *)
Inductive value :=
| VUndefined
| VNull
| VBool (b : bool)
| VNum (z : Z)
| VStr (s : string)
| VFile (fname : string)
| VDate (time : Z) (iso display : string).

#[global] Instance value_eq_dec : EqDecision value.
Proof. solve_decision. Defined.

(** ToBoolean: [if (v)], [!v], [a || b]. *)
Definition truthy (v : value) : bool :=
  match v with
  | VUndefined | VNull => false
  | VBool b => b
  | VNum z => negb (Z.eqb z 0)
  | VStr s => negb (String.eqb s "")
  | VFile _ | VDate _ _ _ => true
  end.

(** [a || b] *)
Definition or_else (a b : value) : value := if truthy a then a else b.

(** [String(v)], also the coercion of a property key. *)
Definition to_String (v : value) : string :=
  match v with
  | VUndefined => "undefined"
  | VNull => "null"
  | VBool true => "true"
  | VBool false => "false"
  | VNum z => pretty z
  | VStr s => s
  | VFile _ => "[object File]"
  | VDate _ _ display => display
  end.

(** A property read [o[k]] that may come back [undefined]. *)
Definition of_option (o : option string) : value :=
  match o with Some s => VStr s | None => VUndefined end.

(** An optional string property used as a condition: [undefined] and the
    empty string are falsy. *)
Definition truthy_string (o : option string) : option string :=
  match o with
  | Some s => if String.eqb s "" then None else Some s
  | None => None
  end.

(** [s.startsWith(pre)] *)
Definition startsWith (s pre : string) : bool := String.prefix pre s.

Fixpoint drop (n : nat) (s : string) : string :=
  match n, s with
  | S n', String _ t => drop n' t
  | _, _ => s
  end.

(** [s.replace(pat, rep)] with a string pattern: only the first occurrence
    is replaced.  ([rep] is the empty string at every call site, so the
    [$]-patterns of a replacement string do not arise.) *)
Fixpoint replace (s pat rep : string) : string :=
  if String.prefix pat s then rep +:+ drop (String.length pat) s
  else match s with
       | EmptyString => EmptyString
       | String c t => String c (replace t pat rep)
       end.

(** [s.split(sep)[0]] for a one-character separator. *)
Fixpoint split_head (sep : ascii) (s : string) : string :=
  match s with
  | EmptyString => EmptyString
  | String c t => if Ascii.eqb c sep then EmptyString else String c (split_head sep t)
  end.

(** [s.trim() === ""] on ASCII white space. *)
Fixpoint all_space (s : string) : bool :=
  match s with
  | EmptyString => true
  | String c t => Ascii.is_space c && all_space t
  end.

(** An object read in insertion order, as [Object.entries] enumerates it. *)
Definition entries := list (string * value).

(** [o[k]] on such an object. *)
Fixpoint get (o : entries) (k : string) : value :=
  match o with
  | [] => VUndefined
  | (k', v) :: o' => if String.eqb k' k then v else get o' k
  end.

(** The property names a plain object inherits from [Object.prototype].  A
    read [o[k]] of one of them on an object that does not own [k] yields a
    function (for [__proto__] the prototype itself): a truthy value that is
    not an array and has none of the array methods. *)
Definition Object_prototype : list string :=
  ["constructor"; "hasOwnProperty"; "isPrototypeOf"; "propertyIsEnumerable";
   "toLocaleString"; "toString"; "valueOf"; "__proto__"; "__defineGetter__";
   "__defineSetter__"; "__lookupGetter__"; "__lookupSetter__"].

Definition inherited (k : string) : bool := bool_decide (k ∈ Object_prototype).

(** [xs.some(callback)] for a callback that may throw: [None] is the
    exception, and the elements after the first hit are not visited. *)
Fixpoint some {A} (callback : A → option bool) (xs : list A) : option bool :=
  match xs with
  | [] => Some false
  | x :: xs' =>
      match callback x with
      | Some true => Some true
      | Some false => some callback xs'
      | None => None
      end
  end.

(** [xs.forEach(body)] for a body that updates a state and may throw. *)
Fixpoint forEach {S A} (body : S → A → option S) (xs : list A) (st : S) : option S :=
  match xs with
  | [] => Some st
  | x :: xs' =>
      match body st x with
      | Some st' => forEach body xs' st'
      | None => None
      end
  end.

End JS.

(** ** The local-name normalizer *)

Module FieldName.

Definition is_upper (c : ascii) : bool :=
  (65 <=? nat_of_ascii c)%nat && (nat_of_ascii c <=? 90)%nat.
Definition is_lower (c : ascii) : bool :=
  (97 <=? nat_of_ascii c)%nat && (nat_of_ascii c <=? 122)%nat.
Definition is_digit (c : ascii) : bool :=
  (48 <=? nat_of_ascii c)%nat && (nat_of_ascii c <=? 57)%nat.

Definition underscore : ascii := "_"%char.

Definition lower_char (c : ascii) : ascii :=
  if is_upper c then ascii_of_nat (nat_of_ascii c + 32) else c.

Fixpoint map_chars (f : ascii → ascii) (s : string) : string :=
  match s with
  | EmptyString => EmptyString
  | String c t => String (f c) (map_chars f t)
  end.

(** [label.toLowerCase()] *)
Definition toLowerCase : string → string := map_chars lower_char.

(** [.replace(/[^a-z0-9_]/g, '_')] *)
Definition keep_or_underscore (c : ascii) : ascii :=
  if is_lower c || is_digit c || Ascii.eqb c underscore then c else underscore.

(** [.replace(/_+/g, '_')] *)
Fixpoint squeeze (s : string) : string :=
  match s with
  | EmptyString => EmptyString
  | String c t =>
      if Ascii.eqb c underscore then
        match t with
        | String d _ => if Ascii.eqb d underscore then squeeze t else String c (squeeze t)
        | EmptyString => String c EmptyString
        end
      else String c (squeeze t)
  end.

Fixpoint strip_leading (s : string) : string :=
  match s with
  | String c t => if Ascii.eqb c underscore then strip_leading t else s
  | EmptyString => EmptyString
  end.

Fixpoint strip_trailing (s : string) : string :=
  match s with
  | EmptyString => EmptyString
  | String c t =>
      match strip_trailing t with
      | EmptyString => if Ascii.eqb c underscore then EmptyString else String c EmptyString
      | t' => String c t'
      end
  end.

(** [.replace(/^_+|_+$/g, '')] *)
Definition strip (s : string) : string := strip_trailing (strip_leading s).

(** [/^[a-z]/.test(name)] *)
Definition starts_with_letter (s : string) : bool :=
  match s with String c _ => is_lower c | EmptyString => false end.

Definition generateFieldName (label : string) : string :=
  if String.eqb label "" then ""
  else
    let name := strip (squeeze (map_chars keep_or_underscore (toLowerCase label))) in
    let name :=
      if negb (String.eqb name "") && negb (starts_with_letter name)
      then "field_" +:+ name else name in
    if String.eqb name "" then "field" else name.

(** The separator used by the name qualifier. *)
Fixpoint contains_separator (s : string) : bool :=
  match s with
  | EmptyString => false
  | String c t => Ascii.eqb c underscore || contains_separator t
  end.

End FieldName.

(** ** Field definitions and the field expander *)

Module Schema.

(** [field.validation]: every entry may be missing. *)
Record validation_bag := mkValidation {
  minLength : option Z;
  maxLength : option Z;
  min : option Z;
  max : option Z;
  regex : option string }.

Definition no_validation : validation_bag := mkValidation None None None None None.

(** A field definition as the forms service stores it.  [conditionalFields]
    maps an option of a radio or select field to its nested fields. *)
Inductive field := mkField {
  name : string;
  label : string;
  type : string;
  required : bool;
  options : list string;
  validation : validation_bag;
  conditionalFields : option (gmap string (list field)) }.

(** The nine kinds of section 3. *)
Definition kinds : list string :=
  ["text"; "textarea"; "number"; "email"; "date"; "checkbox"; "radio"; "select";
   "file"].

(** [selectedValues]: the option currently chosen on each selectable field. *)
Abbreviation selection := (gmap string string).

(** [field.type === "radio" || field.type === "select"] *)
Definition is_selectable (f : field) : bool :=
  String.eqb (type f) "radio" || String.eqb (type f) "select".

(** [`${field.name}_${nestedField.name}`] *)
Definition qualify (parent localName : string) : string :=
  parent +:+ "_" +:+ localName.

(** [{ ...nestedField }] followed by the assignment of [name] on the copy. *)
Definition with_name (n : string) (f : field) : field :=
  mkField n (label f) (type f) (required f) (options f) (validation f)
    (conditionalFields f).

(** [nestedFieldCopy] once its name is assigned. *)
Definition nested_copy (f nestedField : field) : field :=
  with_name (qualify (name f) (name nestedField)) nestedField.

(** The body of the outer [forEach] of [getAllFields]: the nested fields of
    [f] are pushed, one by one, on the end of [allFields]. *)
Definition push_conditional (selectedValues : selection)
    (allFields : list field) (f : field) : list field :=
  if is_selectable f then
    match conditionalFields f with
    | Some cf =>
        match JS.truthy_string (selectedValues !! name f) with
        | Some selectedValue =>
            match cf !! selectedValue with
            | Some nested =>
                fold_left (λ acc nestedField, acc ++ [nested_copy f nestedField])
                  nested allFields
            | None => allFields
            end
        | None => allFields
        end
    | None => allFields
    end
  else allFields.

(** [getAllFields(fields, selectedValues)]: a copy of [fields], then the
    loop over [fields]. *)
Definition getAllFields (fields : list field) (selectedValues : selection)
    : list field :=
  fold_left (push_conditional selectedValues) fields fields.

(** The nested fields [getAllFields] emits for one field, already renamed. *)
Definition active_children (selectedValues : selection) (f : field) : list field :=
  push_conditional selectedValues [] f.

(** The ordering of section 4.3 of the specification: each field is
    followed at once by its active nested fields. *)
Definition expand_interleaved (fields : list field) (selectedValues : selection)
    : list field :=
  flat_map (λ f, f :: active_children selectedValues f) fields.

(** A field definition without its nested fields. *)
Definition without_nested (f : field) : field :=
  mkField (name f) (label f) (type f) (required f) (options f) (validation f) None.

(** No top-level name followed by the separator starts another top-level
    name followed by the separator. *)
Definition separator_prefix_free (fields : list field) : Prop :=
  ∀ f g, f ∈ fields → g ∈ fields →
    JS.startsWith (name g +:+ "_") (name f +:+ "_") = true → name f = name g.

(** [f] occurs in [l] and no later element of [l] has its name. *)
Definition last_named (l : list field) (f : field) : Prop :=
  ∃ pre post, l = pre ++ f :: post ∧ name f ∉ name <$> post.


(** [getInitialValues(fields, selectedValues)] *)
Definition initial_value (f : field) : JS.value :=
  if String.eqb (type f) "checkbox" then JS.VBool false
  else if String.eqb (type f) "number" then JS.VUndefined
  else if String.eqb (type f) "file" then JS.VNull
  else JS.VStr "".

Definition getInitialValues (fields : list field) (selectedValues : selection)
    : gmap string JS.value :=
  fold_left (λ initialValues f, <[name f := initial_value f]> initialValues)
    (getAllFields fields selectedValues) ∅.

End Schema.

(** ** The answer serializer: the loop of [handleSubmit] *)

Module Submit.

(** One element of [answers]. *)
Record answer := mkAnswer { name : string; value : string }.

(** [formData]: [null] when the form has no file field, otherwise the
    entries appended so far. *)
Abbreviation form_data := (option (list (string * JS.value))).

(** The reverse of [Schema.qualify] as [handleSubmit] computes it: the
    first top-level field whose name and separator start [name], and
    [name] with that prefix replaced by the empty string. *)
Definition unqualify (formFields : list Schema.field) (name : string)
    : option (Schema.field * string) :=
  parentField ← find (λ pf, JS.startsWith name (Schema.name pf +:+ "_")) formFields;
  Some (parentField, JS.replace name (Schema.name parentField +:+ "_") "").

(** What [parentField.conditionalFields?.[selectedValue] || []] yields: an
    array of fields or, for a key the object inherits without owning it, a
    value that is not an array. *)
Inductive branch :=
| Fields (nestedFields : list Schema.field)
| NotAnArray.

(** [parentField.conditionalFields?.[selectedValue] || []], where [key] is
    [selectedValue] as a property key: the read is not guarded by
    [Array.isArray]. *)
Definition branch_or_empty (parentField : Schema.field) (key : string) : branch :=
  match Schema.conditionalFields parentField with
  | Some cf =>
      match cf !! key with
      | Some nestedFields => Fields nestedFields
      | None => if JS.inherited key then NotAnArray else Fields []
      end
  | None => Fields []
  end.

(** [values] owns the property [k]. *)
Definition owns (values : JS.entries) (k : string) : bool :=
  existsb (λ e, String.eqb e.1 k) values.

Section WithRenderings.

(** [Number::toString]: the decimal digits of an integer of magnitude below
    [10^21], exponent notation from there on. *)
Variable Number_toString : Z → string.

(** [String(Object.prototype[k])] for a property name [k] that every object
    inherits: the source text of a built-in function. *)
Variable Inherited_toString : string → string.

(** [String(v)], also the coercion of a property key. *)
Definition to_String (v : JS.value) : string :=
  match v with
  | JS.VNum z => Number_toString z
  | _ => JS.to_String v
  end.

(** [values[k]] as a property key; the value map inherits the properties it
    does not own. *)
Definition value_key (values : JS.entries) (k : string) : string :=
  if owns values k then to_String (JS.get values k)
  else if JS.inherited k then Inherited_toString k
  else "undefined".

(** [selectedValues[k] || values[k]] as a property key.  The selection
    state too inherits the properties it does not own, and what it inherits
    is truthy. *)
Definition selected_key (selectedValues : Schema.selection) (values : JS.entries)
    (k : string) : string :=
  match selectedValues !! k with
  | Some s => if String.eqb s "" then value_key values k else s
  | None => if JS.inherited k then Inherited_toString k else value_key values k
  end.

(** The callback of [allFields.some] that computes [fieldExists]; [None]
    is the [TypeError] of [conditionalFields.some] on a value that is not an
    array. *)
Definition exists_for (formFields : list Schema.field)
    (selectedValues : Schema.selection) (values : JS.entries)
    (name : string) (f : Schema.field) : option bool :=
  if JS.startsWith name (Schema.name f +:+ "_") then
    match unqualify formFields name with
    | Some (parentField, nestedFieldName) =>
        let selectedValue :=
          selected_key selectedValues values (Schema.name parentField) in
        match branch_or_empty parentField selectedValue with
        | Fields conditionalFields =>
            Some (existsb (λ nf, String.eqb (Schema.name nf) nestedFieldName)
                    conditionalFields)
        | NotAnArray => None
        end
    | None => Some (String.eqb (Schema.name f) name)
    end
  else Some (String.eqb (Schema.name f) name).

Definition fieldExists (formFields allFields : list Schema.field)
    (selectedValues : Schema.selection) (values : JS.entries)
    (name : string) : option bool :=
  JS.some (exists_for formFields selectedValues values name) allFields.

(** The string sent for a value of a field that is not a file field. *)
Definition stringValue (v : JS.value) : string :=
  match v with
  | JS.VNull | JS.VUndefined => ""
  | JS.VBool b => if b then "true" else "false"
  | JS.VDate _ iso _ => JS.split_head "T" iso
  | _ => to_String v
  end.

(** The body of [if (fieldExists) { ... }]. *)
Definition append_entry (allFields : list Schema.field)
    (st : list answer * form_data) (entry : string * JS.value)
    : list answer * form_data :=
  let '(answers, formData) := st in
  let '(name, v) := entry in
  let field :=
    find (λ f, String.eqb (Schema.name f) name
               || JS.startsWith name (Schema.name f +:+ "_")) allFields in
  if bool_decide (Schema.type <$> field = Some "file") then
    match v with
    | JS.VFile fname =>
        (answers ++ [mkAnswer name fname],
         (λ fd, fd ++ [(name, v)]) <$> formData)
    | _ =>
        if from_option Schema.required false field
        then (answers ++ [mkAnswer name ""], formData)
        else (answers, formData)
    end
  else (answers ++ [mkAnswer name (stringValue v)], formData).

(** The body of [Object.entries(values).forEach]; [None] when the
    existence test throws. *)
Definition submit_entry (formFields allFields : list Schema.field)
    (selectedValues : Schema.selection) (values : JS.entries)
    (st : list answer * form_data) (entry : string * JS.value)
    : option (list answer * form_data) :=
  match fieldExists formFields allFields selectedValues values entry.1 with
  | Some true => Some (append_entry allFields st entry)
  | Some false => Some st
  | None => None
  end.

(** [answers] and [formData] as [handleSubmit] holds them after the loop,
    when it goes on to call [submissionsAPI.submit]; [None] when the loop
    throws, where the [catch] reports an error and nothing is submitted. *)
Definition serialize (formFields : list Schema.field)
    (selectedValues : Schema.selection) (values : JS.entries)
    : option (list answer * form_data) :=
  let allFields := Schema.getAllFields formFields selectedValues in
  let hasFileFields := existsb (λ f, String.eqb (Schema.type f) "file") allFields in
  JS.forEach (submit_entry formFields allFields selectedValues values) values
    ([], if hasFileFields then Some [] else None).

(** The names of the answers submitted: none when the loop throws. *)
Definition answer_names (formFields : list Schema.field)
    (selectedValues : Schema.selection) (values : JS.entries) : list string :=
  match serialize formFields selectedValues values with
  | Some (answers, _) => name <$> answers
  | None => []
  end.

End WithRenderings.

End Submit.

(** ** Exceptions and the console *)

Module Eff.

Inductive exn := SyntaxError (pattern : string).

(** A computation that may throw and that writes to [console.error]. *)
Definition M (A : Type) : Type := list string → (exn + A) * list string.

Definition ret {A} (a : A) : M A := λ log, (inr a, log).

Definition bind {A B} (m : M A) (k : A → M B) : M B :=
  λ log, match m log with
         | (inr a, log') => k a log'
         | (inl e, log') => (inl e, log')
         end.

Definition throw {A} (e : exn) : M A := λ log, (inl e, log).

(** [try { m } catch (e) { h(e) }] *)
Definition try_catch {A} (m : M A) (h : exn → M A) : M A :=
  λ log, match m log with
         | (inl e, log') => h e log'
         | r => r
         end.

(** [console.error(prefix, detail)] *)
Definition console_error (prefix detail : string) : M unit :=
  λ log, (inr (), log ++ [prefix +:+ " " +:+ detail]).

(** [xs.forEach(x => { acc = body(acc, x) })] *)
Fixpoint forEach {A S} (body : S → A → M S) (xs : list A) (acc : S) : M S :=
  match xs with
  | [] => ret acc
  | x :: xs' => bind (body acc x) (forEach body xs')
  end.

Definition run {A} (m : M A) : (exn + A) * list string := m [].

End Eff.

#[global] Instance M_ret : MRet Eff.M := @Eff.ret.
#[global] Instance M_bind : MBind Eff.M := λ A B k m, Eff.bind m k.

(** ** The rule synthesizer *)

Module Yup.

(** The two [transform] callbacks and the [test] callback written in
    [generateValidationSchema]. *)
Inductive transformer := number_transform | date_transform.
Inductive tester := file_required_test.

Inductive base := string_ | number_ | date_ | boolean_ | mixed_.

(** One chained method call on a schema under construction. *)
Inductive call :=
| email (message : string)
| min (limit : Z) (message : string)
| max (limit : Z) (message : string)
| matches (regex : string) (message : string)
| oneOf (allowed : list JS.value) (message : string)
| required (message : string)
| nullable (flag : bool)
| notRequired
| typeError (message : string)
| transform (fn : transformer)
| test (name message : string) (fn : tester).

(** [Yup.string()], [Yup.number()], ... followed by the calls chained on it,
    first call first. *)
Record schema := mkSchema { kind : base; calls : list call }.

Definition string : schema := mkSchema string_ [].
Definition number : schema := mkSchema number_ [].
Definition date : schema := mkSchema date_ [].
Definition boolean : schema := mkSchema boolean_ [].
Definition mixed : schema := mkSchema mixed_ [].

Definition chain (s : schema) (c : call) : schema :=
  mkSchema (kind s) (calls s ++ [c]).

(** The calls that can reject a value that is not there: [required] and a
    [test] callback. *)
Definition binds_absent (c : call) : bool :=
  match c with
  | required _ | test _ _ _ => true
  | _ => false
  end.

Definition free_of_binding (s : schema) : Prop :=
  forallb (λ c, negb (binds_absent c)) (calls s) = true.

End Yup.

Notation "s .> c" := (Yup.chain s c) (at level 50, left associativity).

Module Synth.
Import Schema.

Section WithRegExp.

(** [new RegExp(source)] throws a [SyntaxError] on the sources for which
    [regex_ok] is false; a compiled expression is kept as its source. *)
Variable regex_ok : string → bool.

Definition new_RegExp (source : string) : Eff.M string :=
  if regex_ok source then Eff.ret source
  else Eff.throw (Eff.SyntaxError source).

(** [if (field.validation?.minLength)]: a missing or zero limit is falsy. *)
Definition truthy_limit (o : option Z) : option Z :=
  match o with
  | Some n => if Z.eqb n 0 then None else Some n
  | None => None
  end.

Definition with_length_limits (f : field) (fieldSchema : Yup.schema) : Yup.schema :=
  let fieldSchema :=
    match truthy_limit (minLength (validation f)) with
    | Some n =>
        fieldSchema .> Yup.min n
          (label f +:+ " must be at least " +:+ pretty n +:+ " characters")
    | None => fieldSchema
    end in
  match truthy_limit (maxLength (validation f)) with
  | Some n =>
      fieldSchema .> Yup.max n
        (label f +:+ " must be at most " +:+ pretty n +:+ " characters")
  | None => fieldSchema
  end.

(** The [switch (field.type)] of [generateValidationSchema]. *)
Definition base_schema (f : field) : Eff.M Yup.schema :=
  if String.eqb (type f) "email" then
    Eff.ret (with_length_limits f
      (Yup.string .> Yup.email (label f +:+ " must be a valid email address")))
  else if String.eqb (type f) "number" then
    let fieldSchema :=
      Yup.number .> Yup.transform Yup.number_transform
                 .> Yup.typeError (label f +:+ " must be a valid number")
                 .> Yup.nullable true in
    let fieldSchema :=
      match min (validation f) with
      | Some n =>
          fieldSchema .> Yup.min n (label f +:+ " must be at least " +:+ pretty n)
      | None => fieldSchema
      end in
    Eff.ret
      match max (validation f) with
      | Some n =>
          fieldSchema .> Yup.max n (label f +:+ " must be at most " +:+ pretty n)
      | None => fieldSchema
      end
  else if String.eqb (type f) "text" || String.eqb (type f) "textarea" then
    let fieldSchema := with_length_limits f Yup.string in
    match JS.truthy_string (regex (validation f)) with
    | Some source =>
        Eff.try_catch
          (re ← new_RegExp source;
           Eff.ret (fieldSchema .> Yup.matches re (label f +:+ " format is invalid")))
          (λ e,
             _ ← Eff.console_error "Invalid regex pattern:" source;
             Eff.ret fieldSchema)
    | None => Eff.ret fieldSchema
    end
  else if String.eqb (type f) "date" then
    let fieldSchema :=
      Yup.date .> Yup.transform Yup.date_transform
               .> Yup.typeError (label f +:+ " must be a valid date")
               .> Yup.nullable true in
    Eff.ret
      (if required f
       then fieldSchema .> Yup.required (label f +:+ " is required")
                        .> Yup.nullable false
       else fieldSchema)
  else if String.eqb (type f) "select" || String.eqb (type f) "radio" then
    Eff.ret
      (match options f with
       | [] => Yup.string
       | _ :: _ =>
           Yup.string .> Yup.oneOf (JS.VStr <$> options f)
             (label f +:+ " must be one of the provided options")
       end)
  else if String.eqb (type f) "checkbox" then
    Eff.ret Yup.boolean
  else if String.eqb (type f) "file" then
    Eff.ret
      (if required f
       then Yup.mixed .> Yup.test "file-required" (label f +:+ " is required")
                                  Yup.file_required_test
       else Yup.mixed .> Yup.nullable true .> Yup.notRequired)
  else
    Eff.ret Yup.string.

(** The required / optional tail applied after the [switch]. *)
Definition with_requiredness (f : field) (fieldSchema : Yup.schema) : Yup.schema :=
  if required f && negb (String.eqb (type f) "file") then
    if String.eqb (type f) "checkbox" then
      fieldSchema .> Yup.oneOf [JS.VBool true] (label f +:+ " is required")
    else if String.eqb (type f) "number" then
      fieldSchema .> Yup.required (label f +:+ " is required") .> Yup.nullable false
    else if String.eqb (type f) "date" then
      fieldSchema .> Yup.required (label f +:+ " is required") .> Yup.nullable false
    else
      fieldSchema .> Yup.required (label f +:+ " is required")
  else if negb (required f) then
    if String.eqb (type f) "number" || String.eqb (type f) "date" then
      fieldSchema .> Yup.nullable true .> Yup.notRequired
    else if negb (String.eqb (type f) "checkbox") && negb (String.eqb (type f) "file") then
      fieldSchema .> Yup.nullable true .> Yup.notRequired
    else fieldSchema
  else fieldSchema.

(** The rule built for one field. *)
Definition field_rule (f : field) : Eff.M Yup.schema :=
  fieldSchema ← base_schema f;
  Eff.ret (with_requiredness f fieldSchema).

(** The rule [field_rule] returns and the lines it writes, started on an
    empty console. *)
Definition rule_of (f : field) : Yup.schema :=
  match (Eff.run (field_rule f)).1 with
  | inr fieldSchema => fieldSchema
  | inl _ => Yup.string
  end.

Definition log_of (f : field) : list string := (Eff.run (field_rule f)).2.

(** [generateValidationSchema(fields, selectedValues)]: the shape handed
    to [Yup.object().shape]. *)
Definition generateValidationSchema (fields : list field)
    (selectedValues : selection) : Eff.M (gmap string Yup.schema) :=
  let allFields := getAllFields fields selectedValues in
  Eff.forEach
    (λ schema f,
       fieldSchema ← field_rule f;
       Eff.ret (<[name f := fieldSchema]> schema))
    allFields ∅.

End WithRegExp.

End Synth.

(** ** The validator *)

Module Validator.

Inductive outcome := Valid | Invalid (message : string).

Section WithGrammars.

(** [Number(s)] on a string, [None] for [NaN]; the email grammar; the
    calendar-date parser; [value.search(regex) !== -1]. *)
Variable Number_of_string : string → option Z.
Variable email_ok : string → bool.
Variable date_ok : string → bool.
Variable regex_search : string → string → bool.

(** [Number(v)] *)
Definition to_Number (v : JS.value) : option Z :=
  match v with
  | JS.VUndefined => None
  | JS.VNull => Some 0%Z
  | JS.VBool b => Some (if b then 1 else 0)%Z
  | JS.VNum z => Some z
  | JS.VStr s => Number_of_string s
  | JS.VFile _ => None
  | JS.VDate t _ _ => Some t
  end.

(** The callbacks of [generateValidationSchema], from its source text.
    A transform receives the value cast so far and the original value. *)
Definition run_transform (fn : Yup.transformer) (v originalValue : JS.value) : JS.value :=
  match fn with
  | Yup.number_transform =>
      if bool_decide (originalValue = JS.VStr "") || bool_decide (originalValue = JS.VNull)
      then JS.VUndefined
      else match to_Number originalValue with
           | Some num => JS.VNum num
           | None => originalValue
           end
  | Yup.date_transform =>
      if JS.all_space (JS.to_String originalValue) then JS.VUndefined else v
  end.

Definition run_test (fn : Yup.tester) (v : JS.value) : bool :=
  match fn with
  | Yup.file_required_test =>
      if negb (JS.truthy v) then false
      else match v with
           | JS.VFile _ => true
           | JS.VStr s => negb (JS.all_space s)
           | _ => false
           end
  end.

(** Modelled from the spec: the evaluation of a synthesized rule is done
    by the yup library, called by Formik, and neither is under src/.
    Sections 4.4 and 4.5 give what it has to do: a value left empty is
    absent; an absent value fails a required rule and otherwise skips
    every constraint check; a present value passes the base check of its
    kind and then the constraint checks in the order they were chained.
    The chained [test] callback of a required file field sees every
    value, absent ones too. *)
Definition required_message (s : Yup.schema) : option string :=
  fold_left
    (λ acc c, match c with
              | Yup.required m => Some m
              | Yup.notRequired => None
              | _ => acc
              end)
    (Yup.calls s) None.

(** Modelled from the spec: see [required_message]. *)
Definition is_nullable (s : Yup.schema) : bool :=
  fold_left
    (λ acc c, match c with Yup.nullable b => b | _ => acc end)
    (Yup.calls s) false.

(** Modelled from the spec: see [required_message]. *)
Definition type_message (s : Yup.schema) : string :=
  fold_left
    (λ acc c, match c with Yup.typeError m => m | _ => acc end)
    (Yup.calls s) "this must be a valid value".

(** Modelled from the spec: a field left empty reaches the rule as an
    absent value (Formik hands the empty string to yup as [undefined]). *)
Definition left_empty (v : JS.value) : bool :=
  bool_decide (v = JS.VUndefined) || bool_decide (v = JS.VStr "").

(** Modelled from the spec: the transforms of the rule, in chain order. *)
Definition cast (s : Yup.schema) (originalValue : JS.value) : JS.value :=
  fold_left
    (λ v c, match c with
            | Yup.transform fn => run_transform fn v originalValue
            | _ => v
            end)
    (Yup.calls s) originalValue.

(** Modelled from the spec: the base check of section 4.4, per kind. *)
Definition base_check (k : Yup.base) (v : JS.value) : bool :=
  match k, v with
  | Yup.string_, JS.VStr _ => true
  | Yup.number_, JS.VNum _ => true
  | Yup.date_, JS.VDate _ _ _ => true
  | Yup.date_, JS.VStr s => date_ok s
  | Yup.boolean_, JS.VBool _ => true
  | Yup.mixed_, _ => true
  | _, _ => false
  end.

(** Modelled from the spec: one constraint check of section 4.4 on a
    present value; [None] when it passes. *)
Definition check (k : Yup.base) (c : Yup.call) (v : JS.value) : option string :=
  match c, v with
  | Yup.email m, JS.VStr s => if email_ok s then None else Some m
  | Yup.min n m, JS.VStr s => if (n <=? Z.of_nat (String.length s))%Z then None else Some m
  | Yup.max n m, JS.VStr s => if (Z.of_nat (String.length s) <=? n)%Z then None else Some m
  | Yup.min n m, JS.VNum z => if (n <=? z)%Z then None else Some m
  | Yup.max n m, JS.VNum z => if (z <=? n)%Z then None else Some m
  | Yup.matches re m, JS.VStr s => if regex_search re s then None else Some m
  | Yup.oneOf allowed m, _ => if bool_decide (v ∈ allowed) then None else Some m
  | Yup.test _ m fn, _ => if run_test fn v then None else Some m
  | _, _ => None
  end.

(** Modelled from the spec: the [test] callbacks only, for an absent value. *)
Definition check_absent (c : Yup.call) (v : JS.value) : option string :=
  match c with
  | Yup.test _ m fn => if run_test fn v then None else Some m
  | _ => None
  end.

(** Modelled from the spec: the message of the first check that fails. *)
Definition first_failure (checks : list (option string)) : outcome :=
  match omap id checks with
  | m :: _ => Invalid m
  | [] => Valid
  end.

(** Modelled from the spec: [validate] of section 4.5 for one field. *)
Definition validate_value (s : Yup.schema) (raw : JS.value) : outcome :=
  let originalValue := if left_empty raw then JS.VUndefined else raw in
  let v := cast s originalValue in
  match v with
  | JS.VUndefined =>
      match required_message s with
      | Some m => Invalid m
      | None => first_failure ((λ c, check_absent c v) <$> Yup.calls s)
      end
  | JS.VNull =>
      match required_message s with
      | Some m => Invalid m
      | None =>
          if is_nullable s
          then first_failure ((λ c, check_absent c v) <$> Yup.calls s)
          else Invalid (type_message s)
      end
  | _ =>
      if base_check (Yup.kind s) v
      then first_failure ((λ c, check (Yup.kind s) c v) <$> Yup.calls s)
      else Invalid (type_message s)
  end.

(** Modelled from the spec: [validate(ruleSet, values)], field by field. *)
Definition validate (rules : gmap string Yup.schema) (values : JS.entries)
    : gmap string outcome :=
  map_imap (λ name s, Some (validate_value s (JS.get values name))) rules.

End WithGrammars.

End Validator.

(** ** Field identity in the reorder editor *)

Module Identity.

(** A field as the editor holds it: the definition, the storage id [_id],
    the drag token [_dragId] and the position [order]. *)
Record item := mkItem {
  _dragId : option string;
  _id : option string;
  order : nat;
  def : Schema.field }.

Definition name (f : item) : string := Schema.name (def f).

Definition generateStableId (f : item) (index : nat) : string :=
  match JS.truthy_string (_dragId f) with
  | Some token => token
  | None =>
      match JS.truthy_string (_id f) with
      | Some id => id
      | None =>
          if negb (String.eqb (name f) "") then "field-" +:+ name f
          else "field-temp-" +:+ pretty index
      end
  end.

(** The callback of [useMemo]: every field with its identity as token. *)
Definition stable_ids (fields : list item) : list item :=
  imap (λ index f, mkItem (Some (generateStableId f index)) (_id f) (order f) (def f))
    fields.

(** [`${f._id || f._dragId || i}-${f.name || ''}`] *)
Definition key_part (i : nat) (f : item) : string :=
  match JS.truthy_string (_id f) with
  | Some id => id
  | None =>
      match JS.truthy_string (_dragId f) with
      | Some token => token
      | None => pretty i
      end
  end +:+ "-" +:+ name f.

(** The dependency of [useMemo]: the key parts joined by commas. *)
Definition memo_key (fields : list item) : string :=
  String.concat "," (imap key_part fields).

(** [useMemo] keeps the list it computed last together with the key it
    computed it for, and computes again only when the key differs.  Both are
    given by the [fields] of the render that computed them, so the cell is
    represented by those: [memoized last fields] are the fields the list is
    computed from at a render with [fields], where [last] are the ones of
    the render before ([None] at the first render). *)
Definition memoized (last : option (list item)) (fields : list item) : list item :=
  match last with
  | Some previous =>
      if String.eqb (memo_key previous) (memo_key fields) then previous else fields
  | None => fields
  end.

(** [fieldsWithStableIds] at a render with [fields]. *)
Definition fieldsWithStableIds (last : option (list item)) (fields : list item)
    : list item :=
  stable_ids (memoized last fields).

(** The field has a storage id or a drag token. *)
Definition identified (f : item) : Prop :=
  is_Some (JS.truthy_string (_id f)) ∨ is_Some (JS.truthy_string (_dragId f)).

(** What [handleDragEnd] does: nothing, a call of [onFieldsChange], or a
    [TypeError] when the source index is outside the list.  The handlers
    read [fieldsWithStableIds], the memoized list, which they take as their
    first argument here. *)
Inductive drag_result :=
| Ignored
| Updated (updatedFields : list item)
| Raised.

(** [items.splice(at, 0, x)] *)
Definition splice_in {A} (at_ : nat) (x : A) (items : list A) : list A :=
  take at_ items ++ x :: drop at_ items.

(** [_dragId: field._dragId || generateStableId(field, index)] *)
Definition keep_or_generate (f : item) (index : nat) : option string :=
  match JS.truthy_string (_dragId f) with
  | Some token => Some token
  | None => Some (generateStableId f index)
  end.

Definition handleDragEnd (fieldsWithStableIds : list item) (source : nat)
    (destination : option nat) : drag_result :=
  match destination with
  | None => Ignored
  | Some destination =>
      if Nat.eqb source destination then Ignored
      else
        let items := fieldsWithStableIds in
        match items !! source with
        | Some reorderedItem =>
            let items := splice_in destination reorderedItem (delete source items) in
            Updated
              (imap (λ index f,
                       mkItem (keep_or_generate f index) (_id f) index (def f))
                 items)
        | None => Raised
        end
  end.

(** Moving the element at [source] to [destination]. *)
Definition move {A} (source destination : nat) (l : list A) : list A :=
  match l !! source with
  | Some x => splice_in destination x (delete source l)
  | None => l
  end.

(** The identity of each field of a list, by position. *)
Definition identities (fields : list item) : list string :=
  imap (λ index f, generateStableId f index) fields.

End Identity.

(** ** The field expander on shared objects *)

Module Store.

Abbreviation loc := positive.

(** A field object; its nested fields are references. *)
Record object := mkObject {
  name : string;
  label : string;
  type : string;
  required : bool;
  options : list string;
  validation : Schema.validation_bag;
  conditionalFields : option (gmap string (list loc)) }.

Abbreviation heap := (gmap loc object).

Definition is_selectable (o : object) : bool :=
  String.eqb (type o) "radio" || String.eqb (type o) "select".

(** [o.name = n] *)
Definition set_name (n : string) (o : object) : object :=
  mkObject n (label o) (type o) (required o) (options o) (validation o)
    (conditionalFields o).

(** [{ ...source }]: a new object with the properties of [source]. *)
Definition spread (h : heap) (source : loc) : option (heap * loc) :=
  o ← h !! source;
  let l := fresh (dom h) in
  Some (<[l := o]> h, l).

(** [target.name = `${field.name}_${nestedField.name}`] *)
Definition assign_qualified_name (h : heap) (target field nestedField : loc)
    : option heap :=
  t ← h !! target;
  f ← h !! field;
  nf ← h !! nestedField;
  Some (<[target := set_name (Schema.qualify (name f) (name nf)) t]> h).

(** The body of the inner [forEach] of [getAllFields].  [None] stands for a
    dangling reference, which a JavaScript heap does not have. *)
Definition push_copy (field : loc) (st : option (heap * list loc)) (nestedField : loc)
    : option (heap * list loc) :=
  '(h, allFields) ← st;
  '(h, nestedFieldCopy) ← spread h nestedField;
  h ← assign_qualified_name h nestedFieldCopy field nestedField;
  Some (h, allFields ++ [nestedFieldCopy]).

(** The body of the outer [forEach]. *)
Definition push_conditional (selectedValues : Schema.selection)
    (st : option (heap * list loc)) (field : loc) : option (heap * list loc) :=
  '(h, allFields) ← st;
  f ← h !! field;
  if is_selectable f then
    match conditionalFields f with
    | Some cf =>
        match JS.truthy_string (selectedValues !! name f) with
        | Some selectedValue =>
            match cf !! selectedValue with
            | Some nested => fold_left (push_copy field) nested (Some (h, allFields))
            | None => Some (h, allFields)
            end
        | None => Some (h, allFields)
        end
    | None => Some (h, allFields)
    end
  else Some (h, allFields).

Definition getAllFields (h : heap) (fields : list loc)
    (selectedValues : Schema.selection) : option (heap * list loc) :=
  fold_left (push_conditional selectedValues) fields (Some (h, fields)).

(** Every reference held by the schema points to an object. *)
Definition closed (h : heap) (fields : list loc) : Prop :=
  (∀ l, l ∈ fields → is_Some (h !! l)) ∧
  (∀ l o cf k nested n,
     h !! l = Some o → conditionalFields o = Some cf → cf !! k = Some nested →
     n ∈ nested → is_Some (h !! n)).

(** An object read as a field definition, its nested fields left out. *)
Definition read_flat (h : heap) (l : loc) : option Schema.field :=
  o ← h !! l;
  Some (Schema.mkField (name o) (label o) (type o) (required o) (options o)
          (validation o) None).

(** A top-level object read as a field definition; each nested field is read
    without nested fields of its own, which is as far as [getAllFields]
    looks. *)
Definition read (h : heap) (l : loc) : option Schema.field :=
  o ← h !! l;
  Some (Schema.mkField (name o) (label o) (type o) (required o) (options o)
          (validation o)
          ((λ cf : gmap string (list loc),
              (omap (mapM (read_flat h)) cf : gmap string (list Schema.field)))
             <$> conditionalFields o)).

(** What the loops maintain: the objects of the initial heap [h0] are still
    there, unchanged, and the list is [fields] followed by new objects. *)
Definition preserved (h0 : heap) (fields : list loc) (st : option (heap * list loc))
    : Prop :=
  ∃ h out extra, st = Some (h, out) ∧ h0 ⊆ h ∧ out = fields ++ extra
                 ∧ Forall (λ l, l ∉ dom h0) extra.

(** The list built so far, read in the current heap, is the list the expander
    on values has built. *)
Definition agrees (h0 : heap) (st : option (heap * list loc)) (acc : list Schema.field)
    : Prop :=
  ∃ h out, st = Some (h, out) ∧ h0 ⊆ h
           ∧ Forall2 (λ l f, read_flat h l = Some (Schema.without_nested f)) out acc.

End Store.

(** ** Example schemas *)

Module Examples.
Import Schema.

Definition plain (n l t : string) (req : bool) : field :=
  mkField n l t req [] no_validation None.

(** Section 8, scenario 7: a required radio field with one branch. *)
Definition email_address : field :=
  plain (FieldName.generateFieldName "Email Address") "Email Address" "email" true.

Definition contact_method : field :=
  mkField (FieldName.generateFieldName "Contact Method") "Contact Method" "radio"
    true ["Email"; "Phone"] no_validation
    (Some {[ "Email" := [email_address] ]}).

Definition notes : field := plain "notes" "Notes" "textarea" false.

(** The source text of a built-in function, as the engines print it. *)
Definition native_function (k : string) : string :=
  "function " +:+ k +:+ "() { [native code] }".

(** A radio field with an option named like a property every object
    inherits; only the other option has nested fields. *)
Definition inherited_option : field :=
  mkField "a" "A" "radio" false ["A"; "constructor"] no_validation
    (Some {[ "A" := [plain "x" "X" "text" false] ]}).

(** Two top-level fields labelled "A" and "A B"; the name of the first,
    followed by the separator, starts the name of the second. *)
Definition field_a : field :=
  mkField (FieldName.generateFieldName "A") "A" "radio" false ["K"] no_validation
    (Some {[ "K" := [plain (FieldName.generateFieldName "B X") "B X" "text" false] ]}).

Definition field_a_b : field :=
  mkField (FieldName.generateFieldName "A B") "A B" "radio" false ["A"; "B"]
    no_validation
    (Some {[ "A" := [plain (FieldName.generateFieldName "X") "X" "text" false];
             "B" := [plain (FieldName.generateFieldName "Y") "Y" "text" false] ]}).

Definition clash_form : list field := [field_a; field_a_b].

(** A field whose kind is outside the nine kinds. *)
Definition colour : field := plain "colour" "Colour" "color" true.

(** A text field with a length limit and a pattern that does not compile. *)
Definition code (req : bool) : field :=
  mkField "code" "Code" "text" req []
    (mkValidation (Some 5%Z) None None None (Some "(")) None.

(** Section 8, property 4: a text field with [minLength = 5]. *)
Definition nickname (req : bool) : field :=
  mkField "nickname" "Nickname" "text" req []
    (mkValidation (Some 5%Z) None None None None) None.

(** A heap holding a radio field whose branch "A" refers to one nested
    field. *)
Definition shared_heap : Store.heap :=
  {[ 1%positive :=
       Store.mkObject "p" "P" "radio" false ["A"] no_validation
         (Some {[ "A" := [2%positive] ]});
     2%positive := Store.mkObject "x" "X" "text" false [] no_validation None ]}.

Definition rejects_open_paren (source : string) : bool :=
  negb (String.eqb source "(").

End Examples.

(** ** Invariants of the loops *)

Module Invariants.

(** What holds of [answers] and [formData] along the loop: every appended
    payload is a [File] taken from the entries seen, announced by an answer
    carrying its file name. *)
Definition payloads_announced (seen : JS.entries)
    (st : list Submit.answer * Submit.form_data) : Prop :=
  ∀ fd n v, st.2 = Some fd → (n, v) ∈ fd →
    ∃ fname, v = JS.VFile fname ∧ (n, v) ∈ seen ∧ Submit.mkAnswer n fname ∈ st.1.

(** The record [handleDragEnd] builds at each position. *)
Definition renumbered (index : nat) (f : Identity.item) : Identity.item :=
  Identity.mkItem (Identity.keep_or_generate f index) (Identity._id f) index
    (Identity.def f).

End Invariants.

(** ** The other handlers of the reorder editor *)

Module FieldList.
Import Identity.

(** What a handler does: nothing, a call of [onFieldsChange], or a
    [TypeError]. *)
Inductive outcome :=
| Unchanged
| Changed (updatedFields : list item)
| TypeError.

(** [currentField._id || updatedField._id] *)
Definition keep_or_take_id (currentField updatedField : item) : option string :=
  match JS.truthy_string (_id currentField) with
  | Some id => Some id
  | None => _id updatedField
  end.

(** [handleFieldUpdate(index, updatedField)].  Reading a property of
    [fieldsWithStableIds[index]] throws when [index] is outside the list. *)
Definition handleFieldUpdate (fieldsWithStableIds : list item) (index : nat)
    (updatedField : item) : outcome :=
  let items := fieldsWithStableIds in
  match items !! index with
  | Some currentField =>
      Changed
        (<[index :=
             mkItem
               (match JS.truthy_string (_dragId currentField) with
                | Some token => Some token
                | None => Some (generateStableId updatedField index)
                end)
               (keep_or_take_id currentField updatedField)
               index (def updatedField)]> items)
  | None => TypeError
  end.

(** [handleFieldDelete(index)]; [confirmed] is the answer to [confirm(...)].
    The filter keeps every position but [index]. *)
Definition handleFieldDelete (fieldsWithStableIds : list item) (confirmed : bool)
    (index : nat) : outcome :=
  if negb confirmed then Unchanged
  else
    Changed
      (imap (λ index f, mkItem (_dragId f) (_id f) index (def f))
         (delete index fieldsWithStableIds)).

(** The field [handleAddField] creates. *)
Definition blank_field : Schema.field :=
  Schema.mkField "" "" "text" false [] Schema.no_validation None.

(** [handleAddField()]; [timestamp] is [Date.now()] and [random] is
    [Math.random().toString(36).substr(2, 9)]. *)
Definition handleAddField (fieldsWithStableIds : list item) (timestamp : N)
    (random : string) : outcome :=
  let newId := "field_" +:+ pretty timestamp +:+ "_" +:+ random in
  let items := fieldsWithStableIds in
  Changed (items ++ [mkItem (Some newId) (Some newId) (length items) blank_field]).

(** The list [fetchForm] of the form editor builds from the stored fields:
    [_dragId: field._dragId || field.name || `field-${field._id || index}`]. *)
Definition loaded_token (f : item) (index : nat) : string :=
  match JS.truthy_string (_dragId f) with
  | Some token => token
  | None =>
      if negb (String.eqb (name f) "") then name f
      else "field-" +:+ match JS.truthy_string (_id f) with
                        | Some id => id
                        | None => pretty index
                        end
  end.

Definition fieldsWithDragIds (fields : list item) : list item :=
  imap (λ index f, mkItem (Some (loaded_token f index)) (_id f) (order f) (def f))
    fields.

End FieldList.

(** ** The shape of a generated name *)

Module NameShape.
Import FieldName.

(** [[a-z0-9_]] *)
Definition name_char (c : ascii) : bool :=
  is_lower c || is_digit c || Ascii.eqb c underscore.

Fixpoint all_name_chars (s : string) : bool :=
  match s with
  | EmptyString => true
  | String c t => name_char c && all_name_chars t
  end.

Definition starts_with_separator (s : string) : bool :=
  match s with String c _ => Ascii.eqb c underscore | EmptyString => false end.

Fixpoint no_double_separator (s : string) : bool :=
  match s with
  | EmptyString => true
  | String c t =>
      negb (Ascii.eqb c underscore && starts_with_separator t) && no_double_separator t
  end.

Fixpoint ends_with_separator (s : string) : bool :=
  match s with
  | EmptyString => false
  | String c t =>
      match t with
      | EmptyString => Ascii.eqb c underscore
      | String _ _ => ends_with_separator t
      end
  end.

(** A lowercase letter followed by letters, digits and single underscores,
    the last character not an underscore: [/^[a-z][a-z0-9_]*$/] without
    [__] and without a final [_]. *)
Definition well_formed (s : string) : bool :=
  starts_with_letter s && all_name_chars s && no_double_separator s
  && negb (ends_with_separator s).

(** The name [generateFieldName] holds after its three replacements, before
    the [field_] prefix is considered. *)
Definition stripped (label : string) : string :=
  strip (squeeze (map_chars keep_or_underscore (toLowerCase label))).

End NameShape.

(** ** The field editor form *)

Module FieldEditor.

(** The inputs that call the change handler, by their [name] attribute,
    with [e.target.value] or, for the checkbox, [e.target.checked]. *)
Inductive change :=
| OnLabel (value : string)
| OnName (value : string)
| OnType (value : string)
| OnRequired (checked : bool).

Definition with_label (l : string) (f : Schema.field) : Schema.field :=
  Schema.mkField (Schema.name f) l (Schema.type f) (Schema.required f)
    (Schema.options f) (Schema.validation f) (Schema.conditionalFields f).

Definition with_type (t : string) (f : Schema.field) : Schema.field :=
  Schema.mkField (Schema.name f) (Schema.label f) t (Schema.required f)
    (Schema.options f) (Schema.validation f) (Schema.conditionalFields f).

Definition with_required (r : bool) (f : Schema.field) : Schema.field :=
  Schema.mkField (Schema.name f) (Schema.label f) (Schema.type f) r
    (Schema.options f) (Schema.validation f) (Schema.conditionalFields f).

(** [{ ...prev, [name]: newValue }] *)
Definition assign (prev : Schema.field) (e : change) : Schema.field :=
  match e with
  | OnLabel value => with_label value prev
  | OnName value => Schema.with_name value prev
  | OnType value => with_type value prev
  | OnRequired checked => with_required checked prev
  end.

(** [handleChange(e)] on [formData].  On a change of [type] to radio or
    select, [updated.options = []] replaces a missing or empty list by an
    empty one, which is the same list here. *)
Definition handleChange (prev : Schema.field) (e : change) : Schema.field :=
  let updated := assign prev e in
  match e with
  | OnLabel value =>
      if negb (String.eqb value "")
         && (String.eqb (Schema.name prev) ""
             || String.eqb (Schema.name prev)
                  (FieldName.generateFieldName (Schema.label prev)))
      then Schema.with_name (FieldName.generateFieldName value) updated
      else updated
  | _ => updated
  end.

(** The name is the one the normalizer derives from the label. *)
Definition derived (f : Schema.field) : Prop :=
  Schema.name f = FieldName.generateFieldName (Schema.label f).

(** A change the derived name survives: not of the name itself, and not
    the label made empty. *)
Definition keeps_derived (e : change) : bool :=
  match e with
  | OnName _ => false
  | OnLabel value => negb (String.eqb value "")
  | _ => true
  end.

End FieldEditor.

(** ** The nested-field manager *)

Module NestedFields.
Import Identity.

Definition with_def (d : Schema.field) (f : item) : item :=
  mkItem (_dragId f) (_id f) (order f) d.

(** [{ ...f, order: n }] *)
Definition with_order (n : nat) (f : item) : item :=
  mkItem (_dragId f) (_id f) n (def f).

(** The row under construction as [useState] and [handleAddField] set it. *)
Definition blank (order : nat) : item := mkItem None None order FieldList.blank_field.

(** [handleNewFieldChange(e)] on [newField]. *)
Definition handleNewFieldChange (prev : item) (e : FieldEditor.change) : item :=
  let updated := with_def (FieldEditor.assign (def prev) e) prev in
  match e with
  | FieldEditor.OnLabel value =>
      if negb (String.eqb value "")
      then with_def (Schema.with_name (FieldName.generateFieldName value) (def updated))
             updated
      else updated
  | _ => updated
  end.

Inductive add_outcome :=
| Alerted
| Added (updatedFields : list item) (newField : item).

(** [handleAddField()] *)
Definition handleAddField (nestedFields : list item) (newField : item) : add_outcome :=
  if String.eqb (Schema.label (def newField)) "" || String.eqb (name newField) ""
  then Alerted
  else Added (nestedFields ++ [with_order (length nestedFields) newField])
         (blank (length nestedFields + 1)).

(** [updatedFields[index] = ...] replaces an element of the list, appends at
    [index = length], and beyond that grows the array with empty slots in
    between, which a list does not hold. *)
Inductive update_outcome :=
| Assigned (updatedFields : list item)
| Sparse.

(** [handleUpdateField(index, updatedField)] *)
Definition handleUpdateField (nestedFields : list item) (index : nat) (updatedField : item)
    : update_outcome :=
  let element := with_order index updatedField in
  if (index <? length nestedFields)%nat then Assigned (<[index := element]> nestedFields)
  else if Nat.eqb index (length nestedFields) then Assigned (nestedFields ++ [element])
  else Sparse.

(** [handleDeleteField(index)]; [confirmed] is the answer to [confirm(...)]. *)
Definition handleDeleteField (nestedFields : list item) (confirmed : bool) (index : nat)
    : list item :=
  if negb confirmed then nestedFields
  else imap (λ i f, with_order i f) (delete index nestedFields).

(** The label input of row [idx], holding [nf]: the record it passes to
    [handleUpdateField]. *)
Definition relabelled (nf : item) (value : string) : item :=
  let updated := with_def (FieldEditor.with_label value (def nf)) nf in
  if String.eqb (name nf) ""
     || String.eqb (name nf) (FieldName.generateFieldName (Schema.label (def nf)))
  then with_def (Schema.with_name (FieldName.generateFieldName value) (def updated)) updated
  else updated.

(** The manager between two events: the list its parent passes back after
    [onUpdate], and the row under construction. *)
Record state := mkState {
  nestedFields : list item;
  newField : item }.

(** What the rendered controls can do. *)
Inductive event :=
| NewFieldChange (e : FieldEditor.change)
| AddField
| EditLabel (idx : nat) (value : string)
| EditType (idx : nat) (value : string)
| EditRequired (idx : nat) (checked : bool)
| DeleteField (idx : nat) (confirmed : bool).

(** A control of row [idx] calls [handleUpdateField(idx, ...)] with a
    record built from [nf], the element the row was rendered for. *)
Definition edit_row (st : state) (idx : nat) (updated : item → item) : state :=
  match nestedFields st !! idx with
  | Some nf =>
      match handleUpdateField (nestedFields st) idx (updated nf) with
      | Assigned updatedFields => mkState updatedFields (newField st)
      | Sparse => st
      end
  | None => st
  end.

Definition step (st : state) (ev : event) : state :=
  match ev with
  | NewFieldChange e => mkState (nestedFields st) (handleNewFieldChange (newField st) e)
  | AddField =>
      match handleAddField (nestedFields st) (newField st) with
      | Alerted => st
      | Added updatedFields newField => mkState updatedFields newField
      end
  | EditLabel idx value => edit_row st idx (λ nf, relabelled nf value)
  | EditType idx value =>
      edit_row st idx (λ nf, with_def (FieldEditor.with_type value (def nf)) nf)
  | EditRequired idx checked =>
      edit_row st idx (λ nf, with_def (FieldEditor.with_required checked (def nf)) nf)
  | DeleteField idx confirmed =>
      mkState (handleDeleteField (nestedFields st) confirmed idx) (newField st)
  end.

Definition run (st : state) (events : list event) : state := fold_left step events st.

(** Every element holds its own position in [order]. *)
Definition numbered (fields : list item) : Prop :=
  ∀ i f, fields !! i = Some f → order f = i.

(** The name input is read-only: no event changes the name directly. *)
Definition from_controls (ev : event) : bool :=
  match ev with
  | NewFieldChange (FieldEditor.OnName _) => false
  | _ => true
  end.

(** Every field of the list has the name derived from its label. *)
Definition names_follow (fields : list item) : Prop :=
  Forall (λ f, FieldEditor.derived (def f)) fields.

(** The row under construction either has no label yet or the name derived
    from it. *)
Definition row_follows_label (f : item) : Prop :=
  Schema.label (def f) ≠ "" → FieldEditor.derived (def f).

End NestedFields.

(** ** The options text of the field editor *)

Module Options.

Section WithChars.

(** The code units of a string, the line feed among them, and the white
    space and line terminators that [trim] removes. *)
Context {char : Type} `{EqDecision char}.
Variable newline : char.
Variable is_space : char → bool.

(** [value.split('\n')] *)
Fixpoint split (value : list char) : list (list char) :=
  match value with
  | [] => [[]]
  | c :: rest =>
      if decide (c = newline) then [] :: split rest
      else
        match split rest with
        | line :: lines => (c :: line) :: lines
        | [] => [[c]]
        end
  end.

Fixpoint trimStart (s : list char) : list char :=
  match s with
  | c :: rest => if is_space c then trimStart rest else s
  | [] => []
  end.

Definition trimEnd (s : list char) : list char := reverse (trimStart (reverse s)).

(** [opt.trim()] *)
Definition trim (s : list char) : list char := trimEnd (trimStart s).

(** [opt.length > 0], also the truth value of a string *)
Definition non_empty (s : list char) : bool := negb (Nat.eqb (length s) 0).

(** The options [handleOptionsChange] stores for the text [value]. *)
Definition handleOptionsChange (value : list char) : list (list char) :=
  List.filter non_empty (trim <$> split value).

(** [options.join('\n')], the text the editor opens with. *)
Fixpoint join (options : list (list char)) : list char :=
  match options with
  | [] => []
  | [opt] => opt
  | opt :: rest => opt ++ newline :: join rest
  end.

(** [formData.options.filter(opt => opt && opt.trim())] of [handleSave] *)
Definition saved_options (options : list (list char)) : list (list char) :=
  List.filter (λ opt, non_empty opt && non_empty (trim opt)) options.

(** An option as the editor stores it: not empty, on one line, without
    white space at either end. *)
Definition clean (opt : list char) : Prop :=
  opt ≠ [] ∧ (newline ∉ opt)
  ∧ (∀ c, head opt = Some c → is_space c = false)
  ∧ (∀ c, last opt = Some c → is_space c = false).

End WithChars.

(** White space among the ASCII characters. *)
Definition ascii_space (c : ascii) : bool :=
  bool_decide (c ∈ [" "; "009"; "010"; "011"; "012"; "013"]%char).

End Options.

(** ** The form page: choosing an option, and what is rendered *)

Module Selection.
Import Schema.

(** The value the change handler of a select or radio field writes into a
    nested field. *)
Definition cleared_value (nf : field) : JS.value :=
  if String.eqb (type nf) "checkbox" then JS.VBool false
  else if String.eqb (type nf) "number" then JS.VUndefined
  else JS.VStr "".

(** The calls [formik.setFieldValue(nestedName, ...)] for one branch, in
    order. *)
Definition clear_branch (f : field) (nestedFields : list field)
    : list (string * JS.value) :=
  (λ nf, (qualify (name f) (name nf), cleared_value nf)) <$> nestedFields.

(** The branches other than the chosen one; [Object.keys] enumerates them,
    and the enumeration of the map stands for its order. *)
Definition clear_others (f : field) (cf : gmap string (list field)) (value : string)
    : list (string * JS.value) :=
  flat_map (λ branch, if decide (branch.1 ≠ value) then clear_branch f branch.2 else [])
    (map_to_list cf).

(** What the handler has done when it returns or throws: the argument of
    [setSelectedValues], the calls of [formik.setFieldValue] in order, and
    whether it threw. *)
Record outcome := mkOutcome {
  newSelectedValues : selection;
  calls : list (string * JS.value);
  threw : bool }.

(** [onChange] of a select or radio field [f] with [e.target.value = value],
    after [formik.handleChange(e)].  [field.conditionalFields[value]] is
    read without a guard: for a [value] the branches inherit without owning
    it is a function, and [nestedFields.forEach] throws before any call of
    [setFieldValue]. *)
Definition onChange (f : field) (selectedValues : selection) (value : string)
    : outcome :=
  let newSelectedValues := <[name f := value]> selectedValues in
  match conditionalFields f with
  | Some cf =>
      match cf !! value with
      | Some nestedFields =>
          mkOutcome newSelectedValues
            (clear_branch f nestedFields ++ clear_others f cf value) false
      | None =>
          if JS.inherited value then mkOutcome newSelectedValues [] true
          else mkOutcome newSelectedValues (clear_others f cf value) false
      end
  | None => mkOutcome newSelectedValues [] false
  end.

(** Every branch of [cf], cleared once. *)
Definition clear_all (f : field) (cf : gmap string (list field))
    : list (string * JS.value) :=
  flat_map (λ branch, clear_branch f branch.2) (map_to_list cf).

End Selection.

Module Render.
Import Schema.

(** [selectedValues[field.name] || formik.values[field.name]] *)
Definition selectedValue (selectedValues : selection) (values : gmap string JS.value)
    (f : field) : JS.value :=
  JS.or_else (JS.of_option (selectedValues !! name f))
    (default JS.VUndefined (values !! name f)).

(** [conditionalFields], the nested fields the page shows under [f]. *)
Definition conditionalFields (selectedValues : selection) (values : gmap string JS.value)
    (f : field) : list field :=
  if is_selectable f then
    match Schema.conditionalFields f with
    | Some cf =>
        let selectedValue := selectedValue selectedValues values f in
        if JS.truthy selectedValue then default [] (cf !! JS.to_String selectedValue)
        else []
    | None => []
    end
  else [].

(** The field each nested input is rendered for:
    [{ ...nestedField, name: nestedFieldName }]. *)
Definition rendered_nested (selectedValues : selection) (values : gmap string JS.value)
    (f : field) : list field :=
  nested_copy f <$> conditionalFields selectedValues values f.

(** The fields the page renders an input for, in the order of the page:
    each top-level field, then its nested fields. *)
Definition rendered (fields : list field) (selectedValues : selection)
    (values : gmap string JS.value) : list field :=
  flat_map (λ f, f :: rendered_nested selectedValues values f) fields.

(** Where [selectedValues] holds no choice for a field, the form holds no
    value for it either. *)
Definition in_step (fields : list field) (selectedValues : selection)
    (values : gmap string JS.value) : Prop :=
  ∀ f, f ∈ fields → JS.truthy_string (selectedValues !! name f) = None →
    JS.truthy (default JS.VUndefined (values !! name f)) = false.

End Render.

(** ** Saving a form from the form editor pages *)

Module SaveForm.
Import Identity.

(** The truth value of a string. *)
Definition truthy (s : string) : bool := negb (String.eqb s "").

Definition label (f : item) : string := Schema.label (def f).

Section WithTrim.

(** [String.prototype.trim]: the string without the white space and the
    line terminators at its ends. *)
Variable trim : string → string.

(** [f.name && typeof f.name === 'string' && f.name.trim().length > 0];
    a name is a string here. *)
Definition hasName (f : item) : bool :=
  truthy (name f) && negb (Nat.eqb (String.length (trim (name f))) 0).

Definition hasLabel (f : item) : bool :=
  truthy (label f) && negb (Nat.eqb (String.length (trim (label f))) 0).

(** [f.name && f.name.trim() && f.label && f.label.trim()] *)
Definition isComplete (f : item) : bool :=
  truthy (name f) && truthy (trim (name f)) && truthy (label f) && truthy (trim (label f)).

(** [!f.options || !Array.isArray(f.options) || f.options.length === 0];
    the options are an array here. *)
Definition without_options (f : item) : bool :=
  Nat.eqb (length (Schema.options (def f))) 0.

(** [f.label || f.name || 'Unnamed field'] *)
Definition label_or_name (f : item) : string :=
  if truthy (label f) then label f
  else if truthy (name f) then name f else "Unnamed field".

(** What [handleSubmit] ends with: one of its four error messages, given by
    what it interpolates, or the request to the forms service. *)
Inductive outcome :=
| TitleRequired
| NoFields
| Incomplete (incompleteCount : nat)
| OptionsMissing (fieldLabels : string)
| Sent (title description : string) (fields : list item).

(** [handleSubmit] of the pages that create and edit a form, up to the
    request. *)
Definition handleSubmit (title description : string) (fields : list item) : outcome :=
  if negb (truthy (trim title)) then TitleRequired
  else if Nat.eqb (length fields) 0 then NoFields
  else
    let invalidFields :=
      List.filter (λ f, negb (hasName f) || negb (hasLabel f)) fields in
    if (0 <? length invalidFields)%nat then Incomplete (length invalidFields)
    else
      let fieldsNeedingOptions :=
        List.filter
          (λ f, isComplete f && Schema.is_selectable (def f) && without_options f)
          fields in
      if (0 <? length fieldsNeedingOptions)%nat
      then OptionsMissing (String.concat ", " (label_or_name <$> fieldsNeedingOptions))
      else Sent title description fields.

(** A field the request may carry: a name and a label that are not blank,
    and at least one option when it is a radio or select field. *)
Definition complete (f : item) : Prop :=
  hasName f = true ∧ hasLabel f = true
  ∧ (Schema.is_selectable (def f) = true → Schema.options (def f) ≠ []).

End WithTrim.

(** [trim] on the ASCII white space, for examples. *)
Definition ascii_trim (s : string) : string :=
  String.string_of_list_ascii
    (Options.trim Options.ascii_space (String.list_ascii_of_string s)).

End SaveForm.

(** * Properties *)

(** ** Strings *)

Section StringFacts.

Lemma prefix_app (p s : string) : String.prefix p (p +:+ s) = true.
Proof.
  induction p as [|c p IH]; simpl; [by destruct s|].
  destruct (ascii_dec c c); [done|congruence].
Qed.

Lemma prefix_cons (c d : ascii) (p s : string) :
  String.prefix (String c p) (String d s) = true ↔ c = d ∧ String.prefix p s = true.
Proof.
  simpl. destruct (ascii_dec c d) as [->|Hne]; [tauto|].
  split; [done|by intros [? _]].
Qed.

Lemma prefix_nil_r (p : string) : String.prefix p "" = true → p = "".
Proof. by destruct p. Qed.

Lemma drop_app (p s : string) : JS.drop (String.length p) (p +:+ s) = s.
Proof. induction p; simpl; [by destruct s|done]. Qed.

(** Replacing a leading pattern by the empty string strips it. *)
Lemma replace_prefix (p s : string) : JS.replace (p +:+ s) p "" = s.
Proof.
  assert (∀ t, String.prefix p t = true → JS.replace t p "" = JS.drop (String.length p) t)
    as H by (intros [|c t] Ht; simpl in *; by rewrite Ht).
  rewrite H by apply prefix_app. apply drop_app.
Qed.

(** Two prefixes of one string are comparable. *)
Lemma prefix_comparable (a b c : string) :
  String.prefix a (b +:+ c) = true →
  String.prefix a b = true ∨ String.prefix b a = true.
Proof.
  revert b; induction a as [|x a IH]; intros b H; [left; by destruct b|].
  destruct b as [|y b]; [right; done|].
  change (String y b +:+ c) with (String y (b +:+ c)) in H.
  apply prefix_cons in H as [-> H].
  destruct (IH b H); [left|right]; apply prefix_cons; done.
Qed.

Lemma prefix_app_inv (a b : string) :
  String.prefix a b = true → ∃ c, b = a +:+ c.
Proof.
  revert b; induction a as [|x a IH]; intros b H; [by exists b|].
  destruct b as [|y b]; [done|].
  apply prefix_cons in H as [-> H]. destruct (IH b H) as [c ->]. by exists c.
Qed.

Lemma prefix_antisym (a b : string) :
  String.prefix a b = true → String.prefix b a = true → a = b.
Proof.
  revert b; induction a as [|x a IH]; intros b H1 H2.
  - symmetry. by apply prefix_nil_r.
  - destruct b as [|y b]; [done|].
    apply prefix_cons in H1 as [-> H1]. apply prefix_cons in H2 as [_ H2].
    f_equal. by apply IH.
Qed.

Lemma app_assoc_string (a b c : string) : (a +:+ b) +:+ c = a +:+ (b +:+ c).
Proof.
  induction a as [|x a IH]; [done|].
  change (String x ((a +:+ b) +:+ c) = String x (a +:+ (b +:+ c))). by rewrite IH.
Qed.

Lemma app_sep_inj (a b : string) : a +:+ "_" = b +:+ "_" → a = b.
Proof.
  revert b; induction a as [|x a IH]; intros [|y b] H; simpl in *; try done.
  - destruct b; simplify_eq/=.
  - destruct a; simplify_eq/=.
  - simplify_eq. f_equal. by apply IH.
Qed.

End StringFacts.

(** ** The field expander *)

Section ExpanderFacts.
Import Schema.
Implicit Types (f g : field) (fields : list field) (sel : selection).

Lemma push_copies_app f nested acc :
  fold_left (λ acc nestedField, acc ++ [nested_copy f nestedField]) nested acc
  = acc ++ (nested_copy f <$> nested).
Proof.
  revert acc; induction nested as [|nf nested IH]; intros acc; simpl.
  - by rewrite app_nil_r.
  - by rewrite IH, <-app_assoc.
Qed.

Lemma push_conditional_app sel acc f :
  push_conditional sel acc f = acc ++ active_children sel f.
Proof.
  unfold active_children, push_conditional.
  repeat case_match; rewrite ?app_nil_r; try done.
  by rewrite !push_copies_app.
Qed.

Lemma fold_push_conditional sel fields acc :
  fold_left (push_conditional sel) fields acc
  = acc ++ flat_map (active_children sel) fields.
Proof.
  revert acc; induction fields as [|f fields IH]; intros acc; simpl.
  - by rewrite app_nil_r.
  - by rewrite IH, push_conditional_app, <-app_assoc.
Qed.

(** The expansion is the declared top-level fields followed by the active
    nested fields, parent by parent. *)
Lemma getAllFields_split fields sel :
  getAllFields fields sel = fields ++ flat_map (active_children sel) fields.
Proof. apply fold_push_conditional. Qed.

(** Where an emitted nested field comes from. *)
Lemma active_children_inv sel f c :
  c ∈ active_children sel f →
  ∃ cf s nested nf,
    is_selectable f = true ∧ conditionalFields f = Some cf ∧
    sel !! name f = Some s ∧ s ≠ "" ∧ cf !! s = Some nested ∧
    nf ∈ nested ∧ c = nested_copy f nf.
Proof.
  unfold active_children, push_conditional, JS.truthy_string.
  destruct (is_selectable f); [|by intros ?%elem_of_nil].
  destruct (conditionalFields f) as [cf|]; [|by intros ?%elem_of_nil].
  destruct (sel !! name f) as [s|] eqn:Hs; [|by intros ?%elem_of_nil].
  destruct (String.eqb s "") eqn:Hne; [by intros ?%elem_of_nil|].
  destruct (cf !! s) as [nested|] eqn:Hn; [|by intros ?%elem_of_nil].
  rewrite push_copies_app, app_nil_l. intros (nf & -> & Hnf)%list_elem_of_fmap.
  exists cf, s, nested, nf. repeat split; try done.
  intros ->. by rewrite String.eqb_refl in Hne.
Qed.

Lemma active_children_intro sel f cf s nested :
  is_selectable f = true → conditionalFields f = Some cf →
  sel !! name f = Some s → s ≠ "" → cf !! s = Some nested →
  active_children sel f = nested_copy f <$> nested.
Proof.
  intros Hsel Hcf Hs Hne Hn.
  unfold active_children, push_conditional, JS.truthy_string.
  rewrite Hsel, Hcf, Hs. apply String.eqb_neq in Hne. rewrite Hne, Hn.
  by rewrite push_copies_app.
Qed.


Lemma interleaved_perm fields sel :
  expand_interleaved fields sel ≡ₚ fields ++ flat_map (active_children sel) fields.
Proof.
  unfold expand_interleaved. induction fields as [|f fields IH]; simpl; [done|].
  constructor. rewrite IH.
  rewrite !app_assoc. apply Permutation_app_tail, Permutation_app_comm.
Qed.

End ExpanderFacts.

(** ** The name qualifier *)

Section QualifierFacts.
Import Schema.
Implicit Types (f g : field) (fields : list field).

Lemma qualify_starts (parent localName : string) :
  JS.startsWith (qualify parent localName) (parent +:+ "_") = true.
Proof.
  unfold JS.startsWith, qualify. rewrite <-app_assoc_string. apply prefix_app.
Qed.

Lemma qualify_strip (parent localName : string) :
  JS.replace (qualify parent localName) (parent +:+ "_") "" = localName.
Proof. unfold qualify. rewrite <-app_assoc_string. apply replace_prefix. Qed.

(** The first top-level field found by the prefix test carries the name of
    the parent as soon as the top-level names are prefix free. *)
Lemma find_parent fields parent localName :
  parent ∈ fields → separator_prefix_free fields →
  ∃ pf, find (λ pf, JS.startsWith (qualify (name parent) localName) (name pf +:+ "_"))
          fields = Some pf
        ∧ pf ∈ fields ∧ name pf = name parent.
Proof.
  intros Hin Hfree.
  destruct (find _ fields) as [pf|] eqn:Hfind.
  - apply find_some in Hfind as [Hpf Hstart]. apply list_elem_of_In in Hpf.
    exists pf. repeat split; [done|].
    unfold JS.startsWith, qualify in Hstart. rewrite <-app_assoc_string in Hstart.
    apply prefix_comparable in Hstart as [H|H].
    + by apply (Hfree pf parent).
    + symmetry. by apply (Hfree parent pf).
  - apply list_elem_of_In in Hin.
    pose proof (find_none _ _ Hfind parent Hin) as H. simpl in H.
    by rewrite qualify_starts in H.
Qed.

Lemma qualify_inj_prefix_free fields f g x y :
  f ∈ fields → g ∈ fields → separator_prefix_free fields →
  qualify (name f) x = qualify (name g) y → name f = name g ∧ x = y.
Proof.
  intros Hf Hg Hfree Heq.
  assert (name f = name g) as Hname.
  { pose proof (qualify_starts (name f) x) as H. rewrite Heq in H.
    unfold JS.startsWith, qualify in H. rewrite <-app_assoc_string in H.
    apply prefix_comparable in H as [H|H].
    - by apply (Hfree f g).
    - symmetry. by apply (Hfree g f). }
  split; [done|]. unfold qualify in Heq. rewrite Hname in Heq.
  by apply String.app_inj, String.app_inj in Heq.
Qed.

(** Names that do not contain the separator are prefix free. *)
Lemma separator_free_prefix (a b : string) :
  FieldName.contains_separator a = false → FieldName.contains_separator b = false →
  String.prefix (a +:+ "_") (b +:+ "_") = true → a = b.
Proof.
  revert b; induction a as [|x a IH]; intros [|y b] Ha Hb H; try done.
  - change (String.prefix "_" (String y (b +:+ "_")) = true) in H.
    apply prefix_cons in H as [<- _]. by cbn in Hb.
  - change (String.prefix (String x (a +:+ "_")) "_" = true) in H.
    apply prefix_cons in H as [-> _]. by cbn in Ha.
  - change (String.prefix (String x (a +:+ "_")) (String y (b +:+ "_")) = true) in H.
    apply prefix_cons in H as [-> H].
    simpl in Ha, Hb. apply orb_false_elim in Ha as [_ Ha].
    apply orb_false_elim in Hb as [_ Hb]. f_equal. by apply IH.
Qed.

Lemma separator_free_fields fields :
  Forall (λ f, FieldName.contains_separator (name f) = false) fields →
  separator_prefix_free fields.
Proof.
  intros Hall f g Hf Hg H. rewrite Forall_forall in Hall.
  apply separator_free_prefix; [by apply Hall..|done].
Qed.

End QualifierFacts.

(** C1 (as amended).  When no top-level name followed by the separator starts
    another top-level name followed by the separator, the reverse mapping of
    [handleSubmit] applied to a qualified name gives back a field with the
    parent's name and exactly the local name, whatever the local name
    contains. *)
Theorem unqualify_qualify (fields : list Schema.field) (parent : Schema.field)
    (localName : string) :
  parent ∈ fields →
  Schema.separator_prefix_free fields →
  ∃ pf, Submit.unqualify fields (Schema.qualify (Schema.name parent) localName)
        = Some (pf, localName)
        ∧ Schema.name pf = Schema.name parent.
Proof.
  intros Hin Hfree.
  destruct (find_parent fields parent localName Hin Hfree) as (pf & Hfind & _ & Hname).
  exists pf. split; [|done].
  unfold Submit.unqualify. rewrite Hfind. simpl.
  by rewrite Hname, qualify_strip.
Qed.

Lemma unqualify_qualify_witness :
  ∃ pf, Submit.unqualify [Examples.contact_method; Examples.notes]
          (Schema.qualify (Schema.name Examples.contact_method) "email_address")
        = Some (pf, "email_address")
        ∧ Schema.name pf = Schema.name Examples.contact_method.
Proof.
  apply unqualify_qualify.
  - left.
  - intros f g Hf Hg.
    apply elem_of_cons in Hf as [->|Hf%list_elem_of_singleton];
      apply elem_of_cons in Hg as [->|Hg%list_elem_of_singleton];
      subst; vm_compute; congruence.
Defined.

(** C1 (as stated) fails: the normalizer produces local names that contain
    the separator, two different pairs of valid names are qualified to the
    same string, and the reverse mapping returns the wrong pair. *)
Lemma unqualify_qualify_clash :
  FieldName.generateFieldName "A" = "a" ∧
  FieldName.generateFieldName "A B" = "a_b" ∧
  FieldName.generateFieldName "B X" = "b_x" ∧
  FieldName.generateFieldName "X" = "x" ∧
  FieldName.contains_separator "a_b" = true ∧
  Schema.qualify "a" "b_x" = Schema.qualify "a_b" "x" ∧
  Submit.unqualify Examples.clash_form
    (Schema.qualify (Schema.name Examples.field_a_b) "x")
  = Some (Examples.field_a, "b_x") ∧
  (Schema.name Examples.field_a, "b_x") ≠ (Schema.name Examples.field_a_b, "x").
Proof. vm_compute. repeat split; congruence. Qed.

(** C2 (as amended).  The expansion is the top-level fields in declared
    order followed by the active nested fields grouped by parent in declared
    order; it holds the same fields as the interleaved order. *)
Theorem getAllFields_order (fields : list Schema.field)
    (selectedValues : Schema.selection) :
  Schema.getAllFields fields selectedValues
  = fields ++ flat_map (Schema.active_children selectedValues) fields
  ∧ Schema.getAllFields fields selectedValues
    ≡ₚ Schema.expand_interleaved fields selectedValues.
Proof.
  split; [apply getAllFields_split|].
  by rewrite getAllFields_split, interleaved_perm.
Qed.

(** C2 (as stated) fails: the active nested field of the first field comes
    after the second top-level field. *)
Lemma getAllFields_not_interleaved :
  let fields := [Examples.contact_method; Examples.notes] in
  let selectedValues : Schema.selection := {[ "contact_method" := "Email" ]} in
  Schema.name <$> Schema.getAllFields fields selectedValues
  = ["contact_method"; "notes"; "contact_method_email_address"] ∧
  Schema.name <$> Schema.expand_interleaved fields selectedValues
  = ["contact_method"; "contact_method_email_address"; "notes"] ∧
  Schema.getAllFields fields selectedValues
  ≠ Schema.expand_interleaved fields selectedValues.
Proof.
  vm_compute. repeat split. intros H. congruence.
Qed.



(** ** The answer serializer *)

Section LoopFacts.

Lemma some_all_false {A} (callback : A → option bool) (xs : list A) :
  (∀ x, x ∈ xs → callback x = Some false) → JS.some callback xs = Some false.
Proof.
  induction xs as [|x xs IH]; [done|]. intros Hall. simpl.
  rewrite (Hall x) by (apply elem_of_cons; by left).
  apply IH. intros y Hy. apply Hall, elem_of_cons. by right.
Qed.

Lemma some_false_elem {A} (callback : A → option bool) (xs : list A) (x : A) :
  JS.some callback xs = Some false → x ∈ xs → callback x = Some false.
Proof.
  induction xs as [|y xs IH]; [by intros _ ?%elem_of_nil|]. simpl.
  destruct (callback y) as [[]|] eqn:Hy; [done| |done].
  intros H [->|Hin]%elem_of_cons; [done|by apply IH].
Qed.

Lemma some_None_elem {A} (callback : A → option bool) (xs : list A) :
  JS.some callback xs = None → ∃ x, x ∈ xs ∧ callback x = None.
Proof.
  induction xs as [|x xs IH]; [done|]. simpl.
  destruct (callback x) as [[]|] eqn:Hx; [done|intros H|intros _].
  - destruct (IH H) as (y & Hy & Hcb). exists y. split; [|done].
    apply elem_of_cons. by right.
  - exists x. split; [apply elem_of_cons; by left|done].
Qed.

(** A property of the state that every step keeps holds after the loop. *)
Lemma forEach_invariant {S A} (body : S → A → option S) (P : list A → S → Prop)
    (xs : list A) :
  (∀ seen st x st', P seen st → body st x = Some st' → P (seen ++ [x]) st') →
  ∀ seen st st', P seen st → JS.forEach body xs st = Some st' → P (seen ++ xs) st'.
Proof.
  intros Hstep. induction xs as [|x xs IH]; intros seen st st' HP; simpl.
  - intros [= <-]. by rewrite app_nil_r.
  - destruct (body st x) as [st1|] eqn:Hx; [|done]. intros Hrest.
    rewrite (cons_middle x), app_assoc. by eapply IH; [eapply Hstep|].
Qed.

(** A loop whose body fails on an element whatever the state throws exactly
    when it holds such an element. *)
Lemma forEach_None {S A} (body : S → A → option S) (fails : A → Prop)
    (xs : list A) (st : S) :
  (∀ s x, body s x = None ↔ fails x) →
  JS.forEach body xs st = None ↔ ∃ x, x ∈ xs ∧ fails x.
Proof.
  intros Hfails. revert st. induction xs as [|x xs IH]; intros st; simpl.
  - split; [done|]. by intros (x & Hx%elem_of_nil & _).
  - destruct (body st x) as [st1|] eqn:Hx.
    + rewrite IH. split; intros (y & Hy & Hf).
      * exists y. split; [apply elem_of_cons; by right|done].
      * apply elem_of_cons in Hy as [->|Hy]; [|by exists y].
        apply Hfails with (s := st) in Hf. congruence.
    + split; [|done]. intros _. exists x. split; [apply elem_of_cons; by left|].
      by apply (Hfails st).
Qed.

End LoopFacts.

Section SerializerFacts.
Import Schema.
Context (Number_toString : Z → string) (Inherited_toString : string → string).
Implicit Types (f g : field) (fields : list field) (sel : selection)
  (values : JS.entries).

Lemma app_empty_r (s : string) : s +:+ "" = s.
Proof.
  induction s as [|c s IH]; [done|].
  change (String c (s +:+ "") = String c s). by rewrite IH.
Qed.

Lemma qualify_neq_parent (parent localName : string) :
  qualify parent localName ≠ parent.
Proof.
  unfold qualify. intros H.
  assert (parent +:+ "_" +:+ localName = parent +:+ "") as H'
    by (by rewrite app_empty_r).
  by apply String.app_inj in H'.
Qed.

Lemma names_inj fields f g :
  NoDup (name <$> fields) → f ∈ fields → g ∈ fields → name f = name g → f = g.
Proof.
  induction fields as [|h fields IH]; simpl; [by intros _ ?%elem_of_nil|].
  intros [Hh Hnd]%NoDup_cons [->|Hf]%elem_of_cons [->|Hg]%elem_of_cons Heq; try done.
  - exfalso. apply Hh. rewrite Heq. by apply list_elem_of_fmap_2.
  - exfalso. apply Hh. rewrite <-Heq. by apply list_elem_of_fmap_2.
  - by apply IH.
Qed.

(** The reverse mapping finds the parent itself when top-level names are
    distinct and prefix free. *)
Lemma unqualify_parent fields parent localName :
  parent ∈ fields → NoDup (name <$> fields) → separator_prefix_free fields →
  Submit.unqualify fields (qualify (name parent) localName) = Some (parent, localName).
Proof.
  intros Hin Hnd Hfree.
  destruct (find_parent fields parent localName Hin Hfree) as (pf & Hfind & Hpf & Hname).
  unfold Submit.unqualify. rewrite Hfind. simpl.
  rewrite Hname, qualify_strip. by rewrite (names_inj fields pf parent).
Qed.

(** A qualified name whose local part is not declared in the selected
    branch of its parent is the name of no field of the expansion. *)
Lemma unselected_not_expanded fields sel parent cf B x :
  parent ∈ fields → NoDup (name <$> fields) → separator_prefix_free fields →
  conditionalFields parent = Some cf → sel !! name parent = Some B →
  x ∉ name <$> default [] (cf !! B) →
  qualify (name parent) x ∉ name <$> getAllFields fields sel.
Proof.
  intros Hin Hnd Hfree Hcf HB Hx.
  rewrite getAllFields_split, fmap_app.
  intros [Htop|Hnested]%elem_of_app.
  - apply list_elem_of_fmap in Htop as (g & Hg & Hgin).
    assert (name parent = name g) as Heq.
    { apply (Hfree parent g Hin Hgin). rewrite <-Hg. unfold JS.startsWith, qualify.
      rewrite <-app_assoc_string, app_assoc_string. apply prefix_app. }
    rewrite <-Heq in Hg. by apply qualify_neq_parent in Hg.
  - apply list_elem_of_fmap in Hnested as (c & Hc & Hcin).
    apply list_elem_of_In, in_flat_map in Hcin as (q & Hq%list_elem_of_In & Hcq%list_elem_of_In).
    apply active_children_inv in Hcq as (cf' & s & nested & nf & _ & Hcf' & Hs & _ & Hn & Hnf & ->).
    simpl in Hc.
    apply (qualify_inj_prefix_free fields parent q) in Hc as [Hname Hx']; try done.
    assert (q = parent) as -> by (symmetry; by apply (names_inj fields)).
    simplify_eq. apply Hx. rewrite Hn. simpl. by apply list_elem_of_fmap_2.
Qed.

(** One step of the loop adds at most an answer for the key of the entry. *)
Lemma append_entry_answers allFields (st : list Submit.answer * Submit.form_data)
    (entry : string * JS.value) :
  ∃ extra,
    (Submit.append_entry Number_toString allFields st entry).1 = st.1 ++ extra
    ∧ Forall (λ a, Submit.name a = entry.1) extra
    ∧ (length extra ≤ 1)%nat.
Proof.
  destruct st as [answers fd], entry as [k v]. unfold Submit.append_entry.
  assert (∀ a (fd' : Submit.form_data), Submit.name a = k →
            ∃ extra, (answers ++ [a], fd').1 = (answers, fd).1 ++ extra
                     ∧ Forall (λ a, Submit.name a = (k, v).1) extra
                     ∧ (length extra ≤ 1)%nat) as Hone.
  { intros a fd' Ha. exists [a]. repeat split; [by repeat constructor|simpl; lia]. }
  assert (∃ extra, (answers, fd).1 = (answers, fd).1 ++ extra
                   ∧ Forall (λ a, Submit.name a = (k, v).1) extra
                   ∧ (length extra ≤ 1)%nat) as Hnone.
  { exists []. simpl. rewrite app_nil_r. repeat split; [by constructor|lia]. }
  repeat case_match; first [exact Hnone | by apply Hone].
Qed.

(** Every answer record is for a name that passed the existence test. *)
Lemma answers_exist fields sel values n :
  n ∈ Submit.answer_names Number_toString Inherited_toString fields sel values →
  Submit.fieldExists Number_toString Inherited_toString fields (getAllFields fields sel) sel values n
  = Some true.
Proof.
  unfold Submit.answer_names, Submit.serialize.
  set (allFields := getAllFields fields sel).
  set (P := λ (_ : JS.entries) (st : list Submit.answer * Submit.form_data),
         Forall (λ a, Submit.fieldExists Number_toString Inherited_toString fields allFields sel values
                        (Submit.name a) = Some true) st.1).
  destruct (JS.forEach _ values _) as [[answers fd]|] eqn:Hrun;
    [|by intros ?%elem_of_nil].
  intros (a & -> & Ha)%list_elem_of_fmap.
  eapply (forEach_invariant _ P values) with (seen := []) in Hrun; [| |by constructor].
  - unfold P in Hrun. simpl in Hrun. rewrite Forall_forall in Hrun. by apply Hrun.
  - intros seen st [k v] st' Hst. unfold Submit.submit_entry. simpl.
    destruct (Submit.fieldExists _ _ _ _ _ _ k) as [[]|] eqn:Hk; intros [= <-]; [|done].
    destruct (append_entry_answers allFields st (k, v)) as (extra & Heq & Hnames & _).
    unfold P. rewrite Heq. apply Forall_app. split; [done|].
    eapply Forall_impl; [exact Hnames|]. intros b Hb. simpl in Hb. by rewrite Hb.
Qed.

(** The existence test of a qualified name that the selected branch of its
    parent does not declare returns, and says no, unless the selected
    option is a property name the branches inherit without owning. *)
Lemma unselected_not_existing fields sel values parent cf B x :
  parent ∈ fields → NoDup (name <$> fields) → separator_prefix_free fields →
  conditionalFields parent = Some cf → sel !! name parent = Some B → B ≠ "" →
  (cf !! B = None → JS.inherited B = false) →
  x ∉ name <$> default [] (cf !! B) →
  Submit.fieldExists Number_toString Inherited_toString fields (getAllFields fields sel) sel values
    (qualify (name parent) x) = Some false.
Proof.
  intros Hin Hnd Hfree Hcf HB Hne Hown Hx.
  pose proof (unselected_not_expanded _ _ _ _ _ _ Hin Hnd Hfree Hcf HB Hx) as Hout.
  unfold Submit.fieldExists. apply some_all_false. intros f Hf.
  assert (String.eqb (name f) (qualify (name parent) x) = false) as Hnot.
  { apply String.eqb_neq. intros Heq. apply Hout. rewrite <-Heq.
    by apply list_elem_of_fmap_2. }
  unfold Submit.exists_for. rewrite unqualify_parent, Hnot by done.
  destruct (JS.startsWith _ _); [|done].
  unfold Submit.selected_key. rewrite HB.
  apply String.eqb_neq in Hne. rewrite Hne.
  unfold Submit.branch_or_empty. rewrite Hcf.
  destruct (cf !! B) as [nested|] eqn:Hbranch.
  - f_equal. apply not_true_is_false.
    intros (nf & Hnf%list_elem_of_In & Heq%String.eqb_eq)%existsb_exists.
    apply Hx. rewrite <-Heq. by apply list_elem_of_fmap_2.
  - by rewrite Hown.
Qed.

End SerializerFacts.


(** ** Objects filled by a loop of assignments *)

Section AssignmentFacts.
Import Schema.
Context {V : Type} (val : field → V).

Lemma fold_insert_keep (post : list field) (m : gmap string V) (k : string) :
  k ∉ name <$> post →
  fold_left (λ m g, <[name g := val g]> m) post m !! k = m !! k.
Proof.
  revert m; induction post as [|g post IH]; intros m Hk; simpl; [done|].
  rewrite fmap_cons in Hk. apply not_elem_of_cons in Hk as [Hne Hk].
  rewrite IH by done. by rewrite lookup_insert_ne.
Qed.

(** Each key holds the value assigned last. *)
Lemma fold_insert_last (l : list field) (acc : gmap string V) (f : field) :
  last_named l f →
  fold_left (λ m g, <[name g := val g]> m) l acc !! name f = Some (val f).
Proof.
  intros (pre & post & -> & Hlast).
  rewrite fold_left_app. simpl.
  rewrite fold_insert_keep by done. apply lookup_insert_eq.
Qed.

(** Every field of the list has an entry. *)
Lemma fold_insert_some (l : list field) (acc : gmap string V) (f : field) :
  f ∈ l → is_Some (fold_left (λ m g, <[name g := val g]> m) l acc !! name f).
Proof.
  revert f acc; induction l as [|g l IH]; intros f acc; [by intros ?%elem_of_nil|].
  intros [->|Hin]%elem_of_cons; simpl; [|by apply IH].
  destruct (decide (name g ∈ name <$> l)) as [Hlater|Hlast].
  - apply list_elem_of_fmap in Hlater as (h & Heq & Hh). rewrite Heq. by apply IH.
  - rewrite fold_insert_keep by done. rewrite lookup_insert_eq. by eexists.
Qed.

End AssignmentFacts.

(** ** The rule synthesizer *)

Section SynthFacts.
Import Schema.
Variable regex_ok : string → bool.
Implicit Types (f g : field) (fields : list field) (sel : selection)
  (log : list string).

Local Ltac run_monad :=
  unfold mbind, M_bind, Eff.bind, Eff.ret, Eff.try_catch, Eff.throw,
    Eff.console_error, Synth.new_RegExp.

(** The switch never throws; it only appends to the console. *)
Lemma base_schema_frame f log :
  ∃ s extra, Synth.base_schema regex_ok f log = (inr s, log ++ extra)
             ∧ Synth.base_schema regex_ok f [] = (inr s, extra).
Proof.
  unfold Synth.base_schema.
  repeat (case_match; try by (eexists _, []; rewrite app_nil_r)).
  run_monad. destruct (regex_ok _).
  - eexists _, []. by rewrite app_nil_r.
  - by eexists _, [_].
Qed.

Lemma field_rule_frame f log :
  Synth.field_rule regex_ok f log
  = (inr (Synth.rule_of regex_ok f), log ++ Synth.log_of regex_ok f).
Proof.
  unfold Synth.rule_of, Synth.log_of, Eff.run, Synth.field_rule.
  destruct (base_schema_frame f log) as (s & extra & H1 & H2).
  unfold mbind, M_bind, Eff.bind. by rewrite H1, H2.
Qed.

Lemma rule_of_eq f s extra :
  Synth.base_schema regex_ok f [] = (inr s, extra) →
  Synth.rule_of regex_ok f = Synth.with_requiredness f s
  ∧ Synth.log_of regex_ok f = extra.
Proof.
  intros H. unfold Synth.rule_of, Synth.log_of, Eff.run, Synth.field_rule.
  unfold mbind, M_bind, Eff.bind. by rewrite H.
Qed.

(** The loop of [generateValidationSchema], from any accumulator. *)
Lemma forEach_rules (l : list field) (acc : gmap string Yup.schema) log :
  Eff.forEach
    (λ schema f, fieldSchema ← Synth.field_rule regex_ok f;
                 Eff.ret (<[name f := fieldSchema]> schema)) l acc log
  = (inr (fold_left (λ schema f, <[name f := Synth.rule_of regex_ok f]> schema) l acc),
     log ++ concat (Synth.log_of regex_ok <$> l)).
Proof.
  revert acc log; induction l as [|f l IH]; intros acc log; simpl.
  - by rewrite app_nil_r.
  - unfold Eff.bind at 1. unfold mbind, M_bind, Eff.bind at 1.
    rewrite field_rule_frame. unfold Eff.ret at 1.
    by rewrite IH, <-app_assoc.
Qed.

Lemma generateValidationSchema_run fields sel :
  Eff.run (Synth.generateValidationSchema regex_ok fields sel)
  = (inr (fold_left (λ schema f, <[name f := Synth.rule_of regex_ok f]> schema)
            (getAllFields fields sel) ∅),
     concat (Synth.log_of regex_ok <$> getAllFields fields sel)).
Proof. unfold Eff.run, Synth.generateValidationSchema. by rewrite forEach_rules. Qed.

Lemma not_kind_eqb f k : type f ∉ kinds → k ∈ kinds → String.eqb (type f) k = false.
Proof. intros Hout Hk. apply String.eqb_neq. intros E. by rewrite E in Hout. Qed.

(** A kind outside the nine kinds takes the [default] case. *)
Lemma base_schema_unknown f log :
  type f ∉ kinds → Synth.base_schema regex_ok f log = (inr Yup.string, log).
Proof.
  intros Hout. unfold Synth.base_schema.
  rewrite !(not_kind_eqb f) by (done || (unfold kinds; set_solver)).
  done.
Qed.

(** A pattern that does not compile is caught and reported; the schema is
    the one built before the pattern was looked at. *)
Lemma base_schema_bad_regex f source log :
  type f = "text" ∨ type f = "textarea" →
  regex (validation f) = Some source → source ≠ "" → regex_ok source = false →
  Synth.base_schema regex_ok f log
  = (inr (Synth.with_length_limits f Yup.string),
     log ++ ["Invalid regex pattern: " +:+ source]).
Proof.
  intros Hty Hre Hne%String.eqb_neq Hbad. unfold Synth.base_schema.
  assert (String.eqb (type f) "email" = false ∧ String.eqb (type f) "number" = false
          ∧ String.eqb (type f) "text" || String.eqb (type f) "textarea" = true)
    as (-> & -> & ->) by (destruct Hty as [-> | ->]; done).
  rewrite Hre. simpl. rewrite Hne. run_monad. by rewrite Hbad.
Qed.

End SynthFacts.

(** C6 (as amended).  For a field whose kind is outside the nine kinds, rule
    synthesis does not raise: it builds the plain string rule, required or
    optional as the field says, and writes nothing to the console. *)
Theorem unknown_kind_defaults_to_string (regex_ok : string → bool)
    (f : Schema.field) (log : list string) :
  Schema.type f ∉ Schema.kinds →
  Synth.field_rule regex_ok f log
  = (inr (if Schema.required f
          then Yup.string .> Yup.required (Schema.label f +:+ " is required")
          else Yup.string .> Yup.nullable true .> Yup.notRequired),
     log).
Proof.
  intros Hout. unfold Synth.field_rule, mbind, M_bind, Eff.bind.
  rewrite base_schema_unknown by done. unfold Eff.ret. do 2 f_equal.
  unfold Synth.with_requiredness.
  rewrite !(not_kind_eqb f) by (done || (unfold Schema.kinds; set_solver)).
  by destruct (Schema.required f).
Qed.

Lemma unknown_kind_defaults_to_string_witness :
  Synth.field_rule Examples.rejects_open_paren Examples.colour []
  = (inr (Yup.string .> Yup.required "Colour is required"), []).
Proof.
  apply (unknown_kind_defaults_to_string Examples.rejects_open_paren Examples.colour []).
  vm_compute. intros H. repeat (apply elem_of_cons in H as [H|H]; [discriminate|]).
  by apply elem_of_nil in H.
Defined.

(** C6 (as stated) fails: synthesis over a form with a field of kind "color"
    returns a rule set, with the plain string rule for that field. *)
Lemma unknown_kind_does_not_raise :
  (Schema.type Examples.colour ∉ Schema.kinds) ∧
  Eff.run (Synth.generateValidationSchema Examples.rejects_open_paren [Examples.colour] ∅)
  = (inr {[ "colour" := Yup.string .> Yup.required "Colour is required" ]}, []).
Proof.
  split; [|by vm_compute].
  vm_compute. intros H. repeat (apply elem_of_cons in H as [H|H]; [discriminate|]).
  by apply elem_of_nil in H.
Qed.

(** C7.  A text or textarea field whose pattern does not compile does not
    make synthesis throw.  The rule built for it has the length limits and
    the required / optional tail but no pattern check, and the console
    receives the "Invalid regex pattern:" line.  Synthesis over the whole
    expansion returns a rule set in which every field of the expansion has a
    rule, and the rule held under a name is the one built for the last field
    carrying that name. *)
Theorem invalid_regex_skipped (regex_ok : string → bool)
    (fields : list Schema.field) (selectedValues : Schema.selection)
    (f : Schema.field) (source : string) :
  f ∈ Schema.getAllFields fields selectedValues →
  Schema.type f = "text" ∨ Schema.type f = "textarea" →
  Schema.regex (Schema.validation f) = Some source → source ≠ "" →
  regex_ok source = false →
  (∀ log,
     Synth.field_rule regex_ok f log
     = (inr (Synth.with_requiredness f (Synth.with_length_limits f Yup.string)),
        log ++ ["Invalid regex pattern: " +:+ source]))
  ∧ ∃ rules log,
      Eff.run (Synth.generateValidationSchema regex_ok fields selectedValues)
      = (inr rules, log)
      ∧ "Invalid regex pattern: " +:+ source ∈ log
      ∧ (∀ g, g ∈ Schema.getAllFields fields selectedValues →
              is_Some (rules !! Schema.name g))
      ∧ (∀ g, Schema.last_named (Schema.getAllFields fields selectedValues) g →
              ∃ rule, rules !! Schema.name g = Some rule
                      ∧ ∀ log0, (Synth.field_rule regex_ok g log0).1 = inr rule).
Proof.
  intros Hin Hty Hre Hne Hbad.
  destruct (rule_of_eq regex_ok f _ _ (base_schema_bad_regex regex_ok f source [] Hty Hre Hne Hbad))
    as [Hrule Hlog].
  split.
  - intros log. by rewrite field_rule_frame, Hrule, Hlog.
  - eexists _, _. split; [apply generateValidationSchema_run|]. repeat split.
    + apply list_elem_of_In, in_concat. exists (Synth.log_of regex_ok f). split.
      * by apply list_elem_of_In, list_elem_of_fmap_2.
      * rewrite Hlog. by left.
    + intros g Hg. by apply (fold_insert_some (Synth.rule_of regex_ok)).
    + intros g Hg. exists (Synth.rule_of regex_ok g). split.
      * by apply (fold_insert_last (Synth.rule_of regex_ok)).
      * intros log0. by rewrite field_rule_frame.
Qed.

Lemma invalid_regex_skipped_witness :
  Synth.field_rule Examples.rejects_open_paren (Examples.code true) []
  = (inr (Yup.string .> Yup.min 5 "Code must be at least 5 characters"
                     .> Yup.required "Code is required"),
     ["Invalid regex pattern: ("])
  ∧ ∃ rules log,
      Eff.run (Synth.generateValidationSchema Examples.rejects_open_paren
                 [Examples.code true; Examples.notes] ∅)
      = (inr rules, log)
      ∧ "Invalid regex pattern: (" ∈ log
      ∧ is_Some (rules !! "notes").
Proof.
  destruct (invalid_regex_skipped Examples.rejects_open_paren
              [Examples.code true; Examples.notes] ∅ (Examples.code true) "(")
    as (Hrule & rules & log & Hrun & Hlog & Hall & _).
  - left.
  - by left.
  - reflexivity.
  - discriminate.
  - reflexivity.
  - split; [exact (Hrule [])|].
    exists rules, log. split; [exact Hrun|]. split; [exact Hlog|].
    apply (Hall Examples.notes). right. left.
Defined.

(** ** The validator *)

Section ValidatorFacts.
Import Schema.
Variable Number_of_string : string → option Z.
Variables email_ok date_ok : string → bool.
Variable regex_search : string → string → bool.
Variable regex_ok : string → bool.

Local Abbreviation validate_value :=
  (Validator.validate_value Number_of_string email_ok date_ok regex_search).
Local Abbreviation cast := (Validator.cast Number_of_string).

(** Both transforms of the source leave [undefined] as it is. *)
Lemma cast_undefined (s : Yup.schema) : cast s JS.VUndefined = JS.VUndefined.
Proof.
  unfold Validator.cast. induction (Yup.calls s) as [|c l IH] using rev_ind; [done|].
  rewrite fold_left_app. simpl. rewrite IH.
  destruct c as [| | | | | | | | |[]|]; reflexivity.
Qed.

Lemma required_message_none (s : Yup.schema) :
  Yup.free_of_binding s → Validator.required_message s = None.
Proof.
  unfold Yup.free_of_binding, Validator.required_message.
  induction (Yup.calls s) as [|c l IH] using rev_ind; [done|].
  rewrite forallb_app, fold_left_app. intros [Hl Hc]%andb_prop. simpl in *.
  rewrite (IH Hl). by destruct c.
Qed.

Lemma no_absent_failure (s : Yup.schema) (v : JS.value) :
  Yup.free_of_binding s →
  Validator.first_failure ((λ c, Validator.check_absent c v) <$> Yup.calls s)
  = Validator.Valid.
Proof.
  unfold Yup.free_of_binding, Validator.first_failure.
  induction (Yup.calls s) as [|c l IH]; [done|]. simpl.
  intros [Hc Hl]%andb_prop. destruct c; simpl in *; try done; by apply IH.
Qed.

(** A rule with no [required] call and no [test] callback accepts a field
    left empty, whatever constraint checks it chains. *)
Lemma unbound_rule_accepts_empty (s : Yup.schema) (v : JS.value) :
  Yup.free_of_binding s → Validator.left_empty v = true →
  validate_value s v = Validator.Valid.
Proof.
  intros Hfree Hempty. unfold Validator.validate_value.
  rewrite Hempty, cast_undefined, required_message_none by done.
  by apply no_absent_failure.
Qed.

Local Ltac run_monad :=
  unfold mbind, M_bind, Eff.bind, Eff.ret, Eff.try_catch, Eff.throw,
    Eff.console_error, Synth.new_RegExp.

(** The switch chains neither call for an optional field. *)
Lemma base_schema_optional (f : field) :
  required f = false →
  ∃ s extra, Synth.base_schema regex_ok f [] = (inr s, extra) ∧ Yup.free_of_binding s.
Proof.
  intros Hopt. unfold Synth.base_schema, Synth.with_length_limits, Yup.free_of_binding.
  rewrite Hopt.
  repeat (case_match; try by (eexists _, _; split; reflexivity)).
  all: run_monad; destruct (regex_ok _); eexists _, _; split; reflexivity.
Qed.

Lemma optional_rule_unbound (f : field) :
  required f = false → Yup.free_of_binding (Synth.rule_of regex_ok f).
Proof.
  intros Hopt. destruct (base_schema_optional f Hopt) as (s & extra & Hs & Hfree).
  destruct (rule_of_eq regex_ok f s extra Hs) as [-> _].
  unfold Synth.with_requiredness, Yup.free_of_binding in *. rewrite Hopt. simpl.
  repeat case_match; simpl; rewrite ?forallb_app, ?Hfree; done.
Qed.

(** The same at the level of the form: the outcome held for an optional
    field whose entry of the value map is empty is Valid. *)
Lemma optional_empty_in_form (fields : list field) (sel : selection)
    (values : JS.entries) (f : field) :
  last_named (getAllFields fields sel) f →
  required f = false →
  Validator.left_empty (JS.get values (name f)) = true →
  ∃ rules log,
    Eff.run (Synth.generateValidationSchema regex_ok fields sel) = (inr rules, log)
    ∧ Validator.validate Number_of_string email_ok date_ok regex_search rules values
        !! name f = Some Validator.Valid.
Proof.
  intros Hlast Hopt Hempty.
  eexists _, _. split; [apply generateValidationSchema_run|].
  unfold Validator.validate. rewrite map_lookup_imap.
  rewrite (fold_insert_last (Synth.rule_of regex_ok)) by done. simpl.
  f_equal. apply unbound_rule_accepts_empty; [|done]. by apply optional_rule_unbound.
Qed.

End ValidatorFacts.

(** C4.  For every optional field, of any kind and with any constraints,
    synthesis returns a rule against which a value left empty (the empty
    string or [undefined]) is Valid: none of the constraint checks chained
    in the rule is applied.  An optional text field with [minLength = 5] gets
    a rule holding the length check and "" is Valid against it; for the same
    field made required "" is Invalid. *)
Theorem optional_empty_is_valid (Number_of_string : string → option Z)
    (email_ok date_ok : string → bool) (regex_search : string → string → bool)
    (regex_ok : string → bool) (f : Schema.field) (v : JS.value) :
  Schema.required f = false →
  Validator.left_empty v = true →
  (∃ rule log,
     Eff.run (Synth.field_rule regex_ok f) = (inr rule, log)
     ∧ Validator.validate_value Number_of_string email_ok date_ok regex_search rule v
       = Validator.Valid)
  ∧ (∃ rule,
       Eff.run (Synth.field_rule regex_ok (Examples.nickname false)) = (inr rule, [])
       ∧ Yup.min 5 "Nickname must be at least 5 characters" ∈ Yup.calls rule
       ∧ Validator.validate_value Number_of_string email_ok date_ok regex_search
           rule (JS.VStr "") = Validator.Valid)
  ∧ (∃ rule,
       Eff.run (Synth.field_rule regex_ok (Examples.nickname true)) = (inr rule, [])
       ∧ Validator.validate_value Number_of_string email_ok date_ok regex_search
           rule (JS.VStr "") = Validator.Invalid "Nickname is required").
Proof.
  intros Hopt Hempty. split; [|split].
  - eexists _, _. split; [apply field_rule_frame|].
    apply unbound_rule_accepts_empty; [|done]. by apply optional_rule_unbound.
  - eexists. split; [reflexivity|]. split; [|reflexivity].
    simpl. left.
  - eexists. split; reflexivity.
Qed.

Lemma optional_empty_is_valid_witness :
  ∃ rule log,
    Eff.run (Synth.field_rule Examples.rejects_open_paren (Examples.code false))
    = (inr rule, log)
    ∧ Validator.validate_value (λ _, None) (λ _, true) (λ _, true) (λ _ _, true)
        rule (JS.VStr "") = Validator.Valid.
Proof.
  apply (optional_empty_is_valid (λ _, None) (λ _, true) (λ _, true) (λ _ _, true)
           Examples.rejects_open_paren (Examples.code false) (JS.VStr ""));
    reflexivity.
Defined.

(** ** Initial values *)

(** C9.  For a field of the expansion (the last one carrying its name when a
    name is carried twice), the initial-value map holds the empty string when
    the kind is text, textarea, email, date, select or radio, [false] when it
    is checkbox, and an absent value when it is number or file: [undefined]
    for number, [null] for file. *)
Theorem initial_values_by_kind (fields : list Schema.field)
    (selectedValues : Schema.selection) (f : Schema.field) :
  Schema.last_named (Schema.getAllFields fields selectedValues) f →
  let initialValues := Schema.getInitialValues fields selectedValues in
  (Schema.type f ∈ ["text"; "textarea"; "email"; "date"; "select"; "radio"] →
     initialValues !! Schema.name f = Some (JS.VStr ""))
  ∧ (Schema.type f = "checkbox" → initialValues !! Schema.name f = Some (JS.VBool false))
  ∧ (Schema.type f = "number" → initialValues !! Schema.name f = Some JS.VUndefined)
  ∧ (Schema.type f = "file" → initialValues !! Schema.name f = Some JS.VNull).
Proof.
  intros Hlast initialValues.
  assert (initialValues !! Schema.name f = Some (Schema.initial_value f)) as ->
    by by apply (fold_insert_last Schema.initial_value).
  unfold Schema.initial_value. repeat split.
  - intros Hty. repeat (apply elem_of_cons in Hty as [->|Hty]; [done|]).
    by apply elem_of_nil in Hty.
  - by intros ->.
  - by intros ->.
  - by intros ->.
Qed.

Lemma initial_values_by_kind_witness :
  Schema.getInitialValues [Examples.contact_method] {[ "contact_method" := "Email" ]}
    !! "contact_method_email_address" = Some (JS.VStr "").
Proof.
  refine (proj1 (initial_values_by_kind [Examples.contact_method]
                   {[ "contact_method" := "Email" ]}
                   (Schema.nested_copy Examples.contact_method Examples.email_address) _) _).
  - exists [Examples.contact_method], []. split; [reflexivity|]. apply not_elem_of_nil.
  - vm_compute. do 2 right. left.
Defined.

(** ** Field identity *)

Section IdentityFacts.
Import Identity.
Implicit Types (f g : item) (fields : list item).

Lemma truthy_string_some (s : string) : s ≠ "" → JS.truthy_string (Some s) = Some s.
Proof. intros Hne%String.eqb_neq. simpl. by rewrite Hne. Qed.

Lemma truthy_string_inv (o : option string) (s : string) :
  JS.truthy_string o = Some s → o = Some s ∧ s ≠ "".
Proof.
  destruct o as [t|]; simpl; [|done].
  destruct (String.eqb t "") eqn:Ht; [done|].
  intros [= ->]. split; [done|]. by apply String.eqb_neq.
Qed.

(** An identity is never the empty string. *)
Lemma generateStableId_nonempty f index : generateStableId f index ≠ "".
Proof.
  unfold generateStableId.
  destruct (JS.truthy_string (_dragId f)) as [token|] eqn:Htoken;
    [by apply truthy_string_inv in Htoken as [_ ?]|].
  destruct (JS.truthy_string (_id f)) as [id|] eqn:Hid;
    [by apply truthy_string_inv in Hid as [_ ?]|].
  by destruct (negb _).
Qed.

(** A field that carries a token is identified by it at every position. *)
Lemma generateStableId_token f index token :
  _dragId f = Some token → token ≠ "" → generateStableId f index = token.
Proof.
  intros Hf Hne. unfold generateStableId. by rewrite Hf, truthy_string_some.
Qed.

Lemma splice_in_fmap {A B} (h : A → B) (at_ : nat) (x : A) (l : list A) :
  h <$> splice_in at_ x l = splice_in at_ (h x) (h <$> l).
Proof. unfold splice_in. by rewrite fmap_app, fmap_cons, fmap_take, fmap_drop. Qed.

Lemma move_fmap {A B} (h : A → B) (source destination : nat) (l : list A) :
  h <$> move source destination l = move source destination (h <$> l).
Proof.
  unfold move. rewrite list_lookup_fmap.
  destruct (l !! source) as [x|]; simpl; [|done].
  by rewrite splice_in_fmap, list_fmap_delete.
Qed.

(** The moved element lands on the destination, clamped to the last slot. *)
Lemma move_lookup_destination {A} (source destination : nat) (l : list A) (x : A) :
  l !! source = Some x →
  move source destination l !! (destination `min` (length l - 1)) = Some x.
Proof.
  intros Hx. unfold move, splice_in. rewrite Hx.
  assert (length (delete source l) = length l - 1) as Hlen.
  { rewrite length_delete; [done|by eexists]. }
  rewrite lookup_app_r; rewrite length_take, Hlen; [|done].
  by rewrite Nat.sub_diag.
Qed.

(** The callback of [useMemo] gives every item its identity as token. *)
Lemma fieldsWithStableIds_token fields :
  (λ g, default "" (_dragId g)) <$> stable_ids fields = identities fields.
Proof. unfold stable_ids, identities. by rewrite fmap_imap. Qed.

Lemma fieldsWithStableIds_carried fields g :
  g ∈ stable_ids fields →
  ∃ token, _dragId g = Some token ∧ token ≠ "".
Proof.
  intros (i & f & -> & _)%elem_of_lookup_imap. eexists. split; [done|].
  apply generateStableId_nonempty.
Qed.

(** The identities of fields that carry tokens are the tokens. *)
Lemma identities_of_tokens (l : list item) :
  (∀ g, g ∈ l → ∃ token, _dragId g = Some token ∧ token ≠ "") →
  identities l = (λ g, default "" (_dragId g)) <$> l.
Proof.
  intros Hcarried. unfold identities.
  rewrite <-(imap_const (λ g, default "" (_dragId g))).
  apply imap_ext. intros i g Hg.
  destruct (Hcarried g) as (token & Htoken & Hne); [by eapply list_elem_of_lookup_2|].
  unfold const. rewrite Htoken. simpl. by apply generateStableId_token.
Qed.

Lemma imap_compose {A B C} (F : nat → A → B) (G : nat → B → C) (l : list A) :
  imap G (imap F l) = imap (λ i x, G i (F i x)) l.
Proof.
  revert F G; induction l as [|x l IH]; intros F G; [done|].
  rewrite !imap_cons. f_equal. apply IH.
Qed.

Lemma elem_of_move {A} (source destination : nat) (l : list A) (x : A) :
  x ∈ move source destination l → x ∈ l.
Proof.
  unfold move, splice_in. destruct (l !! source) as [y|] eqn:Hy; [|done].
  rewrite elem_of_app, elem_of_cons.
  intros [H|[->|H]].
  - eapply list_elem_of_delete_inv, elem_of_sublist; [done|apply sublist_take].
  - by eapply list_elem_of_lookup_2.
  - eapply list_elem_of_delete_inv, elem_of_sublist; [done|apply sublist_drop].
Qed.

End IdentityFacts.

(** C8.  [generateStableId] follows the priority order: a carried token is
    returned unchanged, else the storage id, else the name, else a placeholder
    built from the position.  A reorder moves each field of the list the
    component holds, [fieldsWithStableIds], together with its identity: the
    list of identities after [handleDragEnd] is the list before it with the
    dragged entry moved, so a field that carried a token keeps that token on
    the slot it is dropped on. *)
Theorem identity_priority_and_reorder (last : option (list Identity.item))
    (fields : list Identity.item) (source destination : nat) (f : Identity.item) :
  Identity.fieldsWithStableIds last fields !! source = Some f →
  source ≠ destination →
  (∀ g index token,
     Identity._dragId g = Some token → token ≠ "" →
     Identity.generateStableId g index = token)
  ∧ (∀ g index id,
       JS.truthy_string (Identity._dragId g) = None →
       Identity._id g = Some id → id ≠ "" →
       Identity.generateStableId g index = id)
  ∧ (∀ g index,
       JS.truthy_string (Identity._dragId g) = None →
       JS.truthy_string (Identity._id g) = None →
       Identity.name g ≠ "" →
       Identity.generateStableId g index = "field-" +:+ Identity.name g)
  ∧ (∀ g index,
       JS.truthy_string (Identity._dragId g) = None →
       JS.truthy_string (Identity._id g) = None →
       Identity.name g = "" →
       Identity.generateStableId g index = "field-temp-" +:+ pretty index)
  ∧ ∃ updatedFields,
      Identity.handleDragEnd (Identity.fieldsWithStableIds last fields) source
        (Some destination)
      = Identity.Updated updatedFields
      ∧ Identity.def <$> updatedFields
        = Identity.move source destination
            (Identity.def <$> Identity.fieldsWithStableIds last fields)
      ∧ Identity.identities updatedFields
        = Identity.move source destination
            (Identity.identities (Identity.fieldsWithStableIds last fields))
      ∧ ∀ token,
          Identity._dragId f = Some token → token ≠ "" →
          ∃ f', updatedFields
                  !! (destination
                        `min` (length (Identity.fieldsWithStableIds last fields) - 1))
                = Some f'
                ∧ Identity.def f' = Identity.def f
                ∧ Identity.generateStableId f'
                    (destination
                       `min` (length (Identity.fieldsWithStableIds last fields) - 1))
                  = token.
Proof.
  intros Hsrc Hne. split; [|split; [|split; [|split]]].
  - intros g index token. apply generateStableId_token.
  - intros g index id Hd Hid Hne'. unfold Identity.generateStableId.
    by rewrite Hd, Hid, truthy_string_some.
  - intros g index Hd Hid Hname%String.eqb_neq. unfold Identity.generateStableId.
    by rewrite Hd, Hid, Hname.
  - intros g index Hd Hid Hname. unfold Identity.generateStableId.
    by rewrite Hd, Hid, Hname.
  - unfold Identity.fieldsWithStableIds in *.
    set (items := Identity.stable_ids (Identity.memoized last fields)) in *.
    unfold Identity.handleDragEnd.
    apply Nat.eqb_neq in Hne. rewrite Hne. cbn zeta. rewrite Hsrc.
    eexists. split; [done|].
    set (reordered := Identity.splice_in destination f (delete source items)).
    assert (reordered = Identity.move source destination items) as Hmove
      by (unfold Identity.move; by rewrite Hsrc).
    assert (∀ g, g ∈ reordered → ∃ token, Identity._dragId g = Some token ∧ token ≠ "")
      as Hcarried.
    { intros g Hg. rewrite Hmove in Hg. apply elem_of_move in Hg.
      by apply fieldsWithStableIds_carried in Hg. }
    split; [|split].
    + rewrite fmap_imap, <-move_fmap, <-Hmove.
      by rewrite <-(imap_const Identity.def).
    + rewrite (identities_of_tokens items) by apply fieldsWithStableIds_carried.
      rewrite <-move_fmap, <-Hmove. unfold Identity.identities. rewrite imap_compose.
      rewrite <-(imap_const (λ g, default "" (Identity._dragId g))).
      apply imap_ext. intros i g Hg.
      destruct (Hcarried g) as (token & Htoken & Hne'); [by eapply list_elem_of_lookup_2|].
      unfold const. rewrite Htoken. simpl.
      apply generateStableId_token; [|done].
      unfold Identity.keep_or_generate. simpl. by rewrite Htoken, truthy_string_some.
    + intros token Htoken Hne'.
      pose proof (move_lookup_destination source destination _ _ Hsrc) as Hdest.
      rewrite <-Hmove in Hdest.
      eexists. split; [by rewrite list_lookup_imap, Hdest|]. split; [done|].
      apply generateStableId_token; [|done].
      unfold Identity.keep_or_generate. by rewrite Htoken, truthy_string_some.
Qed.

Lemma identity_priority_and_reorder_witness :
  let field n := Examples.plain n n "text" false in
  let fields :=
    [Identity.mkItem None None 0 (field "first");
     Identity.mkItem (Some "field_1730000000000_k3j9x2m1q") None 1 (field "second");
     Identity.mkItem None (Some "66f0a1") 2 (field "third")] in
  ∃ updatedFields,
    Identity.handleDragEnd (Identity.fieldsWithStableIds None fields) 1 (Some 0)
    = Identity.Updated updatedFields
    ∧ Identity.identities updatedFields
      = ["field_1730000000000_k3j9x2m1q"; "field-first"; "66f0a1"].
Proof.
  intros field fields.
  destruct (identity_priority_and_reorder None fields 1 0
              (Identity.mkItem (Some "field_1730000000000_k3j9x2m1q") None 1 (field "second"))
              eq_refl ltac:(lia))
    as (_ & _ & _ & _ & updatedFields & Hrun & _ & Hids & _).
  exists updatedFields. split; [exact Hrun|]. rewrite Hids. reflexivity.
Defined.

(** ** The field expander on shared objects *)

Section StoreFacts.
Import Store.
Implicit Types (h : heap) (fields out : list loc) (sel : Schema.selection).

Lemma lookup_preserved h0 h l o : h0 ⊆ h → h0 !! l = Some o → h !! l = Some o.
Proof. intros Hsub Hl. by eapply lookup_weaken. Qed.

Lemma push_copy_preserved h0 fields field nestedField st :
  is_Some (h0 !! field) → is_Some (h0 !! nestedField) →
  preserved h0 fields st → preserved h0 fields (push_copy field st nestedField).
Proof.
  intros [f Hf] [nf Hnf] (h & out & extra & -> & Hsub & -> & Hnew).
  pose proof (lookup_preserved _ _ _ _ Hsub Hf) as Hf'.
  pose proof (lookup_preserved _ _ _ _ Hsub Hnf) as Hnf'.
  set (l := fresh (dom h)).
  assert (h !! l = None) as Hfresh by apply not_elem_of_dom, is_fresh.
  assert (h0 !! l = None) as Hfresh0.
  { destruct (h0 !! l) as [o|] eqn:Ho; [|done].
    by rewrite (lookup_preserved _ _ _ _ Hsub Ho) in Hfresh. }
  assert (l ≠ field) as Hlf by (intros ->; by rewrite Hf' in Hfresh).
  assert (l ≠ nestedField) as Hln by (intros ->; by rewrite Hnf' in Hfresh).
  unfold push_copy, spread, assign_qualified_name. simpl.
  rewrite Hnf'. simpl. fold l.
  rewrite lookup_insert_eq. simpl.
  rewrite !lookup_insert_ne by done. rewrite Hf', Hnf'. simpl.
  eexists _, _, (extra ++ [l]). split; [done|]. split; [|split].
  - apply insert_subseteq_r; [done|]. by apply insert_subseteq_r.
  - by rewrite app_assoc.
  - apply Forall_app. split; [done|]. apply Forall_singleton.
    by apply not_elem_of_dom.
Qed.

Lemma push_copies_preserved h0 fields field nested st :
  is_Some (h0 !! field) → (∀ n, n ∈ nested → is_Some (h0 !! n)) →
  preserved h0 fields st →
  preserved h0 fields (fold_left (push_copy field) nested st).
Proof.
  intros Hf. revert st. induction nested as [|n nested IH]; intros st Hn Hst; [done|].
  simpl. apply IH.
  - intros m Hm. apply Hn. by right.
  - apply push_copy_preserved; [done| |done]. apply Hn. by left.
Qed.

Lemma push_conditional_preserved h0 fields sel field st :
  closed h0 fields → field ∈ fields →
  preserved h0 fields st → preserved h0 fields (push_conditional sel st field).
Proof.
  intros [Htop Hnested] Hin (h & out & extra & -> & Hsub & -> & Hnew).
  destruct (Htop field Hin) as [f Hf].
  unfold push_conditional. simpl.
  rewrite (lookup_preserved _ _ _ _ Hsub Hf). simpl.
  assert (preserved h0 fields (Some (h, fields ++ extra))) as Hsame
    by (by eexists _, _, _).
  repeat case_match; try done.
  apply push_copies_preserved; [by eexists| |done].
  intros n Hn. by eapply Hnested.
Qed.

Lemma fold_push_conditional_preserved h0 fields sel todo st :
  closed h0 fields → (∀ l, l ∈ todo → l ∈ fields) →
  preserved h0 fields st →
  preserved h0 fields (fold_left (push_conditional sel) todo st).
Proof.
  intros Hclosed. revert st. induction todo as [|l todo IH]; intros st Hsub Hst; [done|].
  simpl. apply IH.
  - intros m Hm. apply Hsub. by right.
  - apply push_conditional_preserved; [done| |done]. apply Hsub. by left.
Qed.

End StoreFacts.

(** C10.  On a heap where every reference of the schema points to an object,
    [getAllFields] returns, and every object of the heap it was given is
    still there with the same properties, so the [name] of each nested field
    held in [conditionalFields] is the one it had.  The returned list starts
    with the references it was given; every further entry is an object that
    did not exist before. *)
Theorem expansion_does_not_mutate (h : Store.heap) (fields : list Store.loc)
    (selectedValues : Schema.selection) :
  Store.closed h fields →
  ∃ h' allFields,
    Store.getAllFields h fields selectedValues = Some (h', allFields)
    ∧ (∀ l o, h !! l = Some o → h' !! l = Some o)
    ∧ take (length fields) allFields = fields
    ∧ Forall (λ l, l ∉ dom h) (drop (length fields) allFields).
Proof.
  intros Hclosed.
  destruct (fold_push_conditional_preserved h fields selectedValues fields
              (Some (h, fields)) Hclosed)
    as (h' & out & extra & Hrun & Hsub & -> & Hnew).
  - done.
  - exists h, fields, []. by rewrite app_nil_r.
  - exists h', (fields ++ extra). split; [done|]. split; [|split].
    + intros l o. by apply lookup_preserved.
    + by rewrite take_app_length.
    + by rewrite drop_app_length.
Qed.

Lemma expansion_does_not_mutate_witness :
  ∃ h' allFields,
    Store.getAllFields Examples.shared_heap [1%positive] {[ "p" := "A" ]}
    = Some (h', allFields)
    ∧ (∀ l o, Examples.shared_heap !! l = Some o → h' !! l = Some o)
    ∧ take 1 allFields = [1%positive]
    ∧ Forall (λ l, l ∉ dom Examples.shared_heap) (drop 1 allFields).
Proof.
  apply (expansion_does_not_mutate Examples.shared_heap [1%positive] {[ "p" := "A" ]}).
  split.
  - intros l ->%list_elem_of_singleton. by eexists.
  - intros l o cf k nested n Hl Hcf Hk Hn.
    unfold Examples.shared_heap in Hl.
    apply lookup_insert_Some in Hl as [[<- <-]|[_ Hl]].
    + simpl in Hcf. injection Hcf as <-.
      apply lookup_singleton_Some in Hk as [<- <-].
      apply list_elem_of_singleton in Hn as ->. by eexists.
    + apply lookup_singleton_Some in Hl as [<- <-]. discriminate.
Defined.

(** ** The two expanders agree *)

Section RefinementFacts.
Import Store.
Implicit Types (h : heap) (fields out : list loc) (sel : Schema.selection).

Lemma read_flat_weaken h h' l f : h ⊆ h' → read_flat h l = Some f → read_flat h' l = Some f.
Proof.
  unfold read_flat. intros Hsub. destruct (h !! l) as [o|] eqn:Ho; [|done].
  by rewrite (lookup_weaken _ _ _ _ Ho Hsub).
Qed.

Lemma push_copy_agrees h0 field nestedField st acc o F N :
  h0 !! field = Some o → Schema.name F = name o →
  read_flat h0 nestedField = Some N →
  agrees h0 st acc →
  agrees h0 (push_copy field st nestedField) (acc ++ [Schema.nested_copy F N]).
Proof.
  intros Hf HF HN (h & out & -> & Hsub & Hout).
  unfold read_flat in HN. destruct (h0 !! nestedField) as [n|] eqn:Hnf; [|done].
  simpl in HN. injection HN as <-.
  pose proof (lookup_weaken _ _ _ _ Hf Hsub) as Hf'.
  pose proof (lookup_weaken _ _ _ _ Hnf Hsub) as Hnf'.
  set (l := fresh (dom h)).
  assert (h !! l = None) as Hfresh by apply not_elem_of_dom, is_fresh.
  assert (l ≠ field) as Hlf by (intros ->; by rewrite Hf' in Hfresh).
  assert (l ≠ nestedField) as Hln by (intros ->; by rewrite Hnf' in Hfresh).
  unfold push_copy, spread, assign_qualified_name. simpl.
  rewrite Hnf'. simpl. fold l.
  rewrite lookup_insert_eq. simpl.
  rewrite !lookup_insert_ne by done. rewrite Hf', Hnf'. simpl.
  eexists _, _. split; [done|].
  assert (h ⊆ <[l:=set_name (Schema.qualify (name o) (name n)) n]> (<[l:=n]> h)) as Hsub'.
  { apply insert_subseteq_r; [done|]. by apply insert_subseteq. }
  split; [by etrans|].
  apply Forall2_app.
  - eapply Forall2_impl; [done|]. intros x y. by apply read_flat_weaken.
  - constructor; [|constructor]. unfold read_flat. rewrite lookup_insert_eq.
    unfold Schema.without_nested, Schema.nested_copy, Schema.with_name. simpl.
    by rewrite HF.
Qed.

Lemma push_copies_agrees h0 field nested st acc o F Ns :
  h0 !! field = Some o → Schema.name F = name o →
  Forall2 (λ n N, read_flat h0 n = Some N) nested Ns →
  agrees h0 st acc →
  agrees h0 (fold_left (push_copy field) nested st)
    (fold_left (λ acc N, acc ++ [Schema.nested_copy F N]) Ns acc).
Proof.
  intros Hf HF Hns. revert st acc.
  induction Hns as [|n N nested Ns HN _ IH]; intros st acc Hst; [done|].
  simpl. apply IH. by eapply push_copy_agrees.
Qed.

Lemma mapM_read_flat_some h nested :
  (∀ n, n ∈ nested → is_Some (h !! n)) → is_Some (mapM (read_flat h) nested).
Proof.
  induction nested as [|n nested IH]; intros Hn; [by eexists|].
  destruct (Hn n) as [o Ho]; [by left|].
  destruct IH as [Ns HNs]; [intros m Hm; apply Hn; by right|].
  exists (Schema.mkField (name o) (label o) (type o) (required o) (options o)
            (validation o) None :: Ns).
  apply mapM_Some. constructor; [|by apply mapM_Some].
  unfold read_flat. by rewrite Ho.
Qed.

Lemma push_conditional_agrees h0 sel field st acc F :
  (∀ l o cf k nested n,
     h0 !! l = Some o → conditionalFields o = Some cf → cf !! k = Some nested →
     n ∈ nested → is_Some (h0 !! n)) →
  read h0 field = Some F →
  agrees h0 st acc →
  agrees h0 (push_conditional sel st field) (Schema.push_conditional sel acc F).
Proof.
  intros Hnested HF (h & out & -> & Hsub & Hout).
  unfold read in HF. destruct (h0 !! field) as [o|] eqn:Ho; [|done].
  simpl in HF. injection HF as <-.
  unfold push_conditional, Schema.push_conditional. simpl.
  rewrite (lookup_weaken _ _ _ _ Ho Hsub). simpl.
  assert (agrees h0 (Some (h, out)) acc) as Hsame by (by eexists _, _).
  unfold is_selectable, Schema.is_selectable. simpl.
  destruct (_ || _); [|done].
  destruct (conditionalFields o) as [cf|] eqn:Hcf; simpl; [|done].
  destruct (JS.truthy_string _) as [selectedValue|]; [|done].
  rewrite lookup_omap.
  destruct (cf !! selectedValue) as [nested|] eqn:Hn; simpl; [|done].
  destruct (mapM_read_flat_some h0 nested) as [Ns HNs].
  { intros n Hin. by eapply Hnested. }
  rewrite HNs. apply mapM_Some in HNs. by eapply push_copies_agrees.
Qed.

(** The expander on shared objects computes, read back from the heap, the
    list of the expander on values. *)
Lemma getAllFields_agrees h fields sel fs :
  closed h fields →
  Forall2 (λ l F, read h l = Some F) fields fs →
  agrees h (Store.getAllFields h fields sel) (Schema.getAllFields fs sel).
Proof.
  intros [_ Hnested] Hfs. unfold Store.getAllFields, Schema.getAllFields.
  assert (agrees h (Some (h, fields)) fs) as Hinit.
  { exists h, fields. split; [done|]. split; [done|].
    eapply Forall2_impl; [done|]. intros l F. unfold read, read_flat.
    destruct (h !! l); simpl; [|done]. by intros [= <-]. }
  revert Hinit. generalize (Some (h, fields)) at 1 2. generalize fs at 1 3.
  induction Hfs as [|l F todo todoF HF _ IH]; intros acc st Hst; [done|].
  simpl. apply IH. by eapply push_conditional_agrees.
Qed.

End RefinementFacts.

(** * Further properties *)

(** ** Membership in the expansion *)


(** ** What the serializer emits *)

Section SerializerOutput.
Import Schema.
Context (Number_toString : Z → string) (Inherited_toString : string → string).
Implicit Types (fields allFields : list field) (sel : selection) (values : JS.entries).

Lemma prefix_longer (a b : string) : String.prefix (a +:+ b) a = true → b = "".
Proof.
  induction a as [|c a IH].
  - apply prefix_nil_r.
  - change (String.prefix (String c (a +:+ b)) (String c a) = true → b = "").
    intros [_ H]%prefix_cons. by apply IH.
Qed.

(** A name does not start with itself followed by the separator. *)
Lemma not_starts_with_own_prefix (n : string) : JS.startsWith n (n +:+ "_") = false.
Proof.
  apply not_true_is_false. by intros H%prefix_longer.
Qed.

(** The existence test of the name of a field of the expansion does not say
    no: it says yes, unless it throws on a field before that one. *)
Lemma effective_name_exists fields allFields sel values n :
  n ∈ name <$> allFields →
  Submit.fieldExists Number_toString Inherited_toString fields allFields sel values n ≠ Some false.
Proof.
  intros (f & -> & Hf)%list_elem_of_fmap Hno.
  apply (some_false_elem _ _ f) in Hno; [|done].
  unfold Submit.exists_for in Hno.
  by rewrite not_starts_with_own_prefix, String.eqb_refl in Hno.
Qed.

(** The existence test throws only on a top-level field whose selected
    option is a property name its branches inherit without owning. *)
Lemma fieldExists_None_inv fields allFields sel values n :
  Submit.fieldExists Number_toString Inherited_toString fields allFields sel values n
  = None →
  ∃ parent cf,
    parent ∈ fields ∧ conditionalFields parent = Some cf
    ∧ cf !! Submit.selected_key Number_toString Inherited_toString sel values
              (name parent) = None
    ∧ JS.inherited
        (Submit.selected_key Number_toString Inherited_toString sel values (name parent))
      = true.
Proof.
  intros (f & _ & Hf)%some_None_elem. unfold Submit.exists_for in Hf.
  destruct (JS.startsWith n (name f +:+ "_")); [|done].
  unfold Submit.unqualify in Hf.
  destruct (find _ fields) as [parent|] eqn:Hfind; simpl in Hf; [|done].
  apply find_some in Hfind as [Hin%list_elem_of_In _].
  unfold Submit.branch_or_empty in Hf.
  destruct (conditionalFields parent) as [cf|] eqn:Hcf; [|done].
  destruct (cf !! _) as [nested|] eqn:Hkey; [done|].
  destruct (JS.inherited _) eqn:Hinh; [|done].
  by exists parent, cf.
Qed.

(** The loop throws exactly when the existence test of an entry does. *)
Lemma forEach_submit_None fields allFields sel values entries st :
  JS.forEach (Submit.submit_entry Number_toString Inherited_toString fields allFields sel values) entries st
  = None
  ↔ ∃ e, e ∈ entries
         ∧ Submit.fieldExists Number_toString Inherited_toString fields allFields sel values e.1 = None.
Proof.
  apply forEach_None. intros s x. unfold Submit.submit_entry.
  by destruct (Submit.fieldExists _ _ _ _ _ _ _) as [[]|].
Qed.

(** The names of the answers follow the keys of the entries. *)
Lemma forEach_submit_names fields allFields sel values entries st st' :
  JS.forEach (Submit.submit_entry Number_toString Inherited_toString fields allFields sel values) entries st
  = Some st' →
  ∃ extra, Submit.name <$> st'.1 = (Submit.name <$> st.1) ++ extra
           ∧ extra `sublist_of` entries.*1.
Proof.
  revert st; induction entries as [|[k v] entries IH]; intros st; simpl.
  - intros [= <-]. exists []. by rewrite app_nil_r.
  - unfold Submit.submit_entry at 1. simpl.
    destruct (Submit.fieldExists _ _ _ _ _ _ k) as [[]|]; [| |done]; intros Hrest.
    + destruct (IH _ Hrest) as (extra2 & Heq2 & Hsub2).
      destruct (append_entry_answers Number_toString allFields st (k, v))
        as (extra1 & Heq1 & Hnames & Hlen).
      exists ((Submit.name <$> extra1) ++ extra2).
      split; [by rewrite Heq2, Heq1, fmap_app, app_assoc|].
      apply (sublist_app _ [k] extra2 entries.*1); [|done].
      destruct extra1 as [|a [|b extra1]]; [apply sublist_nil_l| |simpl in Hlen; lia].
      apply Forall_cons in Hnames as [Hname _]. simpl in *. by rewrite Hname.
    + destruct (IH _ Hrest) as (extra & Heq & Hsub). exists extra. split; [done|].
      by apply sublist_cons.
Qed.

(** Without a file field, one step appends the string rendering. *)
Lemma append_entry_no_file allFields answers fd k v :
  existsb (λ f, String.eqb (type f) "file") allFields = false →
  Submit.append_entry Number_toString allFields (answers, fd) (k, v)
  = (answers ++ [Submit.mkAnswer k (Submit.stringValue Number_toString v)], fd).
Proof.
  intros Hnone. unfold Submit.append_entry.
  destruct (find _ allFields) as [g|] eqn:Hfind; simpl.
  - apply find_some in Hfind as [Hg _].
    rewrite bool_decide_eq_false_2; [done|].
    intros [= Hty].
    assert (existsb (λ f, String.eqb (type f) "file") allFields = true) as Hyes.
    { apply existsb_exists. exists g. split; [done|]. by rewrite Hty. }
    congruence.
  - done.
Qed.

End SerializerOutput.

(** X2.  The answers follow the value map: the names of the answers
    submitted, in order, are a subsequence of the keys of [values] (no name
    is invented, repeated or reordered), and each of them passed the
    existence test. *)
Theorem answers_follow_values (Number_toString : Z → string)
    (Inherited_toString : string → string) (fields : list Schema.field)
    (selectedValues : Schema.selection) (values : JS.entries) :
  Submit.answer_names Number_toString Inherited_toString fields selectedValues values
    `sublist_of` values.*1
  ∧ Forall (λ n, Submit.fieldExists Number_toString Inherited_toString fields
                   (Schema.getAllFields fields selectedValues) selectedValues values n
                 = Some true)
      (Submit.answer_names Number_toString Inherited_toString fields selectedValues values).
Proof.
  split.
  - unfold Submit.answer_names, Submit.serialize.
    destruct (JS.forEach _ values _) as [[answers fd]|] eqn:Hrun; [|apply sublist_nil_l].
    destruct (forEach_submit_names _ _ _ _ _ _ _ _ _ Hrun) as (extra & Heq & Hsub).
    simpl in Heq. by rewrite Heq.
  - apply Forall_forall. intros n. apply answers_exist.
Qed.

(** X3.  When the expansion has no file field: the loop throws exactly when
    the existence test of an entry throws; when none does, [formData] stays
    [null] and the answers are exactly the entries of [values] that pass
    the test, each with the string rendering of its value; and whenever the
    loop returns, every entry keyed by the name of a field of the expansion
    is among the answers.  The test throws only when the option selected on
    some top-level field is a property name that the branches of the field
    inherit without owning. *)
Theorem serialize_without_files (Number_toString : Z → string)
    (Inherited_toString : string → string) (fields : list Schema.field)
    (selectedValues : Schema.selection) (values : JS.entries) :
  existsb (λ f, String.eqb (Schema.type f) "file")
    (Schema.getAllFields fields selectedValues) = false →
  (Submit.serialize Number_toString Inherited_toString fields selectedValues values = None
   ↔ ∃ e, e ∈ values
          ∧ Submit.fieldExists Number_toString Inherited_toString fields
              (Schema.getAllFields fields selectedValues) selectedValues values e.1
            = None)
  ∧ ((∀ e, e ∈ values →
           Submit.fieldExists Number_toString Inherited_toString fields
             (Schema.getAllFields fields selectedValues) selectedValues values e.1
           ≠ None) →
     Submit.serialize Number_toString Inherited_toString fields selectedValues values
     = Some ((λ e, Submit.mkAnswer e.1 (Submit.stringValue Number_toString e.2))
               <$> filter (λ e, Submit.fieldExists Number_toString Inherited_toString fields
                                  (Schema.getAllFields fields selectedValues)
                                  selectedValues values e.1 = Some true) values,
             None))
  ∧ (∀ answers formData,
       Submit.serialize Number_toString Inherited_toString fields selectedValues values
       = Some (answers, formData) →
       ∀ k v, (k, v) ∈ values →
              k ∈ Schema.name <$> Schema.getAllFields fields selectedValues →
              Submit.mkAnswer k (Submit.stringValue Number_toString v) ∈ answers)
  ∧ ∀ n,
      Submit.fieldExists Number_toString Inherited_toString fields
        (Schema.getAllFields fields selectedValues) selectedValues values n
      = None →
      ∃ parent cf,
        parent ∈ fields ∧ Schema.conditionalFields parent = Some cf
        ∧ cf !! Submit.selected_key Number_toString Inherited_toString selectedValues
                  values (Schema.name parent) = None
        ∧ JS.inherited
            (Submit.selected_key Number_toString Inherited_toString selectedValues
               values (Schema.name parent))
          = true.
Proof.
  intros Hnone.
  set (allFields := Schema.getAllFields fields selectedValues) in *.
  set (test := λ e : string * JS.value,
         Submit.fieldExists Number_toString Inherited_toString fields allFields selectedValues values e.1).
  set (rendered := λ e : string * JS.value,
         Submit.mkAnswer e.1 (Submit.stringValue Number_toString e.2)).
  assert (∀ entries answers,
            (∀ e, e ∈ entries → test e ≠ None) →
            JS.forEach
              (Submit.submit_entry Number_toString Inherited_toString fields allFields selectedValues values)
              entries (answers, None)
            = Some (answers ++ (rendered <$> filter (λ e, test e = Some true) entries),
                    None)) as Hfold.
  { induction entries as [|[k v] entries IH]; intros answers Hall; cbn [JS.forEach].
    - by rewrite filter_nil, app_nil_r.
    - pose proof (Hall (k, v) ltac:(apply elem_of_cons; by left)) as Hk.
      assert (∀ e, e ∈ entries → test e ≠ None) as Hrest
        by (intros e He; apply Hall, elem_of_cons; by right).
      rewrite filter_cons. unfold Submit.submit_entry at 1.
      change (Submit.fieldExists Number_toString Inherited_toString fields allFields selectedValues values
                (k, v).1) with (test (k, v)).
      destruct (decide (test (k, v) = Some true)) as [Hyes|Hnot].
      + rewrite Hyes, append_entry_no_file by done. rewrite IH by done.
        by rewrite fmap_cons, <-app_assoc.
      + destruct (test (k, v)) as [[]|]; [done| |done]. by apply IH. }
  assert (∀ st, Submit.serialize Number_toString Inherited_toString fields selectedValues values = st →
                JS.forEach
                  (Submit.submit_entry Number_toString Inherited_toString fields allFields selectedValues
                     values) values ([], None) = st) as Hrun.
  { unfold Submit.serialize. fold allFields. by rewrite Hnone. }
  split; [|split; [|split]]; [| | |apply fieldExists_None_inv].
  - unfold Submit.serialize. fold allFields. apply forEach_submit_None.
  - intros Hall. unfold Submit.serialize. fold allFields. rewrite Hnone.
    by rewrite Hfold.
  - intros answers formData Hret k v Hin Hk.
    assert (∀ e, e ∈ values → test e ≠ None) as Hall.
    { intros e He Hthrow.
      assert (Submit.serialize Number_toString Inherited_toString fields selectedValues values = None)
        as Hno by (unfold Submit.serialize; fold allFields;
                   apply forEach_submit_None; by exists e).
      congruence. }
    apply Hrun in Hret. rewrite Hfold in Hret by done. injection Hret as <- _.
    apply (list_elem_of_fmap_2 rendered _ (k, v)).
    apply list_elem_of_filter. split; [|done]. simpl.
    pose proof (Hall (k, v) Hin) as Hthrow.
    pose proof (effective_name_exists Number_toString Inherited_toString fields allFields selectedValues
                  values k Hk) as Hyes.
    unfold test in *. simpl in *.
    by destruct (Submit.fieldExists _ _ _ _ _ _ k) as [[]|].
Qed.

Lemma serialize_without_files_witness :
  Submit.serialize pretty Examples.native_function [Examples.contact_method] {[ "contact_method" := "Email" ]}
    [("contact_method", JS.VStr "Email");
     ("contact_method_email_address", JS.VStr "ada@example.org");
     ("left_over", JS.VBool true)]
  = Some ([Submit.mkAnswer "contact_method" "Email";
           Submit.mkAnswer "contact_method_email_address" "ada@example.org"], None).
Proof.
  destruct (serialize_without_files pretty Examples.native_function [Examples.contact_method]
              {[ "contact_method" := "Email" ]}
              [("contact_method", JS.VStr "Email");
               ("contact_method_email_address", JS.VStr "ada@example.org");
               ("left_over", JS.VBool true)] ltac:(by vm_compute))
    as (_ & Hreturns & _ & _).
  rewrite Hreturns.
  - by vm_compute.
  - intros e He. repeat (apply elem_of_cons in He as [->|He]; [by vm_compute|]).
    by apply elem_of_nil in He.
Defined.

Section FormDataFacts.
Import Schema.
Context (Number_toString : Z → string) (Inherited_toString : string → string).
Implicit Types (fields allFields : list field) (sel : selection) (values : JS.entries).

Lemma append_entry_announced allFields seen st entry :
  Invariants.payloads_announced seen st →
  Invariants.payloads_announced (seen ++ [entry])
    (Submit.append_entry Number_toString allFields st entry)
  ∧ (is_Some (Submit.append_entry Number_toString allFields st entry).2 ↔ is_Some st.2).
Proof.
  intros Hinv. destruct st as [answers fd], entry as [k v].
  assert (Invariants.payloads_announced (seen ++ [(k, v)]) (answers, fd)) as Hsame.
  { intros fd' n w Hfd Hin. destruct (Hinv fd' n w Hfd Hin) as (fname & -> & Hseen & Hans).
    exists fname. repeat split; [|done]. apply elem_of_app. by left. }
  assert (∀ a, Invariants.payloads_announced (seen ++ [(k, v)]) (answers ++ [a], fd)) as Hgrow.
  { intros a fd' n w Hfd Hin. destruct (Hsame fd' n w Hfd Hin) as (fname & -> & Hseen & Hans).
    exists fname. repeat split; [done|]. apply elem_of_app. by left. }
  unfold Submit.append_entry.
  repeat case_match; simplify_eq/=; try (split; [done|tauto]); try (split; [apply Hgrow|tauto]).
  split.
  - intros fd' n w Hfd Hin. destruct fd as [fd|]; simplify_eq/=.
    apply elem_of_app in Hin as [Hin|Hin%list_elem_of_singleton].
    + destruct (Hsame fd n w eq_refl Hin) as (fname' & -> & Hseen & Hans).
      exists fname'. repeat split; [done|]. apply elem_of_app. by left.
    + simplify_eq. eexists. repeat split.
      * apply elem_of_app. right. by left.
      * apply elem_of_app. right. by left.
  - destruct fd; simpl; split; intros [? ?]; by eexists.
Qed.

Lemma forEach_submit_announced fields allFields sel values entries seen st st' :
  Invariants.payloads_announced seen st →
  JS.forEach (Submit.submit_entry Number_toString Inherited_toString fields allFields sel values) entries st
  = Some st' →
  Invariants.payloads_announced (seen ++ entries) st' ∧ (is_Some st'.2 ↔ is_Some st.2).
Proof.
  intros Hinv Hrun.
  apply (forEach_invariant
           (Submit.submit_entry Number_toString Inherited_toString fields allFields sel values)
           (λ seen' s, Invariants.payloads_announced seen' s ∧ (is_Some s.2 ↔ is_Some st.2))
           entries) with (seen := seen) (st := st); [|done|done].
  intros seen' s x s' [Hs Hsome]. unfold Submit.submit_entry.
  destruct (Submit.fieldExists _ _ _ _ _ _ _) as [[]|]; intros [= <-].
  - destruct (append_entry_announced allFields seen' s x Hs) as [Hstep Hsome'].
    split; [done|]. by rewrite Hsome'.
  - split; [|done]. intros fd n v Hfd Hin.
    destruct (Hs fd n v Hfd Hin) as (fname & -> & Hseen & Hans).
    exists fname. repeat split; [|done]. apply elem_of_app. by left.
Qed.

End FormDataFacts.

(** X4.  When the loop returns, [formData] is allocated exactly when the
    expansion has a file field; every payload appended to it is a [File]
    held by [values] under that name, and the answers hold a record with
    that name and the name of the file.  The loop fails to return only when
    the existence test of an entry throws. *)
Theorem form_data_payloads (Number_toString : Z → string)
    (Inherited_toString : string → string) (fields : list Schema.field)
    (selectedValues : Schema.selection) (values : JS.entries) :
  match Submit.serialize Number_toString Inherited_toString fields selectedValues values with
  | Some (answers, formData) =>
      (is_Some formData
       ↔ existsb (λ f, String.eqb (Schema.type f) "file")
           (Schema.getAllFields fields selectedValues) = true)
      ∧ ∀ fd n v,
          formData = Some fd → (n, v) ∈ fd →
          ∃ fname, v = JS.VFile fname ∧ (n, v) ∈ values
                   ∧ Submit.mkAnswer n fname ∈ answers
  | None =>
      ∃ e, e ∈ values
           ∧ Submit.fieldExists Number_toString Inherited_toString fields
               (Schema.getAllFields fields selectedValues) selectedValues values e.1
             = None
  end.
Proof.
  unfold Submit.serialize.
  set (allFields := Schema.getAllFields fields selectedValues).
  set (init := ([], if existsb _ allFields then Some [] else None)
         : list Submit.answer * Submit.form_data).
  destruct (JS.forEach _ values init) as [[answers formData]|] eqn:Hrun;
    [|by apply forEach_submit_None in Hrun].
  destruct (forEach_submit_announced Number_toString Inherited_toString fields allFields selectedValues
              values values [] init (answers, formData))
    as [Hinv Hsome]; [|done|].
  { intros fd n v Hfd Hin. unfold init in Hfd. simpl in Hfd.
    destruct (existsb _ allFields); simplify_eq. by apply elem_of_nil in Hin. }
  split.
  - simpl in Hsome. rewrite Hsome. unfold init. simpl.
    destruct (existsb _ allFields); split; try done; intros [? ?]; done.
  - intros fd n v Hfd Hin. by apply (Hinv fd n v).
Qed.

(** X29.  Let the top-level names be distinct, and let none of them,
    followed by the separator, start another one followed by the separator.
    If the selection state maps a field to the option [B], and [B] is a
    branch of the field or no property name that every object inherits, a
    qualified name of that field whose local part is not declared under [B]
    (so any name that only another branch declares) is the name of no field
    of the expansion; its existence test returns and says no, and no answer
    record is submitted for it, whatever the value map holds. *)
Theorem stale_branch_dropped (Number_toString : Z → string)
    (Inherited_toString : string → string) (fields : list Schema.field)
    (selectedValues : Schema.selection) (values : JS.entries)
    (parent : Schema.field) (cf : gmap string (list Schema.field))
    (B x : string) :
  parent ∈ fields →
  NoDup (Schema.name <$> fields) →
  Schema.separator_prefix_free fields →
  Schema.conditionalFields parent = Some cf →
  selectedValues !! Schema.name parent = Some B → B ≠ "" →
  (cf !! B = None → JS.inherited B = false) →
  x ∉ Schema.name <$> default [] (cf !! B) →
  (Schema.qualify (Schema.name parent) x
     ∉ Schema.name <$> Schema.getAllFields fields selectedValues)
  ∧ Submit.fieldExists Number_toString Inherited_toString fields
      (Schema.getAllFields fields selectedValues) selectedValues values
      (Schema.qualify (Schema.name parent) x)
    = Some false
  ∧ (Schema.qualify (Schema.name parent) x
     ∉ Submit.answer_names Number_toString Inherited_toString fields selectedValues values).
Proof.
  intros Hin Hnd Hfree Hcf HB Hne Hown Hx.
  pose proof (unselected_not_existing Number_toString Inherited_toString fields selectedValues values
                parent cf B x Hin Hnd Hfree Hcf HB Hne Hown Hx) as Hno.
  split; [by eapply unselected_not_expanded|]. split; [done|].
  intros Hans%answers_exist. congruence.
Qed.

Lemma stale_branch_dropped_witness :
  let values := [("a_b", JS.VStr "B"); ("a_b_x", JS.VStr "typed earlier");
                 ("a_b_y", JS.VStr "typed now")] in
  ("a_b_x" ∉ Schema.name <$> Schema.getAllFields [Examples.field_a_b] {[ "a_b" := "B" ]})
  ∧ Submit.fieldExists pretty Examples.native_function [Examples.field_a_b]
      (Schema.getAllFields [Examples.field_a_b] {[ "a_b" := "B" ]})
      {[ "a_b" := "B" ]} values "a_b_x"
    = Some false
  ∧ ("a_b_x" ∉ Submit.answer_names pretty Examples.native_function [Examples.field_a_b] {[ "a_b" := "B" ]} values).
Proof.
  intros values.
  refine (stale_branch_dropped pretty Examples.native_function [Examples.field_a_b] {[ "a_b" := "B" ]} values
            Examples.field_a_b
            {[ "A" := [Examples.plain "x" "X" "text" false];
               "B" := [Examples.plain "y" "Y" "text" false] ]}
            "B" "x" _ _ _ _ _ _ _ _).
  - left.
  - vm_compute. apply NoDup_singleton.
  - intros f g ->%list_elem_of_singleton ->%list_elem_of_singleton _. reflexivity.
  - reflexivity.
  - reflexivity.
  - discriminate.
  - reflexivity.
  - vm_compute. intros [H|H]%elem_of_cons; [discriminate|by apply elem_of_nil in H].
Defined.

(** ** Keys of the rule set and of the initial values *)

Section KeyFacts.
Import Schema.
Context {V : Type} (val : field → V).

Lemma dom_fold_insert (l : list field) (acc : gmap string V) :
  dom (fold_left (λ m g, <[name g := val g]> m) l acc)
  = list_to_set (name <$> l) ∪ dom acc.
Proof.
  revert acc; induction l as [|g l IH]; intros acc; simpl.
  - set_solver.
  - rewrite IH, dom_insert_L. set_solver.
Qed.

End KeyFacts.

(** X5.  Synthesis and [getInitialValues] produce maps with the same keys:
    the names of the fields of the expansion, and nothing else.  Every field
    with a rule has an initial value and conversely. *)
Theorem rules_and_initial_values_keys (regex_ok : string → bool)
    (fields : list Schema.field) (selectedValues : Schema.selection) :
  ∃ rules log,
    Eff.run (Synth.generateValidationSchema regex_ok fields selectedValues)
    = (inr rules, log)
    ∧ dom rules = dom (Schema.getInitialValues fields selectedValues)
    ∧ ∀ n, n ∈ dom rules ↔ n ∈ Schema.name <$> Schema.getAllFields fields selectedValues.
Proof.
  eexists _, _. split; [apply generateValidationSchema_run|].
  unfold Schema.getInitialValues. rewrite !dom_fold_insert. split; [done|].
  intros n. set_solver.
Qed.

(** ** The reorder editor *)

Section ReorderFacts.
Import Identity.
Implicit Types (f g : item) (fields : list item).

Lemma splice_in_length {A} (at_ : nat) (x : A) (l : list A) :
  length (splice_in at_ x l) = S (length l).
Proof.
  unfold splice_in. rewrite length_app, length_take. simpl. rewrite length_drop. lia.
Qed.

Lemma splice_in_perm {A} (at_ : nat) (x : A) (l : list A) :
  splice_in at_ x l ≡ₚ x :: l.
Proof.
  unfold splice_in. rewrite <-Permutation_middle. by rewrite take_drop.
Qed.

Lemma move_length {A} (source destination : nat) (l : list A) :
  length (move source destination l) = length l.
Proof.
  unfold move. destruct (l !! source) as [x|] eqn:Hx; [|done].
  rewrite splice_in_length, length_delete by (by eexists).
  apply lookup_lt_Some in Hx. lia.
Qed.

Lemma move_perm {A} (source destination : nat) (l : list A) :
  move source destination l ≡ₚ l.
Proof.
  unfold move. destruct (l !! source) as [x|] eqn:Hx; [|done].
  rewrite splice_in_perm. symmetry. by apply delete_Permutation.
Qed.

(** Taking an element out and putting it back where it was. *)
Lemma splice_in_delete {A} (i : nat) (x : A) (l : list A) :
  l !! i = Some x → splice_in i x (delete i l) = l.
Proof.
  intros Hx. unfold splice_in.
  pose proof (take_drop_middle l i x Hx) as Hl.
  assert (length (take i l) = i) as Hlen.
  { apply length_take_le. apply lookup_lt_Some in Hx. lia. }
  revert Hl Hlen. generalize (take i l) (drop (S i) l). intros l1 l2 <- <-.
  by rewrite delete_middle, take_app_length, drop_app_length.
Qed.

Lemma delete_splice_in {A} (at_ : nat) (x : A) (l : list A) :
  (at_ ≤ length l)%nat → delete at_ (splice_in at_ x l) = l.
Proof.
  intros Hle. unfold splice_in.
  assert (length (take at_ l) = at_) as Hlen by by apply length_take_le.
  rewrite <-Hlen at 1. by rewrite delete_middle, take_drop.
Qed.

(** Moving an element and moving it back. *)
Lemma move_back {A} (source destination : nat) (l : list A) :
  source < length l → destination < length l →
  move destination source (move source destination l) = l.
Proof.
  intros Hs Hd. destruct (lookup_lt_is_Some_2 l source Hs) as [x Hx].
  pose proof (move_lookup_destination source destination l x Hx) as Hdest.
  rewrite Nat.min_l in Hdest by lia.
  unfold move at 1. rewrite Hdest. unfold move. rewrite Hx.
  rewrite delete_splice_in.
  - by apply splice_in_delete.
  - rewrite length_delete by (by eexists). lia.
Qed.

Lemma handleDragEnd_updated fields source destination f :
  fields !! source = Some f → source ≠ destination →
  handleDragEnd (stable_ids fields) source (Some destination)
  = Updated (imap Invariants.renumbered (move source destination (stable_ids fields))).
Proof.
  intros Hsrc Hne%Nat.eqb_neq. unfold handleDragEnd, move. rewrite Hne. cbn zeta.
  assert (stable_ids fields !! source
          = Some (mkItem (Some (generateStableId f source)) (_id f) (order f) (def f)))
    as -> by (unfold stable_ids; by rewrite list_lookup_imap, Hsrc).
  done.
Qed.

Lemma renumbered_defs (l : list item) : def <$> imap Invariants.renumbered l = def <$> l.
Proof. rewrite fmap_imap. by rewrite <-(imap_const def). Qed.

Lemma renumbered_order (l : list item) : order <$> imap Invariants.renumbered l = seq 0 (length l).
Proof.
  rewrite fmap_imap. rewrite <-(list_fmap_id (seq 0 (length l))).
  by rewrite <-(imap_seq_0 l id).
Qed.

Lemma fieldsWithStableIds_defs fields : def <$> stable_ids fields = def <$> fields.
Proof. unfold stable_ids. rewrite fmap_imap. by rewrite <-(imap_const def). Qed.

Lemma fieldsWithStableIds_length fields :
  length (stable_ids fields) = length fields.
Proof. apply length_imap. Qed.

(** Renumbering items that carry a token keeps their identities. *)
Lemma renumbered_identities (l : list item) :
  (∀ g, g ∈ l → ∃ token, _dragId g = Some token ∧ token ≠ "") →
  identities (imap Invariants.renumbered l) = (λ g, default "" (_dragId g)) <$> l.
Proof.
  intros Hcarried. unfold identities. rewrite imap_compose.
  rewrite <-(imap_const (λ g, default "" (_dragId g))).
  apply imap_ext. intros i g Hg.
  destruct (Hcarried g) as (token & Htoken & Hne); [by eapply list_elem_of_lookup_2|].
  unfold const. rewrite Htoken. simpl.
  apply generateStableId_token; [|done].
  unfold Invariants.renumbered, keep_or_generate. simpl. by rewrite Htoken, truthy_string_some.
Qed.

End ReorderFacts.

Section EditorFacts.
Import Identity.
Implicit Types (f g : item) (fields : list item).

Lemma generateStableId_carried (token : string) (id : option string) (k : nat)
    (d : Schema.field) (index : nat) :
  token ≠ "" → generateStableId (mkItem (Some token) id k d) index = token.
Proof. intros Hne. by apply generateStableId_token. Qed.

(** Once the callback of [useMemo] has run, identities no longer depend on the
    position. *)
Lemma identities_fieldsWithStableIds fields :
  identities (stable_ids fields) = identities fields.
Proof.
  unfold identities, stable_ids. rewrite imap_compose.
  apply imap_ext. intros i f _. apply generateStableId_carried, generateStableId_nonempty.
Qed.

Lemma carried_after_move fields source destination g :
  g ∈ move source destination (stable_ids fields) →
  ∃ token, _dragId g = Some token ∧ token ≠ "".
Proof. intros Hg%elem_of_move. by eapply fieldsWithStableIds_carried. Qed.

(** What a reorder does to the definitions, the identities, the length and
    the [order] numbers. *)
Lemma handleDragEnd_moves fields source destination f :
  fields !! source = Some f → source ≠ destination →
  ∃ updatedFields,
    handleDragEnd (stable_ids fields) source (Some destination) = Updated updatedFields
    ∧ def <$> updatedFields = move source destination (def <$> fields)
    ∧ identities updatedFields = move source destination (identities fields)
    ∧ length updatedFields = length fields
    ∧ order <$> updatedFields = seq 0 (length fields).
Proof.
  intros Hsrc Hne. eexists. split; [by eapply handleDragEnd_updated|].
  split; [|split; [|split]].
  - by rewrite renumbered_defs, move_fmap, fieldsWithStableIds_defs.
  - rewrite renumbered_identities by (intros g Hg; by eapply carried_after_move).
    by rewrite move_fmap, fieldsWithStableIds_token.
  - by rewrite length_imap, move_length, fieldsWithStableIds_length.
  - by rewrite renumbered_order, move_length, fieldsWithStableIds_length.
Qed.

End EditorFacts.

(** X6.  A reorder keeps the fields of the list it moves: [handleDragEnd]
    hands [onFieldsChange] a list of the same length that holds, in another
    order, the definitions of the fields the memoized list was computed from
    (the current [fields] at the first render and whenever the key of the
    memo changed, older ones otherwise), and numbers [order] 0, 1, 2, ... by
    position. *)
Theorem reorder_keeps_fields (last : option (list Identity.item))
    (fields : list Identity.item) (source destination : nat) (f : Identity.item) :
  Identity.memoized last fields !! source = Some f →
  source ≠ destination →
  ∃ updatedFields,
    Identity.handleDragEnd (Identity.fieldsWithStableIds last fields) source
      (Some destination)
    = Identity.Updated updatedFields
    ∧ length updatedFields = length (Identity.memoized last fields)
    ∧ Identity.def <$> updatedFields ≡ₚ Identity.def <$> Identity.memoized last fields
    ∧ Identity.order <$> updatedFields = seq 0 (length (Identity.memoized last fields)).
Proof.
  intros Hsrc Hne. unfold Identity.fieldsWithStableIds.
  destruct (handleDragEnd_moves _ source destination f Hsrc Hne)
    as (updated & Hrun & Hdef & _ & Hlen & Hord).
  exists updated. repeat split; [done..| |done].
  rewrite Hdef. apply move_perm.
Qed.

Lemma reorder_keeps_fields_witness :
  let field n := Identity.mkItem None None 7 (Examples.plain n n "text" false) in
  ∃ updatedFields,
    Identity.handleDragEnd
      (Identity.fieldsWithStableIds None [field "a"; field "b"; field "c"]) 0 (Some 2)
    = Identity.Updated updatedFields
    ∧ length updatedFields = 3
    ∧ Identity.def <$> updatedFields
      ≡ₚ Identity.def <$> [field "a"; field "b"; field "c"]
    ∧ Identity.order <$> updatedFields = [0; 1; 2].
Proof.
  intros field.
  apply (reorder_keeps_fields None [field "a"; field "b"; field "c"] 0 2 (field "a"));
    [reflexivity|lia].
Defined.

(** X8.  Dragging a field and dragging it back restores the list, provided
    the first drag changed the key of the memo: the second [handleDragEnd]
    then works on the list computed from the result of the first, and the
    definitions and the identities end up in the order they had.  When the
    key stays the same the component still holds the list from before the
    first drag. *)
Theorem reorder_undo (last : option (list Identity.item))
    (fields : list Identity.item) (source destination : nat) :
  source < length (Identity.memoized last fields) →
  destination < length (Identity.memoized last fields) →
  source ≠ destination →
  ∃ there,
    Identity.handleDragEnd (Identity.fieldsWithStableIds last fields) source
      (Some destination)
    = Identity.Updated there
    ∧ (Identity.memo_key there ≠ Identity.memo_key (Identity.memoized last fields) →
       ∃ back,
         Identity.handleDragEnd
           (Identity.fieldsWithStableIds (Some (Identity.memoized last fields)) there)
           destination (Some source)
         = Identity.Updated back
         ∧ Identity.def <$> back = Identity.def <$> Identity.memoized last fields
         ∧ Identity.identities back
           = Identity.identities (Identity.memoized last fields))
    ∧ (Identity.memo_key there = Identity.memo_key (Identity.memoized last fields) →
       Identity.fieldsWithStableIds (Some (Identity.memoized last fields)) there
       = Identity.fieldsWithStableIds last fields).
Proof.
  intros Hs Hd Hne. set (held := Identity.memoized last fields) in *.
  destruct (lookup_lt_is_Some_2 held source Hs) as [f Hf].
  destruct (handleDragEnd_moves held source destination f Hf Hne)
    as (there & Hrun1 & Hdef1 & Hid1 & Hlen1 & _).
  exists there. split; [done|]. split.
  - intros Hkey%String.eqb_neq. rewrite String.eqb_sym in Hkey.
    unfold Identity.fieldsWithStableIds, Identity.memoized. rewrite Hkey.
    destruct (lookup_lt_is_Some_2 there destination) as [g Hg]; [lia|].
    destruct (handleDragEnd_moves there destination source g Hg)
      as (back & Hrun2 & Hdef2 & Hid2 & _); [done|].
    exists back. repeat split; [done| |].
    + rewrite Hdef2, Hdef1. apply move_back; by rewrite length_fmap.
    + rewrite Hid2, Hid1. apply move_back; unfold Identity.identities; by rewrite length_imap.
  - intros Hkey. unfold Identity.fieldsWithStableIds at 1. unfold Identity.memoized at 1.
    fold held. by rewrite Hkey, String.eqb_refl.
Qed.

Lemma reorder_undo_witness :
  let field n := Identity.mkItem None None 0 (Examples.plain n n "text" false) in
  let fields := [field "a"; field "b"; field "c"] in
  ∃ there back,
    Identity.handleDragEnd (Identity.fieldsWithStableIds None fields) 0 (Some 2)
    = Identity.Updated there
    ∧ Identity.handleDragEnd (Identity.fieldsWithStableIds (Some fields) there) 2 (Some 0)
      = Identity.Updated back
    ∧ Identity.def <$> back = Identity.def <$> fields
    ∧ Identity.identities back = ["field-a"; "field-b"; "field-c"].
Proof.
  intros field fields.
  destruct (reorder_undo None fields 0 2) as (there & Hrun & Hback & _);
    [simpl; lia..|].
  assert (Identity.memo_key there ≠ Identity.memo_key (Identity.memoized None fields))
    as Hkey.
  { vm_compute in Hrun. injection Hrun as <-. by vm_compute. }
  destruct (Hback Hkey) as (back & Hrun2 & Hdef & Hids).
  by exists there, back.
Defined.

Section UpdateFacts.
Import Identity.
Implicit Types (f g : item) (fields : list item).

Lemma identities_lookup fields (k : nat) :
  identities fields !! k = (λ f, generateStableId f k) <$> fields !! k.
Proof. unfold identities. apply list_lookup_imap. Qed.

Lemma handleFieldUpdate_identities fields index (updatedField f : item) :
  fields !! index = Some f →
  ∃ updatedFields,
    FieldList.handleFieldUpdate (stable_ids fields) index updatedField
    = FieldList.Changed updatedFields
    ∧ identities updatedFields = identities fields
    ∧ def <$> updatedFields = <[index := def updatedField]> (def <$> fields).
Proof.
  intros Hf. unfold FieldList.handleFieldUpdate. cbn zeta.
  assert (stable_ids fields !! index
          = Some (mkItem (Some (generateStableId f index)) (_id f) (order f) (def f)))
    as Hitem by (unfold stable_ids; by rewrite list_lookup_imap, Hf).
  rewrite Hitem. cbn [_dragId].
  rewrite truthy_string_some by apply generateStableId_nonempty.
  eexists. split; [done|]. split.
  - apply list_eq. intros k. rewrite !identities_lookup.
    destruct (decide (k = index)) as [->|Hk].
    + rewrite list_lookup_insert_eq by (apply lookup_lt_Some in Hitem; done).
      rewrite Hf. simpl. f_equal.
      apply generateStableId_carried, generateStableId_nonempty.
    + rewrite list_lookup_insert_ne by done.
      rewrite <-!identities_lookup. by rewrite identities_fieldsWithStableIds.
  - by rewrite list_fmap_insert, fieldsWithStableIds_defs.
Qed.

Lemma keeping_identities (l : list item) :
  (∀ g, g ∈ l → ∃ token, _dragId g = Some token ∧ token ≠ "") →
  identities (imap (λ index f, mkItem (_dragId f) (_id f) index (def f)) l)
  = (λ g, default "" (_dragId g)) <$> l.
Proof.
  intros Hcarried. unfold identities. rewrite imap_compose.
  rewrite <-(imap_const (λ g, default "" (_dragId g))).
  apply imap_ext. intros i g Hg.
  destruct (Hcarried g) as (token & Htoken & Hne); [by eapply list_elem_of_lookup_2|].
  unfold const. rewrite Htoken. simpl. by apply generateStableId_carried.
Qed.

End UpdateFacts.

(** X9.  An edit in place never changes an identity: after
    [handleFieldUpdate] the identities of all fields of the list the
    component holds, the edited one included, are the ones they had, whatever
    the edit did to the name.  The definition at [index] is the edited one;
    the others are those of the fields the memoized list was computed from. *)
Theorem update_keeps_identities (last : option (list Identity.item))
    (fields : list Identity.item) (index : nat) (updatedField f : Identity.item) :
  Identity.memoized last fields !! index = Some f →
  ∃ updatedFields,
    FieldList.handleFieldUpdate (Identity.fieldsWithStableIds last fields) index
      updatedField
    = FieldList.Changed updatedFields
    ∧ Identity.identities updatedFields
      = Identity.identities (Identity.memoized last fields)
    ∧ Identity.def <$> updatedFields
      = <[index := Identity.def updatedField]>
          (Identity.def <$> Identity.memoized last fields).
Proof. apply handleFieldUpdate_identities. Qed.

Lemma update_keeps_identities_witness :
  let stored := Identity.mkItem None None 0 (Examples.plain "name" "Name" "text" false) in
  let edited := Identity.mkItem None None 0 (Examples.plain "full_name" "Full name" "text" true) in
  ∃ updatedFields,
    FieldList.handleFieldUpdate (Identity.fieldsWithStableIds None [stored]) 0 edited
    = FieldList.Changed updatedFields
    ∧ Identity.identities updatedFields = ["field-name"]
    ∧ Identity.def <$> updatedFields = [Examples.plain "full_name" "Full name" "text" true].
Proof.
  intros stored edited.
  apply (update_keeps_identities None [stored] 0 edited stored). reflexivity.
Defined.

(** X10.  [handleFieldDelete] does nothing when the user declines.  When the
    user confirms it removes the field at [index] and no other (none at all
    when [index] is outside the list) from the list the component holds,
    keeps the identity of every remaining field and the definition it has
    in the fields the memoized list was computed from, in order, and
    renumbers [order] by position. *)
Theorem delete_removes_one (last : option (list Identity.item))
    (fields : list Identity.item) (index : nat) :
  FieldList.handleFieldDelete (Identity.fieldsWithStableIds last fields) false index
  = FieldList.Unchanged
  ∧ ∃ updatedFields,
      FieldList.handleFieldDelete (Identity.fieldsWithStableIds last fields) true index
      = FieldList.Changed updatedFields
      ∧ Identity.def <$> updatedFields
        = delete index (Identity.def <$> Identity.memoized last fields)
      ∧ Identity.identities updatedFields
        = delete index (Identity.identities (Identity.memoized last fields))
      ∧ Identity.order <$> updatedFields = seq 0 (length updatedFields).
Proof.
  unfold Identity.fieldsWithStableIds. set (held := Identity.memoized last fields).
  split; [done|]. eexists. split; [done|]. split; [|split].
  - transitivity (Identity.def <$> delete index (Identity.stable_ids held)).
    + rewrite fmap_imap. by rewrite <-(imap_const Identity.def).
    + by rewrite list_fmap_delete, fieldsWithStableIds_defs.
  - rewrite keeping_identities.
    + by rewrite list_fmap_delete, fieldsWithStableIds_token.
    + intros g Hg%list_elem_of_delete_inv. by eapply fieldsWithStableIds_carried.
  - rewrite length_imap, fmap_imap.
    rewrite <-(list_fmap_id (seq 0 _)).
    by rewrite <-(imap_seq_0 (delete index (Identity.stable_ids held)) id).
Qed.

(** X11.  [handleAddField] appends one blank text field whose identity is
    the new id built from the time stamp and the random suffix to the list
    the component holds, and keeps the identity of every field that was
    there, with the definition it has in the fields the memoized list was
    computed from. *)
Theorem add_appends_one (last : option (list Identity.item))
    (fields : list Identity.item) (timestamp : N) (random : string) :
  ∃ updatedFields,
    FieldList.handleAddField (Identity.fieldsWithStableIds last fields) timestamp random
    = FieldList.Changed updatedFields
    ∧ Identity.def <$> updatedFields
      = (Identity.def <$> Identity.memoized last fields) ++ [FieldList.blank_field]
    ∧ Identity.identities updatedFields
      = Identity.identities (Identity.memoized last fields)
        ++ ["field_" +:+ pretty timestamp +:+ "_" +:+ random].
Proof.
  unfold Identity.fieldsWithStableIds. set (held := Identity.memoized last fields).
  eexists. split; [done|]. split.
  - by rewrite fmap_app, fieldsWithStableIds_defs.
  - unfold Identity.identities at 1. rewrite imap_app.
    fold (Identity.identities (Identity.stable_ids held)).
    rewrite identities_fieldsWithStableIds. f_equal.
Qed.

Section MemoFacts.
Import Identity.
Implicit Types (f g : item) (fields : list item).

(** Giving an identified field its identity as token keeps its key part. *)
Lemma key_part_stable (i : nat) (g : item) :
  identified g →
  key_part i (mkItem (Some (generateStableId g i)) (_id g) (order g) (def g))
  = key_part i g.
Proof.
  intros Hid. unfold key_part, name. cbn [_id _dragId def]. f_equal.
  destruct (JS.truthy_string (_id g)) as [id|] eqn:Hg; [done|].
  rewrite truthy_string_some by apply generateStableId_nonempty.
  destruct Hid as [[? ?]|[token Htoken]]; [congruence|].
  unfold generateStableId. by rewrite Htoken.
Qed.

(** An edit that keeps the name, made by an editor that holds no storage
    id, keeps the key part. *)
Lemma key_part_edited (i : nat) (f updatedField : item) :
  identified f → name updatedField = name f →
  JS.truthy_string (_id updatedField) = None →
  key_part i
    (mkItem (Some (generateStableId f i))
       (FieldList.keep_or_take_id
          (mkItem (Some (generateStableId f i)) (_id f) (order f) (def f)) updatedField)
       i (def updatedField))
  = key_part i f.
Proof.
  intros Hid Hname Hnone. unfold key_part, FieldList.keep_or_take_id.
  cbn [_id _dragId]. unfold name in *. cbn [def]. rewrite Hname. f_equal.
  destruct (JS.truthy_string (_id f)) as [id|] eqn:Hf.
  - apply truthy_string_inv in Hf as [_ Hne]. by rewrite truthy_string_some.
  - rewrite Hnone. rewrite truthy_string_some by apply generateStableId_nonempty.
    destruct Hid as [[? ?]|[token Htoken]]; [congruence|].
    unfold generateStableId. by rewrite Htoken.
Qed.

Lemma memo_key_edited fields index (f updatedField : item) updatedFields :
  Forall identified fields → fields !! index = Some f →
  name updatedField = name f → JS.truthy_string (_id updatedField) = None →
  FieldList.handleFieldUpdate (stable_ids fields) index updatedField
  = FieldList.Changed updatedFields →
  memo_key updatedFields = memo_key fields.
Proof.
  intros Hall Hf Hname Hnone. unfold FieldList.handleFieldUpdate. cbn zeta.
  assert (stable_ids fields !! index
          = Some (mkItem (Some (generateStableId f index)) (_id f) (order f) (def f)))
    as Hitem by (unfold stable_ids; by rewrite list_lookup_imap, Hf).
  rewrite Hitem. cbn [_dragId].
  rewrite truthy_string_some by apply generateStableId_nonempty.
  intros [= <-]. unfold memo_key. f_equal. apply list_eq. intros k.
  rewrite !list_lookup_imap.
  rewrite Forall_forall in Hall.
  destruct (decide (k = index)) as [->|Hk].
  - rewrite list_lookup_insert_eq by (by apply lookup_lt_Some in Hitem).
    rewrite Hf. simpl. f_equal. apply key_part_edited; [|done..].
    by eapply Hall, list_elem_of_lookup_2.
  - rewrite list_lookup_insert_ne by done. unfold stable_ids.
    rewrite list_lookup_imap. destruct (fields !! k) as [g|] eqn:Hg; [|done].
    simpl. f_equal. apply key_part_stable. by eapply Hall, list_elem_of_lookup_2.
Qed.

End MemoFacts.

(** X30.  An edit that changes neither the id nor the name of a field does
    not renew the memoized list.  When every field the list was computed
    from has a storage id or a drag token, and the edited record keeps the
    name and brings no storage id of its own, the key of the memo is the
    same after [handleFieldUpdate]; the list the handlers read at the next
    render is the one from before the edit, with the old definition at
    [index], and it is this list that the next handler hands on. *)
Theorem edit_leaves_memo (last : option (list Identity.item))
    (fields updatedFields : list Identity.item) (index : nat)
    (updatedField f : Identity.item) :
  Forall Identity.identified (Identity.memoized last fields) →
  Identity.memoized last fields !! index = Some f →
  Identity.name updatedField = Identity.name f →
  JS.truthy_string (Identity._id updatedField) = None →
  FieldList.handleFieldUpdate (Identity.fieldsWithStableIds last fields) index
    updatedField
  = FieldList.Changed updatedFields →
  Identity.memoized (Some (Identity.memoized last fields)) updatedFields
  = Identity.memoized last fields
  ∧ Identity.fieldsWithStableIds (Some (Identity.memoized last fields)) updatedFields
    = Identity.fieldsWithStableIds last fields
  ∧ Identity.def
      <$> Identity.fieldsWithStableIds (Some (Identity.memoized last fields))
            updatedFields !! index
    = Some (Identity.def f).
Proof.
  intros Hall Hf Hname Hnone Hrun. unfold Identity.fieldsWithStableIds in *.
  set (held := Identity.memoized last fields) in *.
  assert (Identity.memoized (Some held) updatedFields = held) as Hsame.
  { unfold Identity.memoized at 1.
    by rewrite (memo_key_edited held index f updatedField updatedFields),
      String.eqb_refl. }
  split; [done|]. rewrite Hsame. split; [done|].
  unfold Identity.stable_ids. by rewrite list_lookup_imap, Hf.
Qed.

Lemma edit_leaves_memo_witness :
  let stored :=
    Identity.mkItem (Some "name") (Some "66f0a1") 0
      (Examples.plain "name" "Name" "text" false) in
  let edited :=
    Identity.mkItem None None 0 (Examples.plain "name" "Name" "text" true) in
  ∃ updatedFields,
    FieldList.handleFieldUpdate (Identity.fieldsWithStableIds None [stored]) 0 edited
    = FieldList.Changed updatedFields
    ∧ Identity.def <$> updatedFields = [Examples.plain "name" "Name" "text" true]
    ∧ Identity.def <$> Identity.fieldsWithStableIds (Some [stored]) updatedFields
      = [Examples.plain "name" "Name" "text" false].
Proof.
  intros stored edited.
  set (updated := [Identity.mkItem (Some "name") (Some "66f0a1") 0
                     (Examples.plain "name" "Name" "text" true)]).
  exists updated. split; [reflexivity|]. split; [reflexivity|].
  destruct (edit_leaves_memo None [stored] updated 0 edited stored) as (_ & -> & _);
    [|reflexivity..].
  repeat constructor. by eexists.
Defined.

Section LoaderFacts.
Import Identity.
Implicit Types (f g : item) (fields : list item).

Lemma loaded_token_nonempty f index : FieldList.loaded_token f index ≠ "".
Proof.
  unfold FieldList.loaded_token.
  destruct (JS.truthy_string (_dragId f)) as [token|] eqn:Htoken;
    [by apply truthy_string_inv in Htoken as [_ ?]|].
  destruct (String.eqb (name f) "") eqn:Hname; simpl; [done|].
  by apply String.eqb_neq.
Qed.

Lemma loaded_identities fields :
  identities (FieldList.fieldsWithDragIds fields)
  = imap (λ index f, FieldList.loaded_token f index) fields.
Proof.
  unfold identities, FieldList.fieldsWithDragIds. rewrite imap_compose.
  apply imap_ext. intros i f _. apply generateStableId_carried, loaded_token_nonempty.
Qed.

End LoaderFacts.

(** X12.  For stored fields that carry no token and have a name, the
    identities the form editor works with after loading are the names
    themselves, so they are pairwise distinct as soon as the names are; and
    they are the identities of [fieldsWithStableIds] at the first render
    with the loaded fields, whatever the position. *)
Theorem loaded_identities_are_names (fields : list Identity.item) :
  Forall (λ f, JS.truthy_string (Identity._dragId f) = None ∧ Identity.name f ≠ "")
    fields →
  Identity.identities (FieldList.fieldsWithDragIds fields) = Identity.name <$> fields
  ∧ Identity.identities
      (Identity.fieldsWithStableIds None (FieldList.fieldsWithDragIds fields))
    = Identity.name <$> fields
  ∧ (NoDup (Identity.name <$> fields) →
     NoDup (Identity.identities (FieldList.fieldsWithDragIds fields))).
Proof.
  intros Hall.
  assert (Identity.identities (FieldList.fieldsWithDragIds fields)
          = Identity.name <$> fields) as Heq.
  { rewrite loaded_identities, <-(imap_const Identity.name).
    apply imap_ext. intros i f Hf. unfold const.
    rewrite Forall_forall in Hall.
    destruct (Hall f) as [Htoken Hname%String.eqb_neq]; [by eapply list_elem_of_lookup_2|].
    unfold FieldList.loaded_token. by rewrite Htoken, Hname. }
  split; [done|]. split; [|by rewrite Heq].
  unfold Identity.fieldsWithStableIds, Identity.memoized.
  by rewrite identities_fieldsWithStableIds.
Qed.

Lemma loaded_identities_are_names_witness :
  let stored n id := Identity.mkItem None (Some id) 0 (Examples.plain n n "text" false) in
  Identity.identities
    (FieldList.fieldsWithDragIds [stored "email" "66f0a1"; stored "phone" "66f0a2"])
  = ["email"; "phone"].
Proof.
  intros stored.
  apply (loaded_identities_are_names [stored "email" "66f0a1"; stored "phone" "66f0a2"]).
  repeat constructor; done.
Defined.

(** ** The local-name normalizer *)

Section NormalizerFacts.
Import FieldName NameShape.

Lemma keep_is_name_char (c : ascii) : name_char (keep_or_underscore c) = true.
Proof.
  unfold keep_or_underscore, name_char.
  destruct (is_lower c || is_digit c || Ascii.eqb c underscore) eqn:H; [done|].
  reflexivity.
Qed.

Lemma mapped_all_name_chars (s : string) :
  all_name_chars (map_chars keep_or_underscore s) = true.
Proof.
  induction s as [|c s IH]; [done|]. simpl. by rewrite keep_is_name_char, IH.
Qed.

Lemma squeeze_cons (c : ascii) (t : string) :
  squeeze (String c t)
  = if Ascii.eqb c underscore then
      match t with
      | String d _ => if Ascii.eqb d underscore then squeeze t else String c (squeeze t)
      | EmptyString => String c EmptyString
      end
    else String c (squeeze t).
Proof. reflexivity. Qed.

Lemma squeeze_starts (s : string) :
  starts_with_separator (squeeze s) = starts_with_separator s.
Proof.
  induction s as [|c s IH]; [done|]. rewrite squeeze_cons.
  destruct (Ascii.eqb c underscore) eqn:Hc; [|by simpl; rewrite Hc].
  destruct s as [|d s]; [by simpl; rewrite Hc|].
  destruct (Ascii.eqb d underscore) eqn:Hd; [|by simpl; rewrite Hc].
  rewrite IH. simpl. by rewrite Hc, Hd.
Qed.

Lemma squeeze_all_name_chars (s : string) :
  all_name_chars s = true → all_name_chars (squeeze s) = true.
Proof.
  induction s as [|c s IH]; [done|]. rewrite squeeze_cons.
  intros [Hc Hs]%andb_prop. fold all_name_chars in Hs.
  assert (all_name_chars (String c (squeeze s)) = true) as Hkeep.
  { change (name_char c && all_name_chars (squeeze s) = true). by rewrite Hc, IH. }
  destruct (Ascii.eqb c underscore); [|done].
  destruct s as [|d s]; [by simpl; rewrite Hc|].
  destruct (Ascii.eqb d underscore); [by apply IH|done].
Qed.

Lemma squeeze_no_double (s : string) : no_double_separator (squeeze s) = true.
Proof.
  induction s as [|c s IH]; [done|]. rewrite squeeze_cons.
  assert (starts_with_separator s = false ∨ Ascii.eqb c underscore = false →
          no_double_separator (String c (squeeze s)) = true) as Hkeep.
  { intros H.
    change (negb (Ascii.eqb c underscore && starts_with_separator (squeeze s))
            && no_double_separator (squeeze s) = true).
    rewrite squeeze_starts, IH. destruct H as [-> | ->]; by rewrite ?andb_false_r. }
  destruct (Ascii.eqb c underscore) eqn:Hc; [|apply Hkeep; by right].
  destruct s as [|d s]; [by simpl; rewrite Hc|].
  destruct (Ascii.eqb d underscore) eqn:Hd; [done|].
  apply Hkeep. left. simpl. done.
Qed.

Lemma strip_leading_starts (s : string) :
  starts_with_separator (strip_leading s) = false.
Proof.
  induction s as [|c s IH]; [done|]. simpl.
  destruct (Ascii.eqb c underscore) eqn:Hc; [done|]. simpl. done.
Qed.

Lemma strip_leading_all_name_chars (s : string) :
  all_name_chars s = true → all_name_chars (strip_leading s) = true.
Proof.
  induction s as [|c s IH]; [done|]. simpl. intros H.
  destruct (Ascii.eqb c underscore); [|done].
  apply andb_prop in H as [_ H]. by apply IH.
Qed.

Lemma strip_leading_no_double (s : string) :
  no_double_separator s = true → no_double_separator (strip_leading s) = true.
Proof.
  induction s as [|c s IH]; [done|]. intros H. cbn [strip_leading].
  destruct (Ascii.eqb c underscore); [|done].
  apply IH. simpl in H. by apply andb_prop in H as [_ H].
Qed.

Lemma strip_trailing_cons (c : ascii) (t : string) :
  strip_trailing (String c t)
  = match strip_trailing t with
    | EmptyString => if Ascii.eqb c underscore then EmptyString else String c EmptyString
    | String d u => String c (String d u)
    end.
Proof. simpl. by destruct (strip_trailing t). Qed.

(** What is left after stripping starts as the string did. *)
Lemma strip_trailing_starts (s : string) :
  starts_with_separator (strip_trailing s) = true → starts_with_separator s = true.
Proof.
  destruct s as [|c s]; [done|]. rewrite strip_trailing_cons.
  destruct (strip_trailing s); [|done].
  by destruct (Ascii.eqb c underscore) eqn:Hc; simpl; rewrite ?Hc.
Qed.

Lemma strip_trailing_all_name_chars (s : string) :
  all_name_chars s = true → all_name_chars (strip_trailing s) = true.
Proof.
  induction s as [|c s IH]; [done|]. rewrite strip_trailing_cons.
  intros [Hc Hs]%andb_prop. fold all_name_chars in Hs. specialize (IH Hs).
  destruct (strip_trailing s) as [|d u].
  - destruct (Ascii.eqb c underscore); [done|]. simpl. by rewrite Hc.
  - change (name_char c && all_name_chars (String d u) = true). by rewrite Hc, IH.
Qed.

Lemma strip_trailing_no_double (s : string) :
  no_double_separator s = true → no_double_separator (strip_trailing s) = true.
Proof.
  induction s as [|c s IH]; [done|]. rewrite strip_trailing_cons.
  intros [Hc Hs]%andb_prop. fold no_double_separator in Hs. specialize (IH Hs).
  pose proof (strip_trailing_starts s) as Hstart.
  destruct (strip_trailing s) as [|d u].
  - destruct (Ascii.eqb c underscore) eqn:Hu; [done|]. simpl. by rewrite Hu.
  - change (negb (Ascii.eqb c underscore && starts_with_separator (String d u))
            && no_double_separator (String d u) = true).
    rewrite IH, andb_true_r.
    destruct (starts_with_separator (String d u)) eqn:Hd; [|by rewrite andb_false_r].
    by rewrite Hstart in Hc.
Qed.

Lemma strip_trailing_ends (s : string) :
  ends_with_separator (strip_trailing s) = false.
Proof.
  induction s as [|c s IH]; [done|]. rewrite strip_trailing_cons.
  destruct (strip_trailing s) as [|d u].
  - destruct (Ascii.eqb c underscore) eqn:Hc; [done|]. simpl. done.
  - exact IH.
Qed.

Lemma stripped_shape (label : string) :
  all_name_chars (stripped label) = true
  ∧ no_double_separator (stripped label) = true
  ∧ starts_with_separator (stripped label) = false
  ∧ ends_with_separator (stripped label) = false.
Proof.
  unfold stripped, strip.
  set (s := squeeze (map_chars keep_or_underscore (toLowerCase label))).
  assert (all_name_chars s = true) as Hall
    by apply squeeze_all_name_chars, mapped_all_name_chars.
  assert (no_double_separator s = true) as Hnd by apply squeeze_no_double.
  repeat split.
  - by apply strip_trailing_all_name_chars, strip_leading_all_name_chars.
  - by apply strip_trailing_no_double, strip_leading_no_double.
  - apply not_true_is_false. intros H%strip_trailing_starts.
    by rewrite strip_leading_starts in H.
  - apply strip_trailing_ends.
Qed.

Lemma field_prefix (s : string) :
  "field_" +:+ s
  = String "f" (String "i" (String "e" (String "l" (String "d" (String "_" s))))).
Proof. reflexivity. Qed.

Lemma generateFieldName_unfold (label : string) :
  label ≠ "" →
  generateFieldName label
  = match stripped label with
    | EmptyString => "field"
    | String c t =>
        if starts_with_letter (String c t) then String c t
        else "field_" +:+ String c t
    end.
Proof.
  intros Hne%String.eqb_neq. unfold generateFieldName. rewrite Hne.
  fold (stripped label). destruct (stripped label) as [|c t]; [done|].
  cbn [String.eqb negb andb]. destruct (starts_with_letter (String c t)); [done|].
  cbn [negb andb]. by rewrite field_prefix.
Qed.

Lemma generateFieldName_well_formed (label : string) :
  label ≠ "" → well_formed (generateFieldName label) = true.
Proof.
  intros Hne. rewrite generateFieldName_unfold by done.
  destruct (stripped_shape label) as (Hall & Hnd & Hstart & Hend).
  destruct (stripped label) as [|c t]; [done|].
  destruct (starts_with_letter (String c t)) eqn:Hletter.
  - unfold well_formed. by rewrite Hletter, Hall, Hnd, Hend.
  - rewrite field_prefix. unfold well_formed.
    set (s := String c t) in *.
    assert (∀ u, all_name_chars
                   (String "f" (String "i" (String "e" (String "l" (String "d" (String "_" u))))))
                 = all_name_chars u) as -> by reflexivity.
    assert (∀ u, no_double_separator
                   (String "f" (String "i" (String "e" (String "l" (String "d" (String "_" u))))))
                 = negb (starts_with_separator u) && no_double_separator u) as -> by reflexivity.
    assert (ends_with_separator
              (String "f" (String "i" (String "e" (String "l" (String "d" (String "_" s))))))
            = ends_with_separator s) as -> by reflexivity.
    by rewrite Hall, Hnd, Hstart, Hend.
Qed.

Lemma name_char_not_upper (c : ascii) : name_char c = true → is_upper c = false.
Proof. by destruct c as [[] [] [] [] [] [] [] []]; vm_compute. Qed.

Lemma letter_not_separator (c : ascii) : is_lower c = true → Ascii.eqb c underscore = false.
Proof. by destruct c as [[] [] [] [] [] [] [] []]; vm_compute. Qed.

Lemma toLowerCase_fixed (s : string) : all_name_chars s = true → toLowerCase s = s.
Proof.
  induction s as [|c s IH]; [done|]. intros [Hc Hs]%andb_prop. fold all_name_chars in Hs.
  change (String (lower_char c) (toLowerCase s) = String c s).
  rewrite IH by done. unfold lower_char. by rewrite name_char_not_upper.
Qed.

Lemma keep_fixed (s : string) :
  all_name_chars s = true → map_chars keep_or_underscore s = s.
Proof.
  induction s as [|c s IH]; [done|]. intros [Hc Hs]%andb_prop. fold all_name_chars in Hs.
  cbn [map_chars]. rewrite IH by done. unfold keep_or_underscore.
  unfold name_char in Hc. by rewrite Hc.
Qed.

Lemma squeeze_fixed (s : string) : no_double_separator s = true → squeeze s = s.
Proof.
  induction s as [|c s IH]; [done|]. intros [Hc Hs]%andb_prop. fold no_double_separator in Hs.
  rewrite squeeze_cons, IH by done.
  destruct (Ascii.eqb c underscore); [|done].
  destruct s as [|d s]; [done|]. simpl in Hc. by destruct (Ascii.eqb d underscore).
Qed.

Lemma strip_leading_fixed (s : string) :
  starts_with_separator s = false → strip_leading s = s.
Proof. destruct s as [|c s]; [done|]. simpl. by intros ->. Qed.

Lemma strip_trailing_fixed (s : string) :
  ends_with_separator s = false → strip_trailing s = s.
Proof.
  induction s as [|c s IH]; [done|]. rewrite strip_trailing_cons.
  destruct s as [|d s]; [by simpl; intros ->|].
  intros H. rewrite IH by exact H. done.
Qed.

Lemma well_formed_fixed (name : string) :
  well_formed name = true → generateFieldName name = name.
Proof.
  unfold well_formed.
  intros [[[Hletter Hall]%andb_prop Hnd]%andb_prop Hend%negb_true_iff]%andb_prop.
  assert (name ≠ "") as Hne by (by destruct name).
  assert (starts_with_separator name = false) as Hstart.
  { destruct name as [|c t]; [done|]. by apply letter_not_separator. }
  rewrite generateFieldName_unfold by done. unfold stripped, strip.
  rewrite toLowerCase_fixed, keep_fixed, squeeze_fixed, strip_leading_fixed,
    strip_trailing_fixed by done.
  destruct name as [|c t]; [done|]. by rewrite Hletter.
Qed.

End NormalizerFacts.

(** X13. The local name derived from a non-empty label starts with a
    lowercase letter, consists of lowercase letters, digits and underscores
    only, has no two underscores in a row and does not end with one. *)
Theorem generateFieldName_shape (label : string) :
  label ≠ "" → NameShape.well_formed (FieldName.generateFieldName label) = true.
Proof. apply generateFieldName_well_formed. Qed.

Lemma generateFieldName_shape_witness :
  "2nd  Phone-Number!" ≠ ""
  ∧ NameShape.well_formed (FieldName.generateFieldName "2nd  Phone-Number!") = true.
Proof. split; [done|]. by apply (generateFieldName_shape "2nd  Phone-Number!"). Defined.

(** X14. The non-empty names the normalizer leaves unchanged are exactly
    the well-formed ones, so a derived name can be used as a label again
    without changing. *)
Theorem generateFieldName_fixed_points (name : string) :
  name ≠ "" →
  FieldName.generateFieldName name = name ↔ NameShape.well_formed name = true.
Proof.
  intros Hne. split; [|apply well_formed_fixed].
  intros <-. by apply generateFieldName_well_formed.
Qed.

Lemma generateFieldName_fixed_points_witness :
  "field_2nd_phone" ≠ ""
  ∧ (FieldName.generateFieldName "field_2nd_phone" = "field_2nd_phone"
     ↔ NameShape.well_formed "field_2nd_phone" = true).
Proof. split; [done|]. by apply (generateFieldName_fixed_points "field_2nd_phone"). Defined.

(** X15. Normalizing twice gives the same name as normalizing once. *)
Theorem generateFieldName_idempotent (label : string) :
  FieldName.generateFieldName (FieldName.generateFieldName label)
  = FieldName.generateFieldName label.
Proof.
  destruct (decide (label = "")) as [->|Hne]; [done|].
  by apply well_formed_fixed, generateFieldName_well_formed.
Qed.

(** ** The nested-field manager *)

Section NestedFacts.
Import Identity NestedFields.

Lemma numbered_snoc (fields : list item) (f : item) :
  numbered fields → numbered (fields ++ [with_order (length fields) f]).
Proof.
  intros Hnum i g Hi. apply lookup_app_Some in Hi as [Hi | [Hge Hi]]; [by apply Hnum|].
  apply list_lookup_singleton_Some in Hi as [Hi <-]. simpl. lia.
Qed.

Lemma numbered_insert (fields : list item) (index : nat) (f : item) :
  numbered fields → numbered (<[index := with_order index f]> fields).
Proof.
  intros Hnum i g Hi. apply list_lookup_insert_Some in Hi as [(-> & <- & _) | [_ Hi]];
    [done|by apply Hnum].
Qed.

Lemma numbered_renumber (fields : list item) :
  numbered (imap (λ i f, with_order i f) fields).
Proof.
  intros i g Hi. rewrite list_lookup_imap in Hi.
  destruct (fields !! i); simplify_eq/=. done.
Qed.

Lemma handleUpdateField_numbered (fields updatedFields : list item) (index : nat)
    (f : item) :
  numbered fields → handleUpdateField fields index f = Assigned updatedFields →
  numbered updatedFields.
Proof.
  intros Hnum. unfold handleUpdateField.
  destruct (index <? length fields)%nat; [intros [= <-]; by apply numbered_insert|].
  destruct (Nat.eqb_spec index (length fields)) as [->|]; [|done].
  intros [= <-]. by apply numbered_snoc.
Qed.

Lemma edit_row_numbered (st : state) (idx : nat) (updated : item → item) :
  numbered (nestedFields st) → numbered (nestedFields (edit_row st idx updated)).
Proof.
  intros Hnum. unfold edit_row. destruct (nestedFields st !! idx) as [nf|]; [|done].
  destruct (handleUpdateField _ _ _) eqn:Hupd; [|done].
  by eapply handleUpdateField_numbered.
Qed.

Lemma step_numbered (st : state) (ev : event) :
  numbered (nestedFields st) → numbered (nestedFields (step st ev)).
Proof.
  intros Hnum. destruct ev as [e| |idx v|idx v|idx b|idx confirmed]; simpl;
    try by apply edit_row_numbered.
  - done.
  - unfold handleAddField. destruct (_ || _); [done|]. by apply numbered_snoc.
  - unfold handleDeleteField. destruct confirmed; [apply numbered_renumber|done].
Qed.

Lemma relabelled_derived (nf : item) (value : string) :
  FieldEditor.derived (def nf) → FieldEditor.derived (def (relabelled nf value)).
Proof.
  unfold FieldEditor.derived, relabelled, name. intros Hd.
  rewrite <-Hd, String.eqb_refl, orb_true_r. done.
Qed.

Lemma edit_row_names (st : state) (idx : nat) (updated : item → item) :
  (∀ nf, FieldEditor.derived (def nf) → FieldEditor.derived (def (updated nf))) →
  names_follow (nestedFields st) → names_follow (nestedFields (edit_row st idx updated)).
Proof.
  intros Hupd Hall. unfold edit_row.
  destruct (nestedFields st !! idx) as [nf|] eqn:Hnf; [|done].
  assert (FieldEditor.derived (def (updated nf))) as Hnew.
  { apply Hupd. by eapply (Forall_lookup_1 _ _ _ _ Hall). }
  unfold handleUpdateField.
  destruct (idx <? length (nestedFields st))%nat.
  - simpl. by apply Forall_insert.
  - destruct (Nat.eqb idx (length (nestedFields st))); [|done].
    simpl. apply Forall_app. split; [done|]. by apply Forall_singleton.
Qed.

Lemma handleNewFieldChange_row (prev : item) (e : FieldEditor.change) :
  (∀ value, e ≠ FieldEditor.OnName value) →
  row_follows_label prev → row_follows_label (handleNewFieldChange prev e).
Proof.
  intros Hname Hrow. unfold row_follows_label, FieldEditor.derived in *.
  destruct e as [value|value|value|checked]; simpl; [|by destruct (Hname value)|done|done].
  destruct (String.eqb_spec value "") as [->|Hne]; simpl; done.
Qed.

Lemma step_names (st : state) (ev : event) :
  from_controls ev = true →
  names_follow (nestedFields st) ∧ row_follows_label (newField st) →
  names_follow (nestedFields (step st ev)) ∧ row_follows_label (newField (step st ev)).
Proof.
  intros Hev [Hall Hrow].
  assert (row_follows_label (blank (length (nestedFields st) + 1))) as Hblank by done.
  destruct ev as [e| |idx v|idx v|idx b|idx confirmed]; simpl.
  - split; [done|]. apply handleNewFieldChange_row; [|done].
    intros value ->. done.
  - unfold handleAddField.
    destruct (String.eqb_spec (Schema.label (def (newField st))) "") as [|Hne]; [done|].
    destruct (String.eqb (name (newField st)) ""); [done|]. simpl. split; [|done].
    apply Forall_app. split; [done|]. apply Forall_singleton. by apply Hrow.
  - split; [|by unfold edit_row; repeat case_match].
    apply edit_row_names; [|done]. intros nf. apply relabelled_derived.
  - split; [|by unfold edit_row; repeat case_match]. by apply edit_row_names.
  - split; [|by unfold edit_row; repeat case_match]. by apply edit_row_names.
  - split; [|done]. unfold handleDeleteField. destruct confirmed; [|done]. simpl.
    unfold names_follow. rewrite Forall_lookup. intros i f Hi.
    rewrite list_lookup_imap in Hi.
    destruct (delete idx (nestedFields st) !! i) as [g|] eqn:Hg; simplify_eq/=.
    apply list_elem_of_lookup_2, list_elem_of_delete_inv in Hg.
    by eapply (proj1 (Forall_forall _ _) Hall).
Qed.

End NestedFacts.

(** X16. In the nested-field manager every field keeps its position in
    [order]: if the list it starts from is numbered by position, so is the
    list after any sequence of additions, edits and deletions. *)
Theorem nested_order_is_position (st : NestedFields.state)
    (events : list NestedFields.event) :
  NestedFields.numbered (NestedFields.nestedFields st) →
  NestedFields.numbered (NestedFields.nestedFields (NestedFields.run st events)).
Proof.
  unfold NestedFields.run. revert st.
  induction events as [|ev events IH]; intros st Hnum; [done|].
  simpl. by apply IH, step_numbered.
Qed.

Lemma nested_order_is_position_witness :
  NestedFields.numbered
    (NestedFields.nestedFields (NestedFields.mkState [] (NestedFields.blank 0)))
  ∧ NestedFields.numbered
      (NestedFields.nestedFields
         (NestedFields.run (NestedFields.mkState [] (NestedFields.blank 0))
            [NestedFields.NewFieldChange (FieldEditor.OnLabel "Phone No");
             NestedFields.AddField;
             NestedFields.NewFieldChange (FieldEditor.OnLabel "Street");
             NestedFields.AddField;
             NestedFields.DeleteField 0 true])).
Proof.
  assert (NestedFields.numbered
            (NestedFields.nestedFields (NestedFields.mkState [] (NestedFields.blank 0))))
    as Hnum by (by intros i f Hi).
  split; [exact Hnum|].
  exact (nested_order_is_position _ _ Hnum).
Defined.

(** X17. A nested field made in the manager carries the name the
    normalizer derives from its label: if that holds of the list at the
    start, it holds after any sequence of events of the rendered controls,
    whose name input is read-only. *)
Theorem nested_names_follow_labels (st : NestedFields.state)
    (events : list NestedFields.event) :
  NestedFields.names_follow (NestedFields.nestedFields st) →
  NestedFields.row_follows_label (NestedFields.newField st) →
  forallb NestedFields.from_controls events = true →
  NestedFields.names_follow (NestedFields.nestedFields (NestedFields.run st events)).
Proof.
  unfold NestedFields.run. revert st.
  induction events as [|ev events IH]; intros st Hall Hrow Hev; [done|].
  apply andb_prop in Hev as [Hev Hevs].
  destruct (step_names st ev Hev (conj Hall Hrow)) as [Hall' Hrow'].
  simpl. by apply IH.
Qed.

Lemma nested_names_follow_labels_witness :
  NestedFields.names_follow
    (NestedFields.nestedFields
       (NestedFields.run (NestedFields.mkState [] (NestedFields.blank 0))
          [NestedFields.NewFieldChange (FieldEditor.OnLabel "Phone No");
           NestedFields.NewFieldChange (FieldEditor.OnType "number");
           NestedFields.AddField;
           NestedFields.EditLabel 0 "2nd phone"])).
Proof.
  apply (nested_names_follow_labels (NestedFields.mkState [] (NestedFields.blank 0))).
  - by apply Forall_nil.
  - done.
  - reflexivity.
Defined.

(** ** The field editor form *)

Section EditorFormFacts.
Import FieldEditor.

Lemma handleChange_derived (prev : Schema.field) (e : change) :
  keeps_derived e = true → derived prev → derived (handleChange prev e).
Proof.
  unfold derived. intros He Hd.
  destruct e as [value|value|value|checked]; simpl; [|done..].
  simpl in He. rewrite He, <-Hd, String.eqb_refl, orb_true_r. done.
Qed.

End EditorFormFacts.

(** X18. In the field editor the name follows the label: while the name is
    the one derived from the label, it stays so under any sequence of
    changes that neither empties the label nor writes the name. *)
Theorem editor_name_follows_label (prev : Schema.field)
    (changes : list FieldEditor.change) :
  FieldEditor.derived prev →
  forallb FieldEditor.keeps_derived changes = true →
  FieldEditor.derived (fold_left FieldEditor.handleChange changes prev).
Proof.
  revert prev. induction changes as [|e changes IH]; intros prev Hd Hall; [done|].
  apply andb_prop in Hall as [He Hall]. simpl. apply IH; [|done].
  by apply handleChange_derived.
Qed.

Lemma editor_name_follows_label_witness :
  FieldEditor.derived
    (fold_left FieldEditor.handleChange
       [FieldEditor.OnLabel "E"; FieldEditor.OnLabel "E-mail"; FieldEditor.OnType "email";
        FieldEditor.OnRequired true; FieldEditor.OnLabel "E-mail address"]
       FieldList.blank_field).
Proof.
  apply (editor_name_follows_label FieldList.blank_field); [done|reflexivity].
Defined.

(** X19. Emptying the label in the field editor detaches the name: once a
    field with a name has had its label emptied, the next label leaves the
    name as it was, whatever is typed. *)
Theorem editor_name_detached (prev : Schema.field) (value : string) :
  Schema.name prev ≠ "" →
  let cleared := FieldEditor.handleChange prev (FieldEditor.OnLabel "") in
  let retyped := FieldEditor.handleChange cleared (FieldEditor.OnLabel value) in
  Schema.name retyped = Schema.name prev ∧ Schema.label retyped = value.
Proof.
  intros Hne cleared retyped. subst retyped cleared.
  cbn [FieldEditor.handleChange FieldEditor.assign String.eqb negb andb].
  cbn [FieldEditor.with_label Schema.name Schema.label].
  apply String.eqb_neq in Hne. rewrite Hne.
  change (FieldName.generateFieldName "") with "".
  rewrite Hne, andb_false_r. done.
Qed.

Lemma editor_name_detached_witness :
  let prev := FieldEditor.handleChange FieldList.blank_field (FieldEditor.OnLabel "Phone") in
  let cleared := FieldEditor.handleChange prev (FieldEditor.OnLabel "") in
  let retyped := FieldEditor.handleChange cleared (FieldEditor.OnLabel "E-mail") in
  Schema.name retyped = "phone" ∧ Schema.label retyped = "E-mail".
Proof.
  intros prev.
  apply (editor_name_detached prev "E-mail"). done.
Defined.

(** ** The options text *)

Section OptionsFacts.
Import Options.
Context {char : Type} `{EqDecision char}.
Variable newline : char.
Variable is_space : char → bool.

Local Abbreviation split := (Options.split newline).
Local Abbreviation trimStart := (Options.trimStart is_space).
Local Abbreviation trimEnd := (Options.trimEnd is_space).
Local Abbreviation trim := (Options.trim is_space).
Local Abbreviation join := (Options.join newline).
Local Abbreviation clean := (Options.clean newline is_space).

Lemma split_not_nil (value : list char) : split value ≠ [].
Proof.
  destruct value as [|c rest]; [done|]. simpl.
  destruct (decide (c = newline)); [done|]. by destruct (split rest).
Qed.

Lemma split_one_line (line : list char) : newline ∉ line → split line = [line].
Proof.
  induction line as [|c line IH]; [done|]. intros Hnl.
  apply not_elem_of_cons in Hnl as [Hc Hnl]. simpl.
  destruct (decide (c = newline)); [done|]. by rewrite IH.
Qed.

Lemma split_line_break (line rest : list char) :
  newline ∉ line → split (line ++ newline :: rest) = line :: split rest.
Proof.
  induction line as [|c line IH]; intros Hnl.
  - simpl. by destruct (decide (newline = newline)).
  - apply not_elem_of_cons in Hnl as [Hc Hnl]. simpl.
    destruct (decide (c = newline)); [done|]. by rewrite IH.
Qed.

Lemma split_lines_one_line (value line : list char) :
  line ∈ split value → newline ∉ line.
Proof.
  revert line. induction value as [|c rest IH]; intros line; simpl.
  - intros ->%list_elem_of_singleton. apply not_elem_of_nil.
  - destruct (decide (c = newline)) as [->|Hc].
    + intros [->|Hin]%elem_of_cons; [apply not_elem_of_nil|by apply IH].
    + destruct (split rest) as [|first lines] eqn:Hs.
      * intros ->%list_elem_of_singleton. apply not_elem_of_cons.
        split; [done|apply not_elem_of_nil].
      * intros [->|Hin]%elem_of_cons.
        -- apply not_elem_of_cons. split; [done|]. apply IH, elem_of_cons. by left.
        -- apply IH, elem_of_cons. by right.
Qed.

Lemma trimStart_suffix (s : list char) : trimStart s `suffix_of` s.
Proof.
  induction s as [|c s IH]; [done|]. simpl.
  destruct (is_space c); [by apply suffix_cons_r|done].
Qed.

Lemma trimStart_head (s : list char) (c : char) :
  head (trimStart s) = Some c → is_space c = false.
Proof.
  induction s as [|d s IH]; [done|]. simpl.
  destruct (is_space d) eqn:Hd; [done|]. by intros [= <-].
Qed.

Lemma trimStart_fixed (s : list char) :
  (∀ c, head s = Some c → is_space c = false) → trimStart s = s.
Proof. destruct s as [|c s]; [done|]. intros H. simpl. by rewrite (H c). Qed.

Lemma trimStart_last (s : list char) (c : char) :
  last s = Some c → is_space c = false → last (trimStart s) = Some c.
Proof.
  induction s as [|d s IH]; [done|]. intros Hlast Hc. simpl.
  destruct (is_space d) eqn:Hd; [|done].
  destruct s as [|e s]; [simpl in Hlast; congruence|]. by apply IH.
Qed.

Lemma trimEnd_prefix (s : list char) : trimEnd s `prefix_of` s.
Proof.
  unfold trimEnd. destruct (trimStart_suffix (reverse s)) as [k Hk].
  exists (reverse k). apply (inj reverse). by rewrite reverse_app, !reverse_involutive.
Qed.

Lemma trimEnd_last (s : list char) (c : char) :
  last (trimEnd s) = Some c → is_space c = false.
Proof. unfold trimEnd. rewrite last_reverse. apply trimStart_head. Qed.

Lemma trimEnd_fixed (s : list char) :
  (∀ c, last s = Some c → is_space c = false) → trimEnd s = s.
Proof.
  intros H. unfold trimEnd. rewrite trimStart_fixed; [by rewrite reverse_involutive|].
  intros c. rewrite head_reverse. apply H.
Qed.

Lemma trimEnd_head (s : list char) (c : char) :
  head s = Some c → is_space c = false → head (trimEnd s) = Some c.
Proof.
  intros Hhead Hc. unfold trimEnd. rewrite head_reverse. apply trimStart_last; [|done].
  by rewrite last_reverse.
Qed.

Lemma trim_sublist (s : list char) (c : char) : c ∈ trim s → c ∈ s.
Proof.
  unfold trim. intros Hc.
  destruct (trimEnd_prefix (trimStart s)) as [k Hk].
  destruct (trimStart_suffix s) as [k' Hk'].
  rewrite Hk', Hk. set_solver.
Qed.

Lemma trim_clean (line : list char) :
  newline ∉ line → trim line ≠ [] → clean (trim line).
Proof.
  intros Hnl Hne. split; [done|]. split; [by intros Hin%trim_sublist|]. split.
  - intros c Hc. unfold trim in *.
    destruct (trimStart line) as [|d t] eqn:Ht; [done|].
    assert (is_space d = false) as Hd by (apply (trimStart_head line); by rewrite Ht).
    by rewrite (trimEnd_head (d :: t) d eq_refl Hd) in Hc; simplify_eq.
  - apply trimEnd_last.
Qed.

Lemma trim_fixed (opt : list char) : clean opt → trim opt = opt.
Proof.
  intros (_ & _ & Hhead & Hlast). unfold trim.
  by rewrite trimStart_fixed, trimEnd_fixed.
Qed.

Lemma non_empty_true (s : list char) : non_empty s = true ↔ s ≠ [].
Proof. by destruct s. Qed.

Lemma handleOptionsChange_clean (value opt : list char) :
  opt ∈ handleOptionsChange newline is_space value → clean opt.
Proof.
  unfold handleOptionsChange. intros Hin%list_elem_of_In.
  apply filter_In in Hin as [Hin Hne].
  apply list_elem_of_In, list_elem_of_fmap in Hin as (line & -> & Hline).
  apply trim_clean; [by eapply split_lines_one_line|by apply non_empty_true].
Qed.

Lemma join_cons (opt : list char) (rest : list (list char)) :
  rest ≠ [] → join (opt :: rest) = opt ++ newline :: join rest.
Proof. by destruct rest. Qed.

Lemma filter_trim_clean (options : list (list char)) :
  Forall clean options → List.filter non_empty (Options.trim is_space <$> options) = options.
Proof.
  induction 1 as [|opt options Hopt _ IH]; [done|].
  cbn [fmap list_fmap List.filter]. fold (fmap (M := list) trim options).
  rewrite trim_fixed by done.
  destruct Hopt as (Hne & _). apply non_empty_true in Hne. by rewrite Hne, IH.
Qed.

Lemma split_join (options : list (list char)) :
  options ≠ [] → Forall clean options → split (join options) = options.
Proof.
  induction options as [|opt rest IH]; [done|]. intros _ Hall.
  apply Forall_cons in Hall as [(_ & Hnl & _) Hrest].
  destruct rest as [|next rest]; [by apply split_one_line|].
  rewrite join_cons by done. rewrite split_line_break by done.
  by rewrite IH.
Qed.

Lemma handleOptionsChange_join (options : list (list char)) :
  Forall clean options → handleOptionsChange newline is_space (join options) = options.
Proof.
  intros Hall. unfold handleOptionsChange.
  destruct options as [|opt rest]; [done|].
  rewrite split_join by done. by apply filter_trim_clean.
Qed.

Lemma saved_options_clean (options : list (list char)) :
  Forall clean options → saved_options is_space options = options.
Proof.
  induction 1 as [|opt options Hopt _ IH]; [done|].
  unfold saved_options in *. cbn [List.filter].
  rewrite trim_fixed by done. destruct Hopt as (Hne & _).
  apply non_empty_true in Hne. by rewrite Hne, IH.
Qed.

End OptionsFacts.

(** X20. Every option the editor stores for the options text is clean: not
    empty, on one line, without white space at either end. *)
Theorem options_are_clean {char : Type} `{EqDecision char} (newline : char)
    (is_space : char → bool) (value : list char) :
  Forall (Options.clean newline is_space)
    (Options.handleOptionsChange newline is_space value).
Proof. apply Forall_forall. intros opt. apply handleOptionsChange_clean. Qed.

(** X21. The options text round-trips: joining clean options by line feeds
    and reading the text back gives the same options. *)
Theorem options_round_trip {char : Type} `{EqDecision char} (newline : char)
    (is_space : char → bool) (options : list (list char)) :
  Forall (Options.clean newline is_space) options →
  Options.handleOptionsChange newline is_space (Options.join newline options) = options.
Proof. apply handleOptionsChange_join. Qed.

Lemma options_round_trip_witness :
  Options.handleOptionsChange "010"%char Options.ascii_space
    (Options.join "010"%char
       [String.list_ascii_of_string "Red"; String.list_ascii_of_string "Dark blue"])
  = [String.list_ascii_of_string "Red"; String.list_ascii_of_string "Dark blue"].
Proof.
  apply (options_round_trip "010"%char Options.ascii_space).
  assert (∀ opt : list ascii,
            opt ≠ [] → forallb (λ c, negb (Ascii.eqb c "010")) opt = true →
            (∀ c, head opt = Some c → Options.ascii_space c = false) →
            (∀ c, last opt = Some c → Options.ascii_space c = false) →
            Options.clean "010"%char Options.ascii_space opt) as Hclean.
  { intros opt Hne Hnl Hhead Hlast. repeat split; try done.
    intros Hin. rewrite forallb_forall in Hnl.
    apply list_elem_of_In, Hnl in Hin. by rewrite Ascii.eqb_refl in Hin. }
  repeat constructor; apply Hclean;
    first [discriminate | reflexivity | intros c [= <-]; reflexivity].
Defined.

(** X22. Saving and reopening keeps the options: the options read from a
    text pass the filter of the save handler unchanged, and the text the
    editor then opens with reads back as the same options. *)
Theorem options_survive_save {char : Type} `{EqDecision char} (newline : char)
    (is_space : char → bool) (value : list char) :
  let options := Options.handleOptionsChange newline is_space value in
  Options.saved_options is_space options = options
  ∧ Options.handleOptionsChange newline is_space (Options.join newline options) = options.
Proof.
  intros options.
  assert (Forall (Options.clean newline is_space) options) as Hclean.
  { apply Forall_forall. intros opt. apply handleOptionsChange_clean. }
  split; [by eapply saved_options_clean|by apply handleOptionsChange_join].
Qed.

(** ** Choosing an option on the form page *)

Section SelectionFacts.
Import Schema Selection.

Lemma flat_map_ext_elem {A B} (g h : A → list B) (l : list A) :
  (∀ a, a ∈ l → g a = h a) → flat_map g l = flat_map h l.
Proof.
  induction l as [|a l IH]; [done|]. intros Hext. simpl.
  rewrite (Hext a), IH; [done| |]; [|apply elem_of_cons; by left].
  intros b Hb. apply Hext, elem_of_cons. by right.
Qed.

Lemma clear_others_absent (f : field) (cf : gmap string (list field)) (value : string) :
  cf !! value = None → clear_others f cf value = clear_all f cf.
Proof.
  intros Hnone. unfold clear_others, clear_all.
  apply flat_map_ext_elem. intros [opt nested] Hin%elem_of_map_to_list.
  simpl. destruct (decide (opt ≠ value)) as [|Heq]; [done|].
  apply dec_stable in Heq. congruence.
Qed.

Lemma clear_others_present (f : field) (cf : gmap string (list field)) (value : string)
    (nested : list field) :
  cf !! value = Some nested →
  clear_branch f nested ++ clear_others f cf value ≡ₚ clear_all f cf.
Proof.
  intros Hsome. unfold clear_others, clear_all.
  rewrite <-!(map_to_list_delete cf value nested Hsome).
  cbn [flat_map fst snd]. destruct (decide (value ≠ value)) as [Hne|_]; [done|].
  simpl. apply Permutation_app_head. apply reflexive_eq, flat_map_ext_elem.
  intros [opt other] Hin%elem_of_map_to_list. simpl.
  destruct (decide (opt ≠ value)) as [|Heq]; [done|].
  apply dec_stable in Heq. subst opt. by rewrite lookup_delete_eq in Hin.
Qed.

Lemma cleared_value_copy (f nf : field) :
  cleared_value (nested_copy f nf) = cleared_value nf.
Proof. done. Qed.

Lemma cleared_is_initial (g : field) :
  type g ≠ "file" → cleared_value g = initial_value g.
Proof.
  intros Hfile%String.eqb_neq. unfold cleared_value, initial_value.
  by rewrite Hfile.
Qed.

End SelectionFacts.

(** X23. Choosing an option clears the nested fields of every branch of the
    field, each branch once, whichever option is chosen, unless the option
    is named like a property every object inherits and has no branch of its
    own: then the handler throws before it has cleared anything. *)
Theorem every_branch_cleared_once (f : Schema.field)
    (cf : gmap string (list Schema.field)) (selectedValues : Schema.selection)
    (value : string) :
  Schema.conditionalFields f = Some cf →
  if bool_decide (cf !! value = None) && JS.inherited value
  then Selection.threw (Selection.onChange f selectedValues value) = true
       ∧ Selection.calls (Selection.onChange f selectedValues value) = []
  else Selection.threw (Selection.onChange f selectedValues value) = false
       ∧ Selection.calls (Selection.onChange f selectedValues value)
         ≡ₚ Selection.clear_all f cf.
Proof.
  intros Hcf. unfold Selection.onChange. rewrite Hcf.
  destruct (cf !! value) as [nested|] eqn:Hv.
  - rewrite bool_decide_eq_false_2 by done. simpl. split; [done|].
    by apply clear_others_present.
  - rewrite bool_decide_eq_true_2 by done. simpl.
    destruct (JS.inherited value); simpl; [done|]. split; [done|].
    by rewrite clear_others_absent.
Qed.

Lemma every_branch_cleared_once_witness :
  Selection.calls (Selection.onChange Examples.contact_method ∅ "Email")
  ≡ₚ Selection.calls (Selection.onChange Examples.contact_method ∅ "Phone")
  ∧ Selection.threw (Selection.onChange Examples.inherited_option ∅ "constructor")
    = true.
Proof.
  destruct (Schema.conditionalFields Examples.contact_method) as [cf|] eqn:Hcf;
    [|discriminate].
  pose proof (every_branch_cleared_once Examples.contact_method cf ∅ "Email" Hcf)
    as Hemail.
  pose proof (every_branch_cleared_once Examples.contact_method cf ∅ "Phone" Hcf)
    as Hphone.
  injection Hcf as <-.
  rewrite andb_false_intro2 in Hemail, Hphone by reflexivity.
  destruct Hemail as [_ ->], Hphone as [_ ->]. split; [done|].
  pose proof (every_branch_cleared_once Examples.inherited_option
                {[ "A" := [Examples.plain "x" "X" "text" false] ]} ∅ "constructor"
                eq_refl) as Hthrows.
  by destruct Hthrows as [-> _].
Defined.

(** X24. The nested fields the expander activates once an option is chosen
    have all been cleared by the change handler, each to the initial value
    of its kind unless it is a file field. *)
Theorem activated_fields_cleared (f g : Schema.field)
    (selectedValues : Schema.selection) (value : string) :
  g ∈ Schema.active_children
        (Selection.newSelectedValues (Selection.onChange f selectedValues value)) f →
  (Schema.name g, Selection.cleared_value g)
    ∈ Selection.calls (Selection.onChange f selectedValues value)
  ∧ Selection.threw (Selection.onChange f selectedValues value) = false
  ∧ (Schema.type g ≠ "file" → Selection.cleared_value g = Schema.initial_value g).
Proof.
  assert (Selection.newSelectedValues (Selection.onChange f selectedValues value)
          = <[Schema.name f := value]> selectedValues) as ->
    by (unfold Selection.onChange; by repeat case_match).
  intros (cf & s & nested & nf & _ & Hcf & Hs & _ & Hn & Hnf & ->)%active_children_inv.
  rewrite lookup_insert_eq in Hs. injection Hs as ->.
  unfold Selection.onChange. rewrite Hcf, Hn.
  split; [|split; [done|apply cleared_is_initial]].
  cbn [Selection.calls]. apply elem_of_app. left. unfold Selection.clear_branch.
  apply list_elem_of_fmap. exists nf. split; [reflexivity|done].
Qed.

Lemma activated_fields_cleared_witness :
  let g := Schema.nested_copy Examples.contact_method Examples.email_address in
  (Schema.name g, Selection.cleared_value g)
    ∈ Selection.calls (Selection.onChange Examples.contact_method ∅ "Email")
  ∧ Selection.threw (Selection.onChange Examples.contact_method ∅ "Email") = false
  ∧ (Schema.type g ≠ "file" → Selection.cleared_value g = Schema.initial_value g).
Proof.
  intros g. apply (activated_fields_cleared Examples.contact_method g ∅ "Email").
  erewrite (active_children_intro _ Examples.contact_method
              {[ "Email" := [Examples.email_address] ]} "Email"
              [Examples.email_address]).
  - apply list_elem_of_singleton. reflexivity.
  - reflexivity.
  - reflexivity.
  - apply lookup_insert_eq.
  - discriminate.
  - apply lookup_singleton_eq.
Defined.

(** ** What the form page renders *)

Section RenderFacts.
Import Schema Render.

Lemma rendered_nested_in_step (f : field) (sel : selection)
    (values : gmap string JS.value) :
  (JS.truthy_string (sel !! name f) = None →
   JS.truthy (default JS.VUndefined (values !! name f)) = false) →
  rendered_nested sel values f = active_children sel f.
Proof.
  intros Hstep.
  unfold rendered_nested, Render.conditionalFields, selectedValue, active_children,
    push_conditional.
  destruct (is_selectable f); [|done].
  destruct (Schema.conditionalFields f) as [cf|]; [|done].
  unfold JS.truthy_string, JS.or_else, JS.of_option in *.
  destruct (sel !! name f) as [s|]; simpl in *.
  - destruct (String.eqb s "") eqn:Hs; simpl.
    + by rewrite Hstep.
    + rewrite Hs. simpl. destruct (cf !! s) as [nested|]; [|done].
      by rewrite push_copies_app.
  - by rewrite Hstep.
Qed.

End RenderFacts.

(** X25. The page renders the fields the expander yields: while the form
    holds no value for a field that [selectedValues] holds no choice for,
    the inputs rendered are the interleaved expansion, which holds the same
    fields as [getAllFields]. *)
Theorem rendered_is_expanded (fields : list Schema.field)
    (selectedValues : Schema.selection) (values : gmap string JS.value) :
  Render.in_step fields selectedValues values →
  Render.rendered fields selectedValues values
  = Schema.expand_interleaved fields selectedValues
  ∧ Render.rendered fields selectedValues values
    ≡ₚ Schema.getAllFields fields selectedValues.
Proof.
  intros Hstep.
  assert (Render.rendered fields selectedValues values
          = Schema.expand_interleaved fields selectedValues) as Heq.
  { unfold Render.rendered, Schema.expand_interleaved.
    apply flat_map_ext_elem. intros f Hf. f_equal.
    apply rendered_nested_in_step. by apply Hstep. }
  split; [done|]. by rewrite Heq, interleaved_perm, getAllFields_split.
Qed.

Lemma rendered_is_expanded_witness :
  Render.rendered [Examples.contact_method; Examples.notes]
    {[ "contact_method" := "Email" ]} {[ "contact_method" := JS.VStr "Email" ]}
  ≡ₚ Schema.getAllFields [Examples.contact_method; Examples.notes]
       {[ "contact_method" := "Email" ]}.
Proof.
  apply (rendered_is_expanded [Examples.contact_method; Examples.notes]).
  intros f Hf Hnone.
  apply elem_of_cons in Hf as [->|Hf]; [by vm_compute in Hnone|].
  apply list_elem_of_singleton in Hf as ->. reflexivity.
Defined.

(** ** Saving a form *)

Section SaveFacts.
Import Identity SaveForm.
Context (trim : string → string).

Local Abbreviation hasName := (SaveForm.hasName trim).
Local Abbreviation hasLabel := (SaveForm.hasLabel trim).
Local Abbreviation isComplete := (SaveForm.isComplete trim).

Lemma filter_none {A} (p : A → bool) (l : list A) :
  (0 <? length (List.filter p l))%nat = false ↔ Forall (λ a, p a = false) l.
Proof.
  induction l as [|a l IH]; simpl; [by split; [constructor|]|].
  destruct (p a) eqn:Hp; simpl.
  - split; [done|]. intros [Ha _]%Forall_cons. congruence.
  - rewrite IH. split; [by constructor|]. by intros [_ ?]%Forall_cons.
Qed.

Lemma filter_ext_Forall {A} (p q : A → bool) (l : list A) :
  Forall (λ a, p a = q a) l → List.filter p l = List.filter q l.
Proof. induction 1 as [|a l Ha _ IH]; simpl; [done|]. by rewrite Ha, IH. Qed.

Lemma truthy_length (s : string) : negb (Nat.eqb (String.length s) 0) = truthy s.
Proof. by destruct s. Qed.

Lemma isComplete_has (f : item) : isComplete f = hasName f && hasLabel f.
Proof.
  unfold isComplete, hasName, hasLabel. rewrite !truthy_length.
  by rewrite !andb_assoc.
Qed.

Lemma without_options_nil (f : item) :
  without_options f = true ↔ Schema.options (def f) = [].
Proof. unfold without_options. by destruct (Schema.options (def f)). Qed.

Lemma hasLabel_label (f : item) : hasLabel f = true → label_or_name f = label f.
Proof.
  unfold hasLabel, label_or_name. by intros [-> _]%andb_prop.
Qed.

Lemma all_valid (fields : list item) :
  (0 <? length (List.filter (λ f, negb (hasName f) || negb (hasLabel f)) fields))%nat
  = false
  ↔ Forall (λ f, hasName f = true ∧ hasLabel f = true) fields.
Proof.
  rewrite filter_none. apply Forall_iff. intros f.
  destruct (hasName f), (hasLabel f); simpl; intuition congruence.
Qed.

Lemma blank_has_no_name (token id : option string) (order : nat) :
  hasName (mkItem token id order FieldList.blank_field) = false.
Proof. reflexivity. Qed.

End SaveFacts.

(** X26. A form is sent to the forms service exactly when its title is not
    blank, it has a field, and every field has a name and a label that are
    not blank and, when it is a radio or select field, an option. *)
Theorem sent_forms_are_complete (trim : string → string)
    (title description : string) (fields : list Identity.item) :
  SaveForm.handleSubmit trim title description fields
  = SaveForm.Sent title description fields
  ↔ SaveForm.truthy (trim title) = true ∧ fields ≠ []
    ∧ Forall (SaveForm.complete trim) fields.
Proof.
  unfold SaveForm.handleSubmit.
  destruct (SaveForm.truthy (trim title)); simpl; [|by split; [|intros (? & _)]].
  destruct fields as [|f0 fields0]; [by split; [|intros (_ & ? & _)]|].
  set (fields := f0 :: fields0). cbn [length Nat.eqb].
  destruct (0 <? length (List.filter _ fields))%nat eqn:Hvalid.
  - split; [done|]. intros (_ & _ & Hall). exfalso.
    assert (Forall (λ f, SaveForm.hasName trim f = true ∧ SaveForm.hasLabel trim f = true) fields)
      as Hv%all_valid by (eapply Forall_impl; [exact Hall|]; by intros f (? & ? & _)).
    congruence.
  - apply all_valid in Hvalid.
    destruct (0 <? length (List.filter (λ f, SaveForm.isComplete trim f && _ && _) fields))%nat
      eqn:Hopts.
    + split; [done|]. intros (_ & _ & Hall). exfalso.
      assert ((0 <? length
                 (List.filter
                    (λ f, SaveForm.isComplete trim f && Schema.is_selectable (Identity.def f)
                          && SaveForm.without_options f) fields))%nat = false) as Hno.
      { apply filter_none. eapply Forall_impl; [exact Hall|].
        intros f (_ & _ & Hsel). apply not_true_is_false.
        intros [[_ Hs]%andb_prop Hw%without_options_nil]%andb_prop. by apply Hsel. }
      congruence.
    + split; [|done]. intros _. split; [done|]. split; [done|].
      apply filter_none in Hopts.
      rewrite Forall_forall in Hvalid, Hopts. apply Forall_forall. intros f Hf.
      destruct (Hvalid f Hf) as [Hn Hl]. split; [done|]. split; [done|].
      intros Hsel Hnil%without_options_nil. specialize (Hopts f Hf). simpl in Hopts.
      by rewrite isComplete_has, Hn, Hl, Hsel, Hnil in Hopts.
Qed.

(** X27. A field just added in the field list keeps the form from being
    sent: the new field has no label and no name yet. *)
Theorem added_field_blocks_save (trim : string → string)
    (fieldsWithStableIds updatedFields : list Identity.item)
    (timestamp : N) (random : string) (title description : string) :
  FieldList.handleAddField fieldsWithStableIds timestamp random
  = FieldList.Changed updatedFields →
  SaveForm.handleSubmit trim title description updatedFields = SaveForm.TitleRequired
  ∨ ∃ incompleteCount,
      SaveForm.handleSubmit trim title description updatedFields
      = SaveForm.Incomplete (S incompleteCount).
Proof.
  intros [= <-]. unfold SaveForm.handleSubmit.
  destruct (SaveForm.truthy (trim title)); simpl; [right|by left].
  rewrite length_app, Nat.add_comm. cbn [length Nat.add Nat.eqb].
  rewrite List.filter_app, length_app.
  generalize (length (List.filter
                        (λ f, negb (SaveForm.hasName trim f) || negb (SaveForm.hasLabel trim f))
                        fieldsWithStableIds)).
  intros n. cbn [List.filter]. rewrite blank_has_no_name. cbn [negb orb length].
  rewrite Nat.add_1_r. cbn [Nat.ltb Nat.leb]. eauto.
Qed.

Lemma added_field_blocks_save_witness :
  SaveForm.handleSubmit SaveForm.ascii_trim "Survey" ""
    (Identity.fieldsWithStableIds None [] ++
     [Identity.mkItem (Some "field_17_k3") (Some "field_17_k3") 0 FieldList.blank_field])
  = SaveForm.TitleRequired
  ∨ ∃ incompleteCount,
      SaveForm.handleSubmit SaveForm.ascii_trim "Survey" ""
        (Identity.fieldsWithStableIds None [] ++
         [Identity.mkItem (Some "field_17_k3") (Some "field_17_k3") 0
            FieldList.blank_field])
      = SaveForm.Incomplete (S incompleteCount).
Proof.
  apply (added_field_blocks_save SaveForm.ascii_trim
           (Identity.fieldsWithStableIds None []) _ 17%N "k3").
  reflexivity.
Defined.

(** X28. The message about missing options names the fields by their
    labels: it lists the labels of the radio and select fields without
    options, in the order of the form. *)
Theorem options_message_lists_labels (trim : string → string)
    (title description : string) (fields : list Identity.item) (fieldLabels : string) :
  SaveForm.handleSubmit trim title description fields
  = SaveForm.OptionsMissing fieldLabels →
  fieldLabels
  = String.concat ", "
      (SaveForm.label
         <$> List.filter
               (λ f, Schema.is_selectable (Identity.def f) && SaveForm.without_options f)
               fields).
Proof.
  unfold SaveForm.handleSubmit.
  destruct (SaveForm.truthy (trim title)); simpl; [|done].
  destruct (Nat.eqb (length fields) 0); [done|].
  destruct (0 <? length (List.filter _ fields))%nat eqn:Hvalid; [done|].
  apply all_valid in Hvalid.
  destruct (0 <? _)%nat; [|done]. intros [= <-]. f_equal.
  rewrite (filter_ext_Forall _
             (λ f, Schema.is_selectable (Identity.def f) && SaveForm.without_options f)).
  - apply list_fmap_ext. intros i f Hf%list_elem_of_lookup_2%list_elem_of_In.
    apply filter_In in Hf as [Hf _]. apply list_elem_of_In in Hf.
    rewrite Forall_forall in Hvalid. apply (hasLabel_label trim), Hvalid, Hf.
  - eapply Forall_impl; [exact Hvalid|]. intros f [Hn Hl]. simpl.
    by rewrite isComplete_has, Hn, Hl.
Qed.

Lemma options_message_lists_labels_witness :
  let colour :=
    Identity.mkItem None None 0
      (Schema.mkField "colour" "Colour" "radio" false [] Schema.no_validation None) in
  "Colour"
  = String.concat ", "
      (SaveForm.label
         <$> List.filter
               (λ f, Schema.is_selectable (Identity.def f) && SaveForm.without_options f)
               [colour; Identity.mkItem None None 1 Examples.notes]).
Proof.
  intros colour.
  apply (options_message_lists_labels SaveForm.ascii_trim "Survey" ""
           [colour; Identity.mkItem None None 1 Examples.notes] "Colour").
  reflexivity.
Defined.
